(** * hashira: exact base-N decoding and exact-rational Gauss-Jordan solving

    A shallow embedding of [src/main.js]:

    - [charToDigit] and [parseBigIntFromBase] (the base decoder);
    - the fraction helpers [gcd], [abs], [simplify], [add], [subtract],
      [multiply], [divide] (closures of [solveLinearEquations]);
    - [solveLinearEquations] itself, first as a function of the value of its
      argument (module [Solver]) and then over an explicit store of arrays
      (module [Store]) where the caller's matrix and the internal grid are
      distinct objects.

    Conventions.  A JavaScript [BigInt] is a [Z]; [/] on [BigInt] is
    truncating division ([Z.quot]) and raises [RangeError] on a zero divisor;
    [%] is [Z.rem].  A thrown exception is the [Err] branch of [result].
    A string is a [string] whose characters are UTF-16 code units below 256. *)

From Stdlib Require Import ZArith QArith Qcanon Lia Ascii String Znumtheory.
From stdpp Require Import base tactics option list numbers.

Local Open Scope Z_scope.

(** ** Exceptions *)

(** The exceptions [main.js] can raise, named after the error kinds of the
    specification where a [throw] of the source corresponds to one:

    - [InvalidDigitChar ch]: [throw new Error(`Invalid digit '${ch}'`)];
    - [InvalidBase b]: [throw new Error(`Base ${b} not supported ...`)];
    - [DigitOutOfRange ch b]:
      [throw new Error(`Digit '${ch}' not valid for base ${b}`)];
    - [DivisionByZero]: the [RangeError] of a [BigInt] division by [0n];
    - [TypeError]: a property read on [undefined].

    [SingularMatrix] is the remaining kind of the specification's taxonomy;
    no statement of [main.js] raises it. *)
Inductive error : Type :=
  | InvalidDigitChar (ch : ascii)
  | InvalidBase (b : Z)
  | DigitOutOfRange (ch : ascii) (b : Z)
  | DivisionByZero
  | TypeError
  | SingularMatrix.

Inductive result (A : Type) : Type :=
  | Ok (a : A)
  | Err (e : error).
Arguments Ok {A} a.
Arguments Err {A} e.

#[global] Instance result_ret : MRet result := λ A a, Ok a.
#[global] Instance result_bind : MBind result := λ A B f r,
  match r with
  | Ok a => f a
  | Err e => Err e
  end.
#[global] Instance result_fmap : FMap result := λ A B f r,
  match r with
  | Ok a => Ok (f a)
  | Err e => Err e
  end.

(** [for (let i = lo; i < lo + cnt; i++) s = body(i, s)], stopping at the
    first exception. *)
Fixpoint for_loop {St : Type} (lo : nat) (cnt : nat)
    (body : nat → St → result St) (s : St) : result St :=
  match cnt with
  | O => Ok s
  | S k => s' ← body lo s; for_loop (S lo) k body s'
  end.

(** ** The base decoder *)

Module Decoder.

Definition charCode (ch : ascii) : Z := Z.of_N (N_of_ascii ch).

Definition fromCharCode (c : Z) : ascii := ascii_of_N (Z.to_N c).

(** [String.prototype.toLowerCase] on one code unit below 256: the letters
    A-Z, and the Latin-1 capitals U+00C0..U+00DE except the multiplication
    sign U+00D7, move up by 32. *)
Definition toLowerCase (ch : ascii) : ascii :=
  let c := charCode ch in
  if (65 <=? c) && (c <=? 90) then fromCharCode (c + 32)
  else if (192 <=? c) && (c <=? 222) && negb (c =? 215) then fromCharCode (c + 32)
  else ch.

(** [charToDigit(ch)]; the comparisons of one-character strings are
    comparisons of their code units. *)
Definition charToDigit (ch : ascii) : result Z :=
  if (charCode "0" <=? charCode ch) && (charCode ch <=? charCode "9")
  then Ok (charCode ch - 48)
  else
    let lower := toLowerCase ch in
    if (charCode "a" <=? charCode lower) && (charCode lower <=? charCode "z")
    then Ok (charCode lower - 87)
    else Err (InvalidDigitChar ch).

(** White space and line terminators of ECMAScript below 256: TAB, LF, VT,
    FF, CR, SP and NBSP. *)
Definition isWhiteSpace (ch : ascii) : bool :=
  let c := charCode ch in
  ((9 <=? c) && (c <=? 13)) || (c =? 32) || (c =? 160).

Fixpoint trimStart (s : string) : string :=
  match s with
  | EmptyString => EmptyString
  | String ch rest => if isWhiteSpace ch then trimStart rest else s
  end.

Fixpoint trimEnd (s : string) : string :=
  match s with
  | EmptyString => EmptyString
  | String ch rest =>
      match trimEnd rest with
      | EmptyString => if isWhiteSpace ch then EmptyString else String ch EmptyString
      | rest' => String ch rest'
      end
  end.

Definition trim (s : string) : string := trimEnd (trimStart s).

(** The [for (const ch of s)] loop, with [result] the accumulator. *)
Fixpoint accumulate (b : Z) (s : string) (acc : Z) : result Z :=
  match s with
  | EmptyString => Ok acc
  | String ch rest =>
      digit ← charToDigit ch;
      if digit >=? b then Err (DigitOutOfRange ch b)
      else accumulate b rest (acc * b + digit)
  end.

(** [parseBigIntFromBase(str, base)] for a string [str] and an integer
    [base]. *)
Definition parseBigIntFromBase (str : string) (base : Z) : result Z :=
  let b := base in
  if (b <? 2) || (b >? 36) then Err (InvalidBase b)
  else
    let s := trim str in
    let '(negative, s) :=
      match s with
      | String "-" rest => (true, rest)
      | _ => (false, s)
      end in
    result ← accumulate b s 0;
    Ok (if negative : bool then - result else result).

End Decoder.

(** ** Fractions *)

Module Fraction.

(** [{ num, den }], two [BigInt] fields. *)
Record frac : Type := Frac { num : Z; den : Z }.

(** [makeFraction(num, den = 1n)] at its one call site, [makeFraction(v)]. *)
Definition makeFraction (v : Z) : frac := {| num := v; den := 1 |}.

(** [a / b] on [BigInt]. *)
Definition bigDiv (a b : Z) : result Z :=
  if b =? 0 then Err DivisionByZero else Ok (Z.quot a b).

(** [gcd(a, b) = b === 0n ? a : gcd(b, a % b)].  The recursion is cut after
    [gcdDepth b] calls, more than it ever makes ([gcd_unfold] below shows
    that the equation of the source holds for all arguments). *)
Fixpoint gcdRec (fuel : nat) (a b : Z) : Z :=
  match fuel with
  | O => a
  | S k => if b =? 0 then a else gcdRec k b (Z.rem a b)
  end.

Definition gcdDepth (b : Z) : nat := (2 * S (Z.to_nat (Z.log2 (Z.abs b))) + 2)%nat.

Definition gcd (a b : Z) : Z := gcdRec (gcdDepth b) a b.

Definition abs (x : Z) : Z := if x <? 0 then - x else x.

Definition simplify (f : frac) : result frac :=
  let g := gcd (abs (num f)) (abs (den f)) in
  let g := if den f <? 0 then - g else g in
  n ← bigDiv (num f) g;
  d ← bigDiv (den f) g;
  Ok {| num := n; den := d |}.

Definition add (a b : frac) : result frac :=
  simplify {| num := num a * den b + num b * den a; den := den a * den b |}.
Definition subtract (a b : frac) : result frac :=
  simplify {| num := num a * den b - num b * den a; den := den a * den b |}.
Definition multiply (a b : frac) : result frac :=
  simplify {| num := num a * num b; den := den a * den b |}.
Definition divide (a b : frac) : result frac :=
  simplify {| num := num a * den b; den := den a * num b |}.

End Fraction.

Import Fraction.

(** ** The solver, as a function of the value of its argument *)

Module Solver.

(** The local [mat]: an array of rows, each an array of fractions.  The rows
    are created by [matrix.map(...)], each a fresh array, so that no two
    entries of [mat] are the same object; the store model below makes that
    explicit. *)
Abbreviation grid := (list (list frac)).

(** [mat[r][c]]: a [TypeError] when [mat[r]] is [undefined], and otherwise a
    value that may be [undefined] ([None]). *)
Definition cell (mat : grid) (r c : nat) : result (option frac) :=
  match mat !! r with
  | None => Err TypeError
  | Some row => Ok (row !! c)
  end.

(** Reading a property ([.num], [.den], [.length]) off a value: a
    [TypeError] on [undefined]. *)
Definition field {A : Type} (v : option A) : result A :=
  match v with
  | None => Err TypeError
  | Some f => Ok f
  end.

(** [mat[r][c] = v], reached only after [mat[r][c]] was read and found
    defined, hence within the row. *)
Definition setCell (mat : grid) (r c : nat) (v : frac) : grid :=
  match mat !! r with
  | None => mat
  | Some row => <[r := <[c := v]> row]> mat
  end.

(** [[mat[i], mat[j]] = [mat[j], mat[i]]]. *)
Definition swapRows (mat : grid) (i j : nat) : grid :=
  match mat !! i, mat !! j with
  | Some ri, Some rj => <[j := ri]> (<[i := rj]> mat)
  | _, _ => mat
  end.

(** The pivot search: [pivotRow] starts as [col]; rows [r = col, col+1, ...]
    ([cnt] of them) are scanned and the first one with
    [mat[r][col].num !== 0n] is taken. *)
Fixpoint findPivot (mat : grid) (col r cnt : nat) : result nat :=
  match cnt with
  | O => Ok col
  | S k =>
      e ← cell mat r col;
      e ← field e;
      if negb (num e =? 0) then Ok r else findPivot mat col (S r) k
  end.

(** [for (c = col; c < m; c++) mat[col][c] = divide(mat[col][c], pivotValue)] *)
Definition normalize (m col : nat) (pivotValue : option frac) (mat : grid) : result grid :=
  for_loop col (m - col) (λ c mat,
    a ← cell mat col c;
    a ← field a;
    b ← field pivotValue;
    v ← divide a b;
    Ok (setCell mat col c v)) mat.

(** [for (c = col; c < m; c++)
       mat[r][c] = subtract(mat[r][c], multiply(factor, mat[col][c]))] *)
Definition eliminateRow (m col r : nat) (factor : option frac) (mat : grid) : result grid :=
  for_loop col (m - col) (λ c mat,
    x ← cell mat r c;
    y ← cell mat col c;
    f ← field factor;
    y ← field y;
    p ← multiply f y;
    x ← field x;
    v ← subtract x p;
    Ok (setCell mat r c v)) mat.

Definition eliminate (n m col : nat) (mat : grid) : result grid :=
  for_loop 0 n (λ r mat,
    if (r =? col)%nat then Ok mat
    else
      factor ← cell mat r col;
      eliminateRow m col r factor mat) mat.

(** The state of the outer loop: [mat], and the row swaps performed so far,
    oldest first, each as [(col, pivotRow)]. *)
Record elimState : Type := ElimState { mat_of : grid; swaps_of : list (nat * nat) }.

(** One iteration of [for (let col = 0; col < n; col++)]. *)
Definition pivotStep (n m col : nat) (st : elimState) : result elimState :=
  let mat := mat_of st in
  pivotRow ← findPivot mat col col (n - col);
  let '(mat, swaps) :=
    if negb (pivotRow =? col)%nat
    then (swapRows mat col pivotRow, swaps_of st ++ [(col, pivotRow)])
    else (mat, swaps_of st) in
  pivotValue ← cell mat col col;
  mat ← normalize m col pivotValue mat;
  mat ← eliminate n m col mat;
  Ok {| mat_of := mat; swaps_of := swaps |}.

(** [row[m - 1]]. *)
Definition lastEntry (m : nat) (row : list frac) : option frac :=
  match m with
  | O => None
  | S k => row !! k
  end.

(** The callback [(row) => simplify(row[m - 1])]. *)
Definition readSolution (m : nat) (row : list frac) : result frac :=
  f ← field (lastEntry m row); simplify f.

(** [matrix.map((row) => row.map((v) => makeFraction(v)))] *)
Definition toFractions (matrix : list (list Z)) : grid :=
  (λ row : list Z, makeFraction <$> row) <$> matrix.

(** The first [k] iterations of the outer loop on the grid built from
    [matrix]. *)
Definition gaussJordan (matrix : list (list Z)) (k : nat) : result elimState :=
  let n := length matrix in
  row0 ← field (matrix !! 0%nat);
  let m := length row0 in
  let mat := toFractions matrix in
  for_loop 0 k (pivotStep n m) {| mat_of := mat; swaps_of := [] |}.

(** [solveLinearEquations(matrix)] for an array of arrays of [BigInt]. *)
Definition solveLinearEquations (matrix : list (list Z)) : result (list frac) :=
  let n := length matrix in
  row0 ← field (matrix !! 0%nat);
  let m := length row0 in
  st ← gaussJordan matrix n;
  mapM (readSolution m) (mat_of st).

(** The row swaps of a run, [(col, pivotRow)] in the order performed. *)
Definition rowSwaps (matrix : list (list Z)) : result (list (nat * nat)) :=
  swaps_of <$> gaussJordan matrix (length matrix).

End Solver.

Import Solver.

(** ** The solver over a store of arrays *)

Module Store.

(** A reference to an array.  Fraction objects [{ num, den }] are never
    assigned to after their creation, so they are kept as values. *)
Abbreviation loc := nat.

Inductive object : Type :=
  | IntArray (xs : list Z)
  | FracArray (xs : list frac)
  | RefArray (rows : list loc).

(** The store maps the reference [l] to its [l]-th object; a new array gets
    the next free reference. *)
Abbreviation store := (list object).

(** Computations that read and write the store and may raise an exception;
    the store survives the exception. *)
Definition M (A : Type) : Type := store → store * result A.

#[global] Instance M_ret : MRet M := λ A a σ, (σ, Ok a).
#[global] Instance M_bind : MBind M := λ A B f p σ,
  match p σ with
  | (σ', Ok a) => f a σ'
  | (σ', Err e) => (σ', Err e)
  end.

(** A computation that does not touch the store. *)
Definition lift {A : Type} (r : result A) : M A := λ σ, (σ, r).

Definition alloc (o : object) : M loc := λ σ, (σ ++ [o], Ok (length σ)).

Definition write (l : loc) (o : object) : M unit := λ σ, (<[l := o]> σ, Ok ()).

Definition readInts (l : loc) : M (list Z) := λ σ,
  match σ !! l with
  | Some (IntArray xs) => (σ, Ok xs)
  | _ => (σ, Err TypeError)
  end.

Definition readFracs (l : loc) : M (list frac) := λ σ,
  match σ !! l with
  | Some (FracArray xs) => (σ, Ok xs)
  | _ => (σ, Err TypeError)
  end.

Definition readRefs (l : loc) : M (list loc) := λ σ,
  match σ !! l with
  | Some (RefArray rows) => (σ, Ok rows)
  | _ => (σ, Err TypeError)
  end.

Fixpoint forS (lo cnt : nat) (body : nat → M unit) : M unit :=
  match cnt with
  | O => mret ()
  | S k => body lo ≫= λ _, forS (S lo) k body
  end.

(** [mat[r][c]] *)
Definition cellS (mat : loc) (r c : nat) : M (option frac) :=
  rows ← readRefs mat;
  row ← lift (field (rows !! r));
  xs ← readFracs row;
  mret (xs !! c).

(** [mat[r][c] = v] *)
Definition setCellS (mat : loc) (r c : nat) (v : frac) : M unit :=
  rows ← readRefs mat;
  row ← lift (field (rows !! r));
  xs ← readFracs row;
  write row (FracArray (<[c := v]> xs)).

(** [[mat[i], mat[j]] = [mat[j], mat[i]]] *)
Definition swapRowsS (mat : loc) (i j : nat) : M unit :=
  rows ← readRefs mat;
  match rows !! i, rows !! j with
  | Some ri, Some rj => write mat (RefArray (<[j := ri]> (<[i := rj]> rows)))
  | _, _ => mret ()
  end.

Fixpoint findPivotS (mat : loc) (col r cnt : nat) : M nat :=
  match cnt with
  | O => mret col
  | S k =>
      e ← cellS mat r col;
      e ← lift (field e);
      if negb (num e =? 0) then mret r else findPivotS mat col (S r) k
  end.

Definition normalizeS (m col : nat) (pivotValue : option frac) (mat : loc) : M unit :=
  forS col (m - col) (λ c,
    a ← cellS mat col c;
    v ← lift (a ← field a; b ← field pivotValue; divide a b);
    setCellS mat col c v).

Definition eliminateRowS (m col r : nat) (factor : option frac) (mat : loc) : M unit :=
  forS col (m - col) (λ c,
    x ← cellS mat r c;
    y ← cellS mat col c;
    v ← lift (f ← field factor; y ← field y; p ← multiply f y;
              x ← field x; subtract x p);
    setCellS mat r c v).

Definition eliminateS (n m col : nat) (mat : loc) : M unit :=
  forS 0 n (λ r,
    if (r =? col)%nat then mret ()
    else
      factor ← cellS mat r col;
      eliminateRowS m col r factor mat).

Definition pivotStepS (n m : nat) (mat : loc) (col : nat) : M unit :=
  pivotRow ← findPivotS mat col col (n - col);
  _ ← (if negb (pivotRow =? col)%nat then swapRowsS mat col pivotRow else mret ());
  pivotValue ← cellS mat col col;
  _ ← normalizeS m col pivotValue mat;
  eliminateS n m col mat.

(** [matrix.map((row) => row.map((v) => makeFraction(v)))], given the
    elements of [matrix]: one new array per row; the new outer array is
    allocated by the caller of this function. *)
Fixpoint mapRowsS (rows : list loc) : M (list loc) :=
  match rows with
  | [] => mret []
  | row :: rest =>
      xs ← readInts row;
      row' ← alloc (FracArray (makeFraction <$> xs));
      rest' ← mapRowsS rest;
      mret (row' :: rest')
  end.

(** [mat.map((row) => simplify(row[m - 1]))], given the elements of [mat]. *)
Fixpoint extractS (m : nat) (rows : list loc) : M (list frac) :=
  match rows with
  | [] => mret []
  | row :: rest =>
      xs ← readFracs row;
      f ← lift (readSolution m xs);
      rest' ← extractS m rest;
      mret (f :: rest')
  end.

(** [solveLinearEquations(matrix)] for a reference [matrix]; the value is a
    reference to the new array of solution fractions. *)
Definition solveLinearEquationsS (matrix : loc) : M loc :=
  rows ← readRefs matrix;
  let n := length rows in
  row0 ← lift (field (rows !! 0%nat));
  xs0 ← readInts row0;
  let m := length xs0 in
  rows' ← mapRowsS rows;
  mat ← alloc (RefArray rows');
  _ ← forS 0 n (pivotStepS n m mat);
  rows' ← readRefs mat;
  sol ← extractS m rows';
  alloc (FracArray sol).

(** The caller's view of a matrix of [BigInt]s at reference [matrix]. *)
Definition holdsMatrix (σ : store) (matrix : loc) (rows : list (list Z)) : Prop :=
  ∃ ls, σ !! matrix = Some (RefArray ls)
        ∧ Forall2 (λ l xs, σ !! l = Some (IntArray xs)) ls rows.

End Store.

Import Store.

Import Decoder.

(** ** The main program *)

Module Main.

(** [{ x, y }], one sample point. *)
Record point : Type := Point { x : Z; y : Z }.

(** One entry of [inputData] other than [keys], in the order of
    [Object.keys]: its key as [BigInt(key)] reads it, its [base] field as
    [parseInt(_, 10)] reads it, and its [value] field, a string. *)
Record share : Type := Share { key : Z; base : Z; value : string }.

(** What the program writes: whether the warning went to the error stream,
    and the integer whose decimal digits go to the output stream. *)
Record output : Type := Output { warned : bool; printed : Z }.

(** The loop over the keys: every entry is decoded, in order, and the first
    exception ends the program. *)
Definition decodePoints (entries : list share) : result (list point) :=
  mapM (λ e : share,
    yVal ← parseBigIntFromBase (value e) (base e);
    Ok {| x := key e; y := yVal |}) entries.

(** [dataPoints.slice(0, k)] for an integer [k]: a negative [k] counts from
    the end. *)
Definition slice0 {A : Type} (l : list A) (k : Z) : list A :=
  let len := Z.of_nat (length l) in
  take (Z.to_nat (if k <? 0 then Z.max (len + k) 0 else Z.min k len)) l.

(** [for (let power = degree; power >= 0; power--)
       row.push(point.x ** BigInt(power))]
    with [cnt] iterations to go, that is from [power = cnt - 1] on. *)
Fixpoint powers (xVal : Z) (cnt : nat) : list Z :=
  match cnt with
  | O => []
  | S power => xVal ^ Z.of_nat power :: powers xVal power
  end.

(** One row, [[x^degree, ..., x^0, y]]. *)
Definition buildRow (degree : Z) (p : point) : list Z :=
  powers (x p) (Z.to_nat (degree + 1)) ++ [y p].

Definition buildMatrix (dataPoints : list point) (degreePlusOne : Z) : list (list Z) :=
  let degree := degreePlusOne - 1 in
  buildRow degree <$> dataPoints.

(** The program from [dataPoints.slice] on, for an integer
    [degreePlusOne]. *)
Definition reconstruct (dataPoints : list point) (degreePlusOne : Z) : result output :=
  let dataPoints := slice0 dataPoints degreePlusOne in
  let matrix := buildMatrix dataPoints degreePlusOne in
  coefficients ← solveLinearEquations matrix;
  constantTerm ← field (coefficients !! (length coefficients - 1)%nat);
  Ok {| warned := negb (den constantTerm =? 1); printed := num constantTerm |}.

(** The program on the entries of the input document and its [keys.k]. *)
Definition main (entries : list share) (degreePlusOne : Z) : result output :=
  dataPoints ← decodePoints entries;
  reconstruct dataPoints degreePlusOne.

End Main.

(** ** Notions used to state the properties *)

(** *** Digit strings *)

(** The digits 0..35 as the decoder's contract lists them, ['0'..'9'] then
    ['a'..'z'], and their upper-case forms. *)
Definition digitAlphabet : string := "0123456789abcdefghijklmnopqrstuvwxyz".
Definition digitAlphabetUpper : string := "0123456789ABCDEFGHIJKLMNOPQRSTUVWXYZ".

Definition glyph (d : Z) : ascii :=
  default "0"%char (String.get (Z.to_nat d) digitAlphabet).
Definition glyphUpper (d : Z) : ascii :=
  default "0"%char (String.get (Z.to_nat d) digitAlphabetUpper).

(** [ch] writes the digit [d] of base [b]. *)
Definition isDigitOf (b : Z) (ch : ascii) (d : Z) : Prop :=
  0 ≤ d < b ∧ (ch = glyph d ∨ ch = glyphUpper d).

(** The number written by the digits [ds], most significant first. *)
Fixpoint positional (b : Z) (ds : list Z) : Z :=
  match ds with
  | [] => 0
  | d :: rest => d * b ^ Z.of_nat (length rest) + positional b rest
  end.

(** [s] is a string of digits of base [b]. *)
Definition validDigitString (b : Z) (s : string) : Prop :=
  ∃ ds, Forall2 (isDigitOf b) (list_ascii_of_string s) ds.

(** [s] is a base-[b] representation of [v]: what a correct formatter may
    print for [v]. *)
Definition encodes (b v : Z) (s : string) : Prop :=
  ∃ ds, Forall2 (isDigitOf b) (list_ascii_of_string s) ds ∧ positional b ds = v.

(** One such formatter: repeated division, least significant digit first,
    in lower case and without leading zeros. *)
Fixpoint encodeRec (fuel : nat) (b v : Z) (acc : string) : string :=
  match fuel with
  | O => acc
  | S k =>
      let acc' := String (glyph (v mod b)) acc in
      if v <? b then acc' else encodeRec k b (v / b) acc'
  end.

Definition encode (v b : Z) : string :=
  encodeRec (S (Z.to_nat (Z.log2 v))) b v "".

Definition allWhiteSpace (s : string) : bool :=
  forallb isWhiteSpace (list_ascii_of_string s).

(** Two strings that differ at most in the case of their letters. *)
Inductive sameLetters : string → string → Prop :=
  | sameLetters_nil : sameLetters "" ""
  | sameLetters_cons c c' s s' :
      toLowerCase c = toLowerCase c' → sameLetters s s' →
      sameLetters (String c s) (String c' s').

(** *** Fractions as rationals *)

(** The rational a fraction with a positive denominator stands for. *)
Definition Qv (f : frac) : Qc := Q2Qc (num f # Z.to_pos (den f)).

(** The canonical form: lowest terms, positive denominator. *)
Definition canonical (f : frac) : Prop :=
  Z.gcd (Z.abs (num f)) (Z.abs (den f)) = 1 ∧ 0 < den f.

(** *** Linear systems *)

(** [Σ_{j < k} f j] *)
Fixpoint sumQc (k : nat) (f : nat → Qc) : Qc :=
  match k with
  | O => Q2Qc 0
  | S k' => (sumQc k' f + f k')%Qc
  end.

Definition ZtoQc (z : Z) : Qc := Q2Qc (inject_Z z).

(** The [j]-th entry of an integer row and of a vector, [0] outside. *)
Definition coeff (row : list Z) (j : nat) : Qc := ZtoQc (default 0 (row !! j)).
Definition entry (x : list Qc) (j : nat) : Qc := default (Q2Qc 0) (x !! j).

(** [x] satisfies the equation [row]: [Σ_{j<n} row[j] * x[j] = row[n]]. *)
Definition satisfies (n : nat) (row : list Z) (x : list Qc) : Prop :=
  sumQc n (λ j, coeff row j * entry x j)%Qc = coeff row n.

(** An [n × (n+1)] matrix. *)
Definition wellShaped (n : nat) (matrix : list (list Z)) : Prop :=
  length matrix = n ∧ Forall (λ row, length row = S n) matrix.

(** The coefficient block is non-singular: only the zero vector is mapped
    to zero. *)
Definition nonSingular (n : nat) (matrix : list (list Z)) : Prop :=
  ∀ x : list Qc, length x = n →
    Forall (λ row, sumQc n (λ j, coeff row j * entry x j)%Qc = Q2Qc 0) matrix →
    Forall (λ q, q = Q2Qc 0) x.

(** *** Polynomials *)

(** The value at [x] of the polynomial with integer coefficients [cs],
    highest power first. *)
Definition polyEval (cs : list Z) (x : Z) : Z :=
  fold_left (λ acc c, acc * x + c) cs 0.

(** The same over the rationals. *)
Definition polyEvalQ (cs : list Qc) (X : Qc) : Qc :=
  fold_left (λ acc c, acc * X + c)%Qc cs (Q2Qc 0).

(** The value of the polynomial with coefficients [p], lowest power
    first. *)
Fixpoint evalLow (p : list Qc) (X : Qc) : Qc :=
  match p with
  | [] => Q2Qc 0
  | c :: p' => (c + X * evalLow p' X)%Qc
  end.

(** The quotient of the polynomial [p], lowest power first, by
    [X - a]. *)
Fixpoint quotLow (a : Qc) (p : list Qc) : list Qc :=
  match p with
  | [] => []
  | _ :: p' =>
      match p' with
      | [] => []
      | _ => evalLow p' a :: quotLow a p'
      end
  end.

(** The product of the polynomial [p], lowest power first, by [X - a];
    [carry] is the coefficient one place below [p]. *)
Fixpoint mulLinear (a carry : Qc) (p : list Qc) : list Qc :=
  match p with
  | [] => [carry]
  | c :: p' => (carry - a * c)%Qc :: mulLinear a c p'
  end.

(** The monic polynomial with roots [ds], lowest power first. *)
Definition prodRoots (ds : list Qc) : list Qc :=
  fold_right (λ d p, mulLinear d (Q2Qc 0) p) [Q2Qc 1] ds.

(** *** Grids *)

(** The entry of [mat] at row [r], column [c], if there is one. *)
Definition at_ (mat : grid) (r c : nat) : option frac := mat !! r ≫= λ row, row !! c.

(** Its rational value, [0] outside the grid. *)
Definition gentry (mat : grid) (r c : nat) : Qc := from_option Qv (Q2Qc 0) (at_ mat r c).

(** [n] rows of [m] fractions, each with a positive denominator. *)
Definition rowsOk (n m : nat) (mat : grid) : Prop :=
  length mat = n
  ∧ ∀ r row, mat !! r = Some row → length row = m ∧ Forall (λ f, 0 < den f) row.

(** Columns [0 .. col-1] of the grid are those of the identity matrix. *)
Definition reduced (n col : nat) (mat : grid) : Prop :=
  ∀ r c, (r < n)%nat → (c < col)%nat →
    gentry mat r c = if decide (r = c) then Q2Qc 1 else Q2Qc 0.

(** [v] is orthogonal to each of the [n] rows of the grid, of width [m]. *)
Definition inKernel (n m : nat) (mat : grid) (v : nat → Qc) : Prop :=
  ∀ r, (r < n)%nat → sumQc m (λ c, gentry mat r c * v c)%Qc = Q2Qc 0.

(** Row [r] of the grid has a non-zero entry in column [col]. *)
Definition nonZeroAt (mat : grid) (col r : nat) : Prop :=
  ∃ f, at_ mat r col = Some f ∧ num f ≠ 0.

(** *** Stores *)

(** [σ] holds every object of [σ0] unchanged. *)
Definition frame (σ0 σ : store) : Prop :=
  ∀ l, (l < length σ0)%nat → σ !! l = σ0 !! l.

(** In the store [σ], where everything that was in [σ0] is unchanged, the
    local [mat] is an array made after [σ0], of distinct row arrays made
    after [σ0], which hold the grid [g]. *)
Definition represents (σ0 : store) (mat : loc) (σ : store) (g : grid) : Prop :=
  frame σ0 σ ∧ (length σ0 ≤ mat)%nat
  ∧ ∃ ls, σ !! mat = Some (RefArray ls) ∧ NoDup ls
      ∧ Forall (λ l, (length σ0 ≤ l)%nat ∧ l ≠ mat) ls
      ∧ Forall2 (λ l row, σ !! l = Some (FracArray row)) ls g.

(** A run over the store and a computation on a state that holds a grid
    end alike: both normally, in a store that represents the new grid, or
    both with the same exception. *)
Definition agrees {St : Type} (π : St → grid) (σ0 : store) (mat : loc)
    (out : store * result unit) (res : result St) : Prop :=
  match out.2, res with
  | Ok _, Ok s' => represents σ0 mat out.1 (π s')
  | Err e, Err e' => e = e' ∧ frame σ0 out.1
  | _, _ => False
  end.

(** * Properties *)

(** ** The base decoder *)

Section DecoderFacts.

Lemma below_36_cases (P : Z → Prop) :
  (∀ k : nat, (k < 36)%nat → P (Z.of_nat k)) → ∀ d, 0 ≤ d < 36 → P d.
Proof.
  intros HP d Hd. rewrite <- (Z2Nat.id d) by lia. apply HP. lia.
Qed.

Lemma glyph_table d :
  0 ≤ d < 36 →
  charToDigit (glyph d) = Ok d ∧ charToDigit (glyphUpper d) = Ok d
  ∧ isWhiteSpace (glyph d) = false ∧ isWhiteSpace (glyphUpper d) = false
  ∧ glyph d ≠ "-"%char ∧ glyphUpper d ≠ "-"%char.
Proof.
  revert d. apply below_36_cases. intros k Hk.
  do 36 (destruct k as [|k]; [vm_compute; repeat split; discriminate |]).
  lia.
Qed.

Lemma isDigitOf_inv b ch d :
  b ≤ 36 → isDigitOf b ch d →
  charToDigit ch = Ok d ∧ isWhiteSpace ch = false ∧ ch ≠ "-"%char ∧ 0 ≤ d < b.
Proof.
  intros Hb [Hd Hch].
  destruct (glyph_table d) as (H1 & H2 & H3 & H4 & H5 & H6); [lia |].
  destruct Hch as [-> | ->]; auto.
Qed.

Lemma list_ascii_app s1 s2 :
  list_ascii_of_string (s1 ++ s2) = list_ascii_of_string s1 ++ list_ascii_of_string s2.
Proof. induction s1 as [|c s1 IH]; simpl; [done | by rewrite IH]. Qed.

(** [trimEnd] leaves a string alone unless its last character is white
    space. *)
Lemma trimEnd_cons ch s :
  isWhiteSpace ch = false → trimEnd (String ch s) = String ch (trimEnd s).
Proof. intros H. simpl. rewrite H. by destruct (trimEnd s). Qed.

Lemma trimEnd_no_space s :
  forallb (λ c, negb (isWhiteSpace c)) (list_ascii_of_string s) = true →
  trimEnd s = s.
Proof.
  induction s as [|c s IH]; [done |].
  cbn [list_ascii_of_string forallb]. intros [Hc Hs]%andb_true_iff.
  apply negb_true_iff in Hc. rewrite trimEnd_cons by done. by rewrite IH.
Qed.

Lemma trimEnd_spaces s : allWhiteSpace s = true → trimEnd s = ""%string.
Proof.
  unfold allWhiteSpace. induction s as [|c s IH]; [done |].
  cbn [list_ascii_of_string forallb]. intros [Hc Hs]%andb_true_iff.
  simpl. by rewrite IH, Hc.
Qed.

Lemma trimStart_spaces_app s1 s2 :
  allWhiteSpace s1 = true → trimStart (s1 ++ s2) = trimStart s2.
Proof.
  unfold allWhiteSpace. induction s1 as [|c s1 IH]; [done |].
  cbn [list_ascii_of_string forallb]. intros [Hc Hs]%andb_true_iff.
  simpl. rewrite Hc. auto.
Qed.

Lemma trim_spaces s : allWhiteSpace s = true → trim s = ""%string.
Proof.
  intros H. unfold trim.
  assert (trimStart s = ""%string) as ->; [| done].
  revert H. unfold allWhiteSpace. induction s as [|c s IH]; [done |].
  cbn [list_ascii_of_string forallb]. intros [Hc Hs]%andb_true_iff.
  simpl. rewrite Hc. auto.
Qed.

Lemma validDigits_no_space b s ds :
  b ≤ 36 → Forall2 (isDigitOf b) (list_ascii_of_string s) ds →
  forallb (λ c, negb (isWhiteSpace c)) (list_ascii_of_string s) = true.
Proof.
  intros Hb. revert ds. induction s as [|c s IH]; intros ds H; [done |].
  cbn [list_ascii_of_string] in H. inversion H as [|? d ? ds' Hd Hrest]; subst.
  cbn [list_ascii_of_string forallb].
  destruct (isDigitOf_inv _ _ _ Hb Hd) as (_ & -> & _). simpl. eauto.
Qed.

(** The accumulation loop on a string of digits computes the positional
    value, on top of what was accumulated before. *)
Lemma accumulate_digits b s ds acc :
  b ≤ 36 → Forall2 (isDigitOf b) (list_ascii_of_string s) ds →
  accumulate b s acc = Ok (acc * b ^ Z.of_nat (length ds) + positional b ds).
Proof.
  intros Hb. revert ds acc. induction s as [|c s IH]; intros ds acc H.
  - inversion H; subst. simpl. f_equal. lia.
  - cbn [list_ascii_of_string] in H. inversion H as [|? d ? ds' Hd Hrest]; subst.
    destruct (isDigitOf_inv _ _ _ Hb Hd) as (Hc & _ & _ & Hrange).
    cbn [accumulate]. rewrite Hc. cbn.
    destruct (Z.geb_spec d b); [lia |].
    rewrite (IH ds' _ Hrest). f_equal.
    cbn [length positional]. rewrite Nat2Z.inj_succ, Z.pow_succ_r by lia. ring.
Qed.

(** Decoding a string that starts with neither white space nor a minus
    sign, with and without a minus sign put in front. *)
Lemma parse_unsigned s b :
  trimStart s = s → (∀ rest, s ≠ String "-" rest) →
  parseBigIntFromBase s b
  = (if (b <? 2) || (b >? 36) then Err (InvalidBase b)
     else accumulate b (trimEnd s) 0).
Proof.
  intros Hs Hminus. unfold parseBigIntFromBase, trim. rewrite Hs.
  destruct ((b <? 2) || (b >? 36)); [done |].
  assert (match trimEnd s with String "-" rest => False | _ => True end) as Hhead.
  { destruct s as [|c s]; [done |].
    simpl in Hs. destruct (isWhiteSpace c) eqn:Hc.
    - exfalso. clear Hminus. revert c Hc Hs. induction s as [|c' s IH]; [done |].
      intros c Hc Hs. simpl in Hs. destruct (isWhiteSpace c') eqn:Hc'.
      + apply (IH c' Hc'). rewrite Hs at 1.
        apply (f_equal String.length) in Hs. simpl in Hs.
        assert (∀ t, (String.length (trimStart t) ≤ String.length t)%nat) as Hlen.
        { induction t as [|x t IHt]; simpl; [lia |]. destruct (isWhiteSpace x); simpl; lia. }
        specialize (Hlen s). lia.
      + apply (f_equal String.length) in Hs. simpl in Hs. lia.
    - rewrite trimEnd_cons by done.
      destruct (ascii_dec c "-") as [-> |]; [by eapply Hminus |].
      destruct c as [[] [] [] [] [] [] [] []]; done. }
  destruct (trimEnd s) as [|c r]; [simpl; done |].
  destruct (ascii_dec c "-") as [-> | Hne]; [done |].
  assert (match c with "-"%char => (true, r) | _ => (false, String c r) end
          = (false, String c r)) as ->.
  { destruct c as [[] [] [] [] [] [] [] []]; done. }
  by destruct (accumulate b (String c r) 0).
Qed.

Lemma parse_minus s b :
  parseBigIntFromBase (String "-" s) b
  = (if (b <? 2) || (b >? 36) then Err (InvalidBase b)
     else Z.opp <$> accumulate b (trimEnd s) 0).
Proof.
  unfold parseBigIntFromBase, trim.
  destruct ((b <? 2) || (b >? 36)); [done |].
  change (trimStart (String "-" s)) with (String "-" s).
  rewrite trimEnd_cons by done. by destruct (accumulate b (trimEnd s) 0).
Qed.

Lemma validDigits_head b s ds :
  b ≤ 36 → Forall2 (isDigitOf b) (list_ascii_of_string s) ds →
  trimStart s = s ∧ (∀ rest, s ≠ String "-" rest) ∧ trimEnd s = s.
Proof.
  intros Hb H. split_and!.
  - destruct s as [|c s]; [done |]. cbn [list_ascii_of_string] in H.
    inversion H as [|? d ? ds' Hd Hrest]; subst.
    destruct (isDigitOf_inv _ _ _ Hb Hd) as (_ & Hc & _). simpl. by rewrite Hc.
  - intros rest ->. cbn [list_ascii_of_string] in H.
    inversion H as [|? d ? ds' Hd Hrest]; subst.
    by destruct (isDigitOf_inv _ _ _ Hb Hd) as (_ & _ & Hc & _).
  - eapply trimEnd_no_space, validDigits_no_space; eauto.
Qed.

Lemma positional_nonneg b ds : 0 ≤ b → Forall (λ d, 0 ≤ d) ds → 0 ≤ positional b ds.
Proof.
  intros Hb. induction 1 as [|d ds Hd _ IH]; simpl; [lia |].
  assert (0 ≤ b ^ Z.of_nat (length ds)) by (apply Z.pow_nonneg; lia). nia.
Qed.

Lemma base_check_ok b : 2 ≤ b ≤ 36 → (b <? 2) || (b >? 36) = false.
Proof. intros. rewrite Z.gtb_ltb. apply orb_false_iff. split; apply Z.ltb_ge; lia. Qed.

Lemma parse_encodes b v s :
  2 ≤ b ≤ 36 → encodes b v s → parseBigIntFromBase s b = Ok v.
Proof.
  intros Hb (ds & Hds & <-).
  destruct (validDigits_head b s ds ltac:(lia) Hds) as (H1 & H2 & H3).
  rewrite parse_unsigned, base_check_ok, H3 by done.
  rewrite (accumulate_digits b s ds) by (done || lia). f_equal; lia.
Qed.

Lemma charToDigit_inv ch d :
  charToDigit ch = Ok d → isWhiteSpace ch = false ∧ ch ≠ "-"%char ∧ 0 ≤ d < 36.
Proof.
  destruct ch as [[] [] [] [] [] [] [] []]; vm_compute; intros H;
    try discriminate H; injection H as <-; repeat split; discriminate.
Qed.

Lemma accumulate_app b s1 s2 acc :
  accumulate b (s1 ++ s2) acc = accumulate b s1 acc ≫= accumulate b s2.
Proof.
  revert acc. induction s1 as [|c s1 IH]; intros acc; [done |].
  cbn [String.append accumulate]. destruct (charToDigit c) as [d |]; [| done].
  cbn. destruct (d >=? b); [done |]. apply IH.
Qed.

Lemma trimEnd_app_no_space s1 s2 :
  forallb (λ c, negb (isWhiteSpace c)) (list_ascii_of_string s1) = true →
  trimEnd (s1 ++ s2) = (s1 ++ trimEnd s2)%string.
Proof.
  induction s1 as [|c s1 IH]; [done |].
  cbn [list_ascii_of_string forallb]. intros [Hc Hs]%andb_true_iff.
  apply negb_true_iff in Hc. cbn [String.append].
  rewrite trimEnd_cons by done. by rewrite IH.
Qed.

Lemma positional_app b xs ys :
  positional b (xs ++ ys)
  = positional b xs * b ^ Z.of_nat (length ys) + positional b ys.
Proof.
  induction xs as [|x xs IH]; simpl; [lia |].
  rewrite IH, length_app, Nat2Z.inj_add, Z.pow_add_r by lia. ring.
Qed.

(** [encode] prints a representation of its argument. *)
Lemma encodeRec_encodes b fuel v acc ds :
  2 ≤ b ≤ 36 → 0 ≤ v < 2 ^ Z.of_nat fuel → (0 < fuel)%nat →
  Forall2 (isDigitOf b) (list_ascii_of_string acc) ds →
  ∃ ds', Forall2 (isDigitOf b) (list_ascii_of_string (encodeRec fuel b v acc)) (ds' ++ ds)
         ∧ positional b ds' = v.
Proof.
  intros Hb. revert v acc ds. induction fuel as [|fuel IH]; intros v acc ds Hv Hfuel Hacc; [lia |].
  cbn [encodeRec].
  assert (0 ≤ v mod b < b) as Hmod by (apply Z.mod_pos_bound; lia).
  assert (isDigitOf b (glyph (v mod b)) (v mod b)) as Hd by (split; auto).
  destruct (Z.ltb_spec v b) as [Hlt | Hge].
  - exists [v mod b]. split; [by constructor |].
    simpl. rewrite Z.mod_small by lia. lia.
  - rewrite Nat2Z.inj_succ, Z.pow_succ_r in Hv by lia.
    assert (0 < v / b) by (apply Z.div_str_pos; lia).
    assert (v / b ≤ v / 2) by (apply Z.div_le_compat_l; lia).
    assert (v / 2 < 2 ^ Z.of_nat fuel) by (apply Z.div_lt_upper_bound; lia).
    destruct fuel as [|fuel']; [simpl in *; lia |].
    destruct (IH (v / b) (String (glyph (v mod b)) acc) (v mod b :: ds))
      as (ds' & Hds' & Hval); [lia | lia | by constructor |].
    exists (ds' ++ [v mod b]). rewrite <- app_assoc. split; [done |].
    rewrite positional_app, Hval. simpl.
    change (Z.of_nat 1) with 1. change (Z.of_nat 0) with 0.
    rewrite Z.pow_1_r, Z.pow_0_r. pose proof (Z.div_mod v b). lia.
Qed.

Lemma encode_encodes b v : 2 ≤ b ≤ 36 → 0 ≤ v → encodes b v (encode v b).
Proof.
  intros Hb Hv. unfold encode.
  destruct (encodeRec_encodes b (S (Z.to_nat (Z.log2 v))) v "" []) as (ds & Hds & Hval);
    [done | | lia | constructor |].
  - split; [done |]. rewrite Nat2Z.inj_succ, Z2Nat.id by apply Z.log2_nonneg.
    destruct (Z.eq_dec v 0) as [-> | ?]; [done |]. apply Z.log2_spec. lia.
  - exists ds. by rewrite app_nil_r in Hds.
Qed.

(** The round trip through the formatter [encode]. *)
Lemma decode_encode b v :
  2 ≤ b ≤ 36 → 0 ≤ v → parseBigIntFromBase (encode v b) b = Ok v.
Proof. intros Hb Hv. by apply parse_encodes, encode_encodes. Qed.

Lemma digits_then_char_head b p ds ch q :
  b ≤ 36 → Forall2 (isDigitOf b) (list_ascii_of_string p) ds →
  isWhiteSpace ch = false → ch ≠ "-"%char →
  trimStart (p ++ String ch q) = (p ++ String ch q)%string
  ∧ ∀ rest, (p ++ String ch q)%string ≠ String "-" rest.
Proof.
  intros Hb Hds Hws Hminus. destruct p as [|c p].
  - simpl. rewrite Hws. split; [done |]. by intros rest [= ->].
  - cbn [list_ascii_of_string] in Hds. inversion Hds as [|? d ? ds' Hd Hrest]; subst.
    destruct (isDigitOf_inv _ _ _ Hb Hd) as (_ & Hc & Hm & _).
    simpl. rewrite Hc. split; [done |]. by intros rest [= ->].
Qed.

End DecoderFacts.

(** C5 (decoder round trip).  For every base [b] in [2, 36] and every
    non-negative integer [v], decoding any base-[b] representation [s] of [v]
    (the digits of [v], most significant first, written with ['0'..'9'] and
    ['a'..'z'] in either case: what any correct formatter prints) yields
    exactly [v]. *)
Theorem decoder_round_trip b v s :
  2 ≤ b ≤ 36 → 0 ≤ v → encodes b v s → parseBigIntFromBase s b = Ok v.
Proof. intros Hb _ Hs. by apply parse_encodes. Qed.

Lemma decoder_round_trip_witness :
  encodes 16 48879 "bEef" ∧ parseBigIntFromBase "bEef" 16 = Ok 48879.
Proof.
  assert (encodes 16 48879 "bEef") as H.
  { exists [11; 14; 14; 15]. split; [| reflexivity].
    repeat constructor; (lia || (left; reflexivity) || (right; reflexivity)). }
  split; [exact H |]. apply decoder_round_trip; [lia | lia | exact H].
Defined.

(** C6 (decoder sign).  For every base [b] in [2, 36] and every string [s]
    of digits of base [b], [s] decodes to some [v] and ["-" + s] decodes to
    [- v]. *)
Theorem decoder_sign b s :
  2 ≤ b ≤ 36 → validDigitString b s →
  ∃ v, parseBigIntFromBase s b = Ok v
       ∧ parseBigIntFromBase (String "-" s) b = Ok (- v).
Proof.
  intros Hb [ds Hds].
  destruct (validDigits_head b s ds ltac:(lia) Hds) as (H1 & H2 & H3).
  exists (positional b ds).
  rewrite parse_minus, parse_unsigned, base_check_ok, H3 by done.
  rewrite (accumulate_digits b s ds) by (done || lia).
  split; [f_equal; lia |]. cbn. f_equal; lia.
Qed.

Lemma decoder_sign_witness :
  validDigitString 36 "Zz9"
  ∧ ∃ v, parseBigIntFromBase "Zz9" 36 = Ok v ∧ parseBigIntFromBase "-Zz9" 36 = Ok (- v).
Proof.
  assert (validDigitString 36 "Zz9") as H.
  { exists [35; 35; 9].
    repeat constructor; (lia || (left; reflexivity) || (right; reflexivity)). }
  split; [exact H |]. apply decoder_sign; [lia | exact H].
Defined.

(** C7 (decoder range).  For every base [b] in [2, 36]: a character whose
    digit value is at least [b], met after any number of digits of base [b]
    (and whatever follows it), makes the decoder fail with [DigitOutOfRange]
    for that character and base; a single character whose digit value is
    below [b] decodes to that value.  In particular ["g"] is rejected in base
    16 and ["z"] decodes to 35 in base 36. *)
Theorem decoder_digit_range b :
  2 ≤ b ≤ 36 →
  (∀ ch d p q, charToDigit ch = Ok d → b ≤ d → validDigitString b p →
     parseBigIntFromBase (p ++ String ch q) b = Err (DigitOutOfRange ch b))
  ∧ (∀ ch d, charToDigit ch = Ok d → d < b →
       parseBigIntFromBase (String ch "") b = Ok d)
  ∧ parseBigIntFromBase "g" 16 = Err (DigitOutOfRange "g" 16)
  ∧ parseBigIntFromBase "z" 36 = Ok 35.
Proof.
  intros Hb. split_and!; [| | reflexivity | reflexivity].
  - intros ch d p q Hch Hd [ds Hds].
    destruct (charToDigit_inv _ _ Hch) as (Hws & Hminus & _).
    destruct (digits_then_char_head b p ds ch q) as [H1 H2]; [lia | done..|].
    rewrite parse_unsigned, base_check_ok by done.
    rewrite trimEnd_app_no_space by (eapply validDigits_no_space; [| done]; lia).
    rewrite trimEnd_cons, accumulate_app by done.
    rewrite (accumulate_digits b p ds) by (done || lia). cbn.
    rewrite Hch. cbn. destruct (Z.geb_spec d b); [done | lia].
  - intros ch d Hch Hd.
    destruct (charToDigit_inv _ _ Hch) as (Hws & Hminus & _).
    rewrite parse_unsigned, base_check_ok by
      (done || (simpl; by rewrite Hws) || (by intros rest [= ->])).
    rewrite trimEnd_cons by done. cbn. rewrite Hch. cbn.
    destruct (Z.geb_spec d b); [lia |]. f_equal; lia.
Qed.

Lemma decoder_digit_range_witness :
  parseBigIntFromBase "19a8" 10 = Err (DigitOutOfRange "a" 10)
  ∧ parseBigIntFromBase "7" 10 = Ok 7.
Proof.
  destruct (decoder_digit_range 10 ltac:(lia)) as (Hreject & Haccept & _).
  split.
  - apply (Hreject "a"%char 10 "19"%string "8"%string); [reflexivity | lia |].
    exists [1; 9]. repeat constructor; (lia || (left; reflexivity)).
  - apply (Haccept "7"%char 7); [reflexivity | lia].
Defined.

(** C9 (blank input).  For every base [b] in [2, 36], a string made of
    white space only (the empty string included), or of a single minus sign
    with only white space around it, decodes to 0. *)
Theorem decoder_blank_is_zero b s :
  2 ≤ b ≤ 36 →
  (allWhiteSpace s = true
   ∨ ∃ s1 s2, allWhiteSpace s1 = true ∧ allWhiteSpace s2 = true
              ∧ s = (s1 ++ String "-" s2)%string) →
  parseBigIntFromBase s b = Ok 0.
Proof.
  intros Hb [Hs | (s1 & s2 & H1 & H2 & ->)]; unfold parseBigIntFromBase;
    rewrite base_check_ok by done.
  - by rewrite trim_spaces.
  - unfold trim. rewrite trimStart_spaces_app by done.
    change (trimStart (String "-" s2)) with (String "-" s2).
    rewrite trimEnd_cons, trimEnd_spaces by done. reflexivity.
Qed.

Lemma decoder_blank_is_zero_witness :
  parseBigIntFromBase "" 2 = Ok 0 ∧ parseBigIntFromBase "  " 10 = Ok 0
  ∧ parseBigIntFromBase "-" 36 = Ok 0 ∧ parseBigIntFromBase " - " 16 = Ok 0.
Proof.
  split_and!.
  - apply decoder_blank_is_zero; [lia | left; reflexivity].
  - apply decoder_blank_is_zero; [lia | left; reflexivity].
  - apply decoder_blank_is_zero; [lia |].
    right. exists ""%string, ""%string. repeat split; reflexivity.
  - apply decoder_blank_is_zero; [lia |].
    right. exists " "%string, " "%string. repeat split; reflexivity.
Defined.

(** ** Fractions *)

Section FractionFacts.

(** The cut-off of [gcdRec] is never reached: with [|b| < 2^k], any two
    budgets above [2k] give the same value. *)
Lemma gcdRec_stable k : ∀ a b n n',
  Z.abs b < 2 ^ Z.of_nat k → (2 * k < n)%nat → (2 * k < n')%nat →
  gcdRec n a b = gcdRec n' a b.
Proof.
  induction k as [|k IH]; intros a b n n' Hb Hn Hn'.
  - change (2 ^ Z.of_nat 0) with 1 in Hb. assert (b = 0) as -> by lia.
    destruct n, n'; try lia; reflexivity.
  - destruct n as [|n]; [lia |]. destruct n' as [|n']; [lia |]. cbn [gcdRec].
    destruct (Z.eqb_spec b 0) as [| Hb0]; [done |].
    destruct n as [|n]; [lia |]. destruct n' as [|n']; [lia |]. cbn [gcdRec].
    destruct (Z.eqb_spec (Z.rem a b) 0) as [| Hr0]; [done |].
    apply IH; [| lia | lia].
    rewrite Nat2Z.inj_succ, Z.pow_succ_r in Hb by lia.
    pose proof (Z.rem_bound_abs a b Hb0).
    pose proof (Z.rem_bound_abs b (Z.rem a b) Hr0) as Hlt.
    assert (Z.abs (Z.rem b (Z.rem a b)) ≤ Z.abs b - Z.abs (Z.rem a b)); [| lia].
    rewrite <- (Z.rem_abs b (Z.rem a b)) by done.
    set (x := Z.abs b) in *. set (y := Z.abs (Z.rem a b)) in *.
    assert (0 < y) by lia.
    rewrite Z.rem_mod_nonneg by lia.
    pose proof (Z.div_mod x y ltac:(lia)).
    assert (0 < x / y) by (apply Z.div_str_pos; lia).
    pose proof (Z.mod_pos_bound x y ltac:(lia)). nia.
Qed.

Lemma Zabs_lt_pow_log2 b : Z.abs b < 2 ^ Z.of_nat (S (Z.to_nat (Z.log2 (Z.abs b)))).
Proof.
  rewrite Nat2Z.inj_succ, Z2Nat.id by apply Z.log2_nonneg.
  destruct (Z.eq_dec (Z.abs b) 0) as [-> | ?]; [done |]. apply Z.log2_spec. lia.
Qed.

(** The defining equation of the source's [gcd]. *)
Lemma gcd_unfold a b : gcd a b = if b =? 0 then a else gcd b (Z.rem a b).
Proof.
  unfold gcd at 1. unfold gcdDepth.
  replace (2 * S (Z.to_nat (Z.log2 (Z.abs b))) + 2)%nat
    with (S (2 * S (Z.to_nat (Z.log2 (Z.abs b))) + 1)) by lia.
  cbn [gcdRec].
  destruct (Z.eqb_spec b 0) as [| Hb0]; [done |].
  unfold gcd, gcdDepth.
  eapply (gcdRec_stable (S (Z.to_nat (Z.log2 (Z.abs (Z.rem a b))))));
    [apply Zabs_lt_pow_log2 | | lia].
  assert (Z.log2 (Z.abs (Z.rem a b)) ≤ Z.log2 (Z.abs b)); [| lia].
  apply Z.log2_le_mono. pose proof (Z.rem_bound_abs a b Hb0). lia.
Qed.

Lemma gcd_correct a b : 0 ≤ a → 0 ≤ b → gcd a b = Z.gcd a b.
Proof.
  intros Ha Hb. revert a Ha. pattern b. apply Zlt_0_ind; [clear b Hb | done].
  intros b IH Hb a Ha. rewrite gcd_unfold.
  destruct (Z.eqb_spec b 0) as [-> | Hb0].
  - rewrite Z.gcd_0_r. lia.
  - rewrite Z.rem_mod_nonneg by lia.
    pose proof (Z.mod_pos_bound a b ltac:(lia)).
    rewrite IH by lia. rewrite Z.gcd_comm, Z.gcd_mod by lia. apply Z.gcd_comm.
Qed.

Lemma abs_correct x : abs x = Z.abs x.
Proof. unfold abs. destruct (Z.ltb_spec x 0); lia. Qed.

(** What [simplify] returns on a non-zero denominator. *)
Lemma simplify_spec f :
  den f ≠ 0 →
  ∃ r, simplify f = Ok r ∧ canonical r ∧ num r * den f = num f * den r.
Proof.
  intros Hden. unfold simplify.
  rewrite !abs_correct, gcd_correct by lia. rewrite Z.gcd_abs_l, Z.gcd_abs_r.
  set (g := Z.gcd (num f) (den f)).
  assert (0 < g) as Hg.
  { pose proof (Z.gcd_nonneg (num f) (den f)).
    destruct (Z.eq_dec g 0) as [H0 |]; [| lia].
    apply Z.gcd_eq_0_r in H0. lia. }
  pose proof (Z.gcd_div_gcd (num f) (den f) g ltac:(lia) eq_refl) as Hcop.
  destruct (Z.gcd_divide_l (num f) (den f)) as [k Hk].
  destruct (Z.gcd_divide_r (num f) (den f)) as [l Hl].
  fold g in Hk, Hl. rewrite Hk, Hl, !Z.div_mul in Hcop by lia.
  unfold bigDiv.
  destruct (Z.ltb_spec (den f) 0) as [Hneg | Hpos].
  - destruct (Z.eqb_spec (- g) 0); [lia |]. cbn.
    assert (Z.quot (num f) (- g) = - k) as ->
      by (replace (num f) with (- k * - g) by lia; apply Z.quot_mul; lia).
    assert (Z.quot (den f) (- g) = - l) as ->
      by (replace (den f) with (- l * - g) by lia; apply Z.quot_mul; lia).
    eexists. split; [reflexivity |]. cbn [num den].
    split; [split |]; cbn [num den]; [| nia | nia].
    by rewrite Z.gcd_abs_l, Z.gcd_abs_r, Z.gcd_opp_l, Z.gcd_opp_r.
  - destruct (Z.eqb_spec g 0); [lia |]. cbn.
    assert (Z.quot (num f) g = k) as -> by (rewrite Hk; apply Z.quot_mul; lia).
    assert (Z.quot (den f) g = l) as -> by (rewrite Hl; apply Z.quot_mul; lia).
    eexists. split; [reflexivity |]. cbn [num den].
    split; [split |]; cbn [num den]; [| nia | nia].
    by rewrite Z.gcd_abs_l, Z.gcd_abs_r.
Qed.

Lemma gcd_zero_r a : gcd a 0 = a.
Proof. by rewrite gcd_unfold. Qed.

(** [simplify] on a zero denominator: the pair is divided by [|num|]. *)
Lemma simplify_zero_den n :
  simplify {| num := n; den := 0 |}
  = if n =? 0 then Err DivisionByZero else Ok {| num := Z.sgn n; den := 0 |}.
Proof.
  unfold simplify. cbn [num den]. rewrite gcd_zero_r, abs_correct.
  change (0 <? 0) with false. cbv iota. unfold bigDiv.
  destruct (Z.eqb_spec n 0) as [-> | Hn]; [done |].
  destruct (Z.eqb_spec (Z.abs n) 0); [lia |]. cbn.
  rewrite Z.quot_0_l by lia. do 2 f_equal.
  pose proof (Z.abs_sgn n) as H. rewrite Z.mul_comm in H.
  rewrite <- H at 1. apply Z.quot_mul. lia.
Qed.

(** [ZtoQc] is the embedding of the integers in the rationals. *)
Lemma ZtoQc_add a b : ZtoQc (a + b) = (ZtoQc a + ZtoQc b)%Qc.
Proof.
  unfold ZtoQc. apply Qc_is_canon. simpl. rewrite !Qred_correct.
  rewrite inject_Z_plus. reflexivity.
Qed.

Lemma ZtoQc_mul a b : ZtoQc (a * b) = (ZtoQc a * ZtoQc b)%Qc.
Proof.
  unfold ZtoQc. apply Qc_is_canon. simpl. rewrite !Qred_correct.
  rewrite inject_Z_mult. reflexivity.
Qed.

Lemma ZtoQc_opp a : ZtoQc (- a) = (- ZtoQc a)%Qc.
Proof.
  unfold ZtoQc. apply Qc_is_canon. simpl. rewrite !Qred_correct.
  rewrite inject_Z_opp. reflexivity.
Qed.

Lemma ZtoQc_sub a b : ZtoQc (a - b) = (ZtoQc a - ZtoQc b)%Qc.
Proof.
  replace (a - b) with (a + - b) by lia. by rewrite ZtoQc_add, ZtoQc_opp.
Qed.

Lemma ZtoQc_inj a b : ZtoQc a = ZtoQc b → a = b.
Proof.
  unfold ZtoQc. intros H. apply Q2Qc_eq_iff in H. by apply inject_Z_injective.
Qed.

Lemma ZtoQc_nonzero a : a ≠ 0 → ZtoQc a ≠ 0%Qc.
Proof. intros Ha H. apply Ha. by apply ZtoQc_inj. Qed.

Lemma Qv_ratio f : 0 < den f → Qv f = (ZtoQc (num f) / ZtoQc (den f))%Qc.
Proof.
  intros Hden. unfold Qv, ZtoQc. apply Qc_is_canon. simpl.
  rewrite !Qred_correct. rewrite Qmake_Qdiv. by rewrite Z2Pos.id.
Qed.

(** A fraction with a positive denominator is the rational [n / d] as soon
    as it is [n / d] after cross-multiplication. *)
Lemma Qv_cross f n d :
  0 < den f → d ≠ 0 → num f * d = n * den f →
  Qv f = (ZtoQc n / ZtoQc d)%Qc.
Proof.
  intros Hden Hd Hcross. rewrite Qv_ratio by done.
  apply (f_equal ZtoQc) in Hcross. rewrite !ZtoQc_mul in Hcross.
  assert (ZtoQc d ≠ 0%Qc) by by apply ZtoQc_nonzero.
  assert (ZtoQc (den f) ≠ 0%Qc) by (apply ZtoQc_nonzero; lia).
  transitivity ((ZtoQc (num f) * ZtoQc d) / (ZtoQc (den f) * ZtoQc d))%Qc;
    [field; by split |].
  rewrite Hcross. field; by split.
Qed.

Lemma Qv_makeFraction v : Qv (makeFraction v) = ZtoQc v.
Proof. unfold Qv, makeFraction, ZtoQc. reflexivity. Qed.

Lemma Qv_zero f : 0 < den f → (Qv f = 0%Qc ↔ num f = 0).
Proof.
  intros Hden. rewrite Qv_ratio by done.
  assert (ZtoQc (den f) ≠ 0%Qc) by (apply ZtoQc_nonzero; lia).
  split.
  - intros H0. apply ZtoQc_inj. change (ZtoQc 0) with 0%Qc.
    rewrite <- (Qcmult_div_r (ZtoQc (num f)) (ZtoQc (den f))) by done.
    rewrite H0. ring.
  - intros ->. change (ZtoQc 0) with 0%Qc. field; done.
Qed.

Lemma simplify_Qv f :
  0 < den f → ∃ c, simplify f = Ok c ∧ canonical c ∧ Qv c = Qv f.
Proof.
  intros Hden. destruct (simplify_spec f) as (c & Hc & Hcan & Hcross); [lia |].
  exists c. split_and!; [done.. |].
  rewrite (Qv_cross c (num f) (den f) (proj2 Hcan) ltac:(lia) Hcross).
  by rewrite Qv_ratio.
Qed.

Lemma subtract_Qv a b :
  0 < den a → 0 < den b →
  ∃ c, subtract a b = Ok c ∧ canonical c ∧ Qv c = (Qv a - Qv b)%Qc.
Proof.
  intros Ha Hb. unfold subtract.
  destruct (simplify_spec {| num := num a * den b - num b * den a; den := den a * den b |})
    as (c & Hc & Hcan & Hcross); cbn [num den] in *; [nia |].
  exists c. split_and!; [done.. |].
  rewrite (Qv_cross c _ (den a * den b) (proj2 Hcan) ltac:(nia) Hcross), !Qv_ratio by done.
  rewrite ZtoQc_sub, !ZtoQc_mul.
  field. split; apply ZtoQc_nonzero; lia.
Qed.

Lemma multiply_Qv a b :
  0 < den a → 0 < den b →
  ∃ c, multiply a b = Ok c ∧ canonical c ∧ Qv c = (Qv a * Qv b)%Qc.
Proof.
  intros Ha Hb. unfold multiply.
  destruct (simplify_spec {| num := num a * num b; den := den a * den b |})
    as (c & Hc & Hcan & Hcross); cbn [num den] in *; [nia |].
  exists c. split_and!; [done.. |].
  rewrite (Qv_cross c _ (den a * den b) (proj2 Hcan) ltac:(nia) Hcross), !Qv_ratio by done.
  rewrite !ZtoQc_mul.
  field. split; apply ZtoQc_nonzero; lia.
Qed.

Lemma divide_Qv a b :
  0 < den a → 0 < den b → num b ≠ 0 →
  ∃ c, divide a b = Ok c ∧ canonical c ∧ Qv c = (Qv a / Qv b)%Qc.
Proof.
  intros Ha Hb Hnum. unfold divide.
  destruct (simplify_spec {| num := num a * den b; den := den a * num b |})
    as (c & Hc & Hcan & Hcross); cbn [num den] in *; [nia |].
  exists c. split_and!; [done.. |].
  rewrite (Qv_cross c _ (den a * num b) (proj2 Hcan) ltac:(nia) Hcross), !Qv_ratio by done.
  rewrite !ZtoQc_mul.
  field. split_and!; apply ZtoQc_nonzero; lia.
Qed.

Lemma divide_zero_num a b :
  num b = 0 →
  divide a b
  = if num a * den b =? 0 then Err DivisionByZero
    else Ok {| num := Z.sgn (num a * den b); den := 0 |}.
Proof.
  intros Hb. unfold divide. rewrite Hb, Z.mul_0_r. apply simplify_zero_den.
Qed.

End FractionFacts.

(** C3, as stated, fails: dividing [1/1] by the zero fraction [0/1] raises
    nothing and returns the pair [(1, 0)]. *)
Lemma divide_by_zero_returns :
  num (Frac 0 1) = 0
  ∧ divide (Frac 1 1) (Frac 0 1) = Ok (Frac 1 0)
  ∧ divide (Frac 1 1) (Frac 0 1) ≠ Err DivisionByZero.
Proof. vm_compute. repeat split; discriminate. Qed.

(** C3, amended.  When [b] has a zero numerator, [divide(a, b)] raises the
    division-by-zero error exactly when [a.num * b.den] is zero as well;
    otherwise it returns the pair made of the sign of [a.num * b.den] and a
    zero denominator. *)
Theorem divide_by_zero a b :
  num b = 0 →
  divide a b
  = if num a * den b =? 0 then Err DivisionByZero
    else Ok {| num := Z.sgn (num a * den b); den := 0 |}.
Proof. apply divide_zero_num. Qed.

Lemma divide_by_zero_witness :
  divide (Frac 0 5) (Frac 0 1) = Err DivisionByZero
  ∧ divide (Frac (-3) 2) (Frac 0 7) = Ok (Frac (-1) 0).
Proof.
  split.
  - exact (divide_by_zero (Frac 0 5) (Frac 0 1) eq_refl).
  - exact (divide_by_zero (Frac (-3) 2) (Frac 0 7) eq_refl).
Defined.

(** C4, as stated, fails for [divide]: both [1/1] and [0/1] have a non-zero
    denominator, and their quotient is returned with denominator [0]. *)
Lemma divide_not_canonical :
  den (Frac 1 1) ≠ 0 ∧ den (Frac 0 1) ≠ 0
  ∧ ∃ r, divide (Frac 1 1) (Frac 0 1) = Ok r ∧ ¬ canonical r.
Proof.
  split_and!; [done | done |]. exists (Frac 1 0). split; [reflexivity |].
  intros [_ H]. simpl in H. lia.
Qed.

(** C4, amended.  On fractions with non-zero denominators, [simplify],
    [add], [subtract] and [multiply] return the canonical form (numerator
    and denominator coprime, denominator positive), and so does [divide]
    when the divisor has a non-zero numerator. *)
Theorem results_canonical a b :
  den a ≠ 0 → den b ≠ 0 →
  (∃ r, simplify a = Ok r ∧ canonical r)
  ∧ (∃ r, add a b = Ok r ∧ canonical r)
  ∧ (∃ r, subtract a b = Ok r ∧ canonical r)
  ∧ (∃ r, multiply a b = Ok r ∧ canonical r)
  ∧ (num b ≠ 0 → ∃ r, divide a b = Ok r ∧ canonical r).
Proof.
  intros Ha Hb.
  assert (∀ f, den f ≠ 0 → ∃ r, simplify f = Ok r ∧ canonical r) as Hsimp.
  { intros f Hf. destruct (simplify_spec f Hf) as (r & Hr & Hcan & _). eauto. }
  split_and!; [| | | | intros Hnum]; apply Hsimp; cbn [num den]; nia.
Qed.

Lemma results_canonical_witness :
  (∃ r, simplify (Frac 6 (-4)) = Ok r ∧ canonical r)
  ∧ (∃ r, add (Frac 6 (-4)) (Frac 5 10) = Ok r ∧ canonical r)
  ∧ (∃ r, subtract (Frac 6 (-4)) (Frac 5 10) = Ok r ∧ canonical r)
  ∧ (∃ r, multiply (Frac 6 (-4)) (Frac 5 10) = Ok r ∧ canonical r)
  ∧ (∃ r, divide (Frac 6 (-4)) (Frac 5 10) = Ok r ∧ canonical r).
Proof.
  destruct (results_canonical (Frac 6 (-4)) (Frac 5 10)) as (H1 & H2 & H3 & H4 & H5);
    [simpl; lia | simpl; lia |].
  split_and!; [exact H1 | exact H2 | exact H3 | exact H4 |].
  apply H5. simpl. lia.
Defined.

Example simplify_example : simplify (Frac 6 (-4)) = Ok (Frac (-3) 2).
Proof. reflexivity. Qed.

(** ** The solver *)

Section LoopFacts.

Context {St : Type}.
Implicit Types (body : nat → St → result St) (s : St).

Lemma for_loop_app body lo a b s :
  for_loop lo (a + b) body s = for_loop lo a body s ≫= for_loop (lo + a) b body.
Proof.
  revert lo s. induction a as [|a IH]; intros lo s.
  - simpl. by rewrite Nat.add_0_r.
  - cbn [Nat.add for_loop]. destruct (body lo s) as [s' | e]; [| done].
    cbn. rewrite IH. by rewrite Nat.add_succ_r.
Qed.

Lemma for_loop_snoc body lo k s :
  for_loop lo (S k) body s = for_loop lo k body s ≫= body (lo + k)%nat.
Proof.
  replace (S k) with (k + 1)%nat by lia. rewrite for_loop_app.
  destruct (for_loop lo k body s) as [s' | e]; [| done].
  cbn. by destruct (body (lo + k)%nat s').
Qed.

(** The invariant rule for a loop whose body cannot fail under the
    invariant. *)
Lemma for_loop_invariant (P : nat → St → Prop) body lo cnt s :
  P lo s →
  (∀ i t, (lo ≤ i < lo + cnt)%nat → P i t → ∃ t', body i t = Ok t' ∧ P (S i) t') →
  ∃ s', for_loop lo cnt body s = Ok s' ∧ P (lo + cnt)%nat s'.
Proof.
  revert lo s. induction cnt as [|cnt IH]; intros lo s Hs Hbody.
  - exists s. rewrite Nat.add_0_r. done.
  - destruct (Hbody lo s ltac:(lia) Hs) as (t & Ht & HPt).
    destruct (IH (S lo) t HPt) as (s' & Hs' & HPs').
    { intros i u Hi. apply Hbody. lia. }
    exists s'. cbn [for_loop]. rewrite Ht. cbn.
    split; [done |]. by replace (lo + S cnt)%nat with (S lo + cnt)%nat by lia.
Qed.

End LoopFacts.

Section GridFacts.

Local Open Scope nat_scope.

Implicit Types (mat : grid) (r c col : nat) (f v : frac).

Lemma rowsOk_at n m mat r c :
  rowsOk n m mat → r < n → c < m → ∃ f, at_ mat r c = Some f ∧ (0 < den f)%Z.
Proof.
  intros [Hlen Hrows] Hr Hc. unfold at_.
  destruct (lookup_lt_is_Some_2 mat r) as [row Hrow]; [lia |].
  destruct (Hrows r row Hrow) as [Hm Hpos].
  destruct (lookup_lt_is_Some_2 row c) as [f Hf]; [lia |].
  exists f. rewrite Hrow. cbn. split; [done |].
  eapply Forall_lookup_1 in Hpos; eauto.
Qed.

Lemma cell_at mat r c f : at_ mat r c = Some f → cell mat r c = Ok (Some f).
Proof.
  unfold at_, cell. destruct (mat !! r) as [row |]; [| done]. cbn. by intros ->.
Qed.

Lemma at_setCell mat r c v r' c' f :
  at_ mat r c = Some f →
  at_ (setCell mat r c v) r' c'
  = if decide (r' = r ∧ c' = c) then Some v else at_ mat r' c'.
Proof.
  unfold at_, setCell. intros Hat.
  destruct (mat !! r) as [row |] eqn:Hrow; [| done]. cbn in Hat.
  assert (r < length mat) by by eapply lookup_lt_Some.
  assert (c < length row) by by eapply lookup_lt_Some.
  destruct (decide (r' = r)) as [-> | Hne].
  - rewrite list_lookup_insert_eq by done. cbn.
    destruct (decide (c' = c)) as [-> | Hnc].
    + rewrite list_lookup_insert_eq by done. by rewrite decide_True.
    + rewrite list_lookup_insert_ne by done. rewrite Hrow. cbn.
      rewrite decide_False; [done | by intros [_ ?]].
  - rewrite list_lookup_insert_ne by done.
    rewrite decide_False; [done | by intros [? _]].
Qed.

Lemma rowsOk_setCell n m mat r c v :
  rowsOk n m mat → (0 < den v)%Z → rowsOk n m (setCell mat r c v).
Proof.
  intros [Hlen Hrows] Hv. unfold setCell.
  destruct (mat !! r) as [row |] eqn:Hrow; [| done].
  split; [by rewrite length_insert |].
  intros r' row' Hr'.
  destruct (decide (r' = r)) as [-> | Hne].
  - rewrite list_lookup_insert_eq in Hr' by by eapply lookup_lt_Some.
    injection Hr' as <-. destruct (Hrows r row Hrow) as [Hm Hpos].
    split; [by rewrite length_insert |].
    apply Forall_insert; done.
  - rewrite list_lookup_insert_ne in Hr' by done. eauto.
Qed.

Lemma at_swapRows mat i j r c :
  i < length mat → j < length mat →
  at_ (swapRows mat i j) r c
  = at_ mat (if decide (r = i) then j else if decide (r = j) then i else r) c.
Proof.
  intros Hi Hj. unfold at_, swapRows.
  destruct (lookup_lt_is_Some_2 mat i Hi) as [ri Hri].
  destruct (lookup_lt_is_Some_2 mat j Hj) as [rj Hrj].
  rewrite Hri, Hrj.
  destruct (decide (r = j)) as [-> | Hnj].
  - rewrite list_lookup_insert_eq by by rewrite length_insert.
    destruct (decide (j = i)) as [-> | Hne]; [| by rewrite Hri].
    rewrite Hrj. congruence.
  - rewrite list_lookup_insert_ne by done.
    destruct (decide (r = i)) as [-> | Hni].
    + rewrite list_lookup_insert_eq by done. by rewrite Hrj.
    + by rewrite list_lookup_insert_ne.
Qed.

Lemma rowsOk_swapRows n m mat i j :
  rowsOk n m mat → rowsOk n m (swapRows mat i j).
Proof.
  intros [Hlen Hrows]. unfold swapRows.
  destruct (mat !! i) as [ri |] eqn:Hri; [| done].
  destruct (mat !! j) as [rj |] eqn:Hrj; [| done].
  split; [by rewrite !length_insert |].
  intros r row Hr.
  destruct (decide (r = j)) as [-> | Hnj].
  - rewrite list_lookup_insert_eq in Hr by
      (rewrite length_insert; by eapply lookup_lt_Some).
    injection Hr as <-. eauto.
  - rewrite list_lookup_insert_ne in Hr by done.
    destruct (decide (r = i)) as [-> | Hni].
    + rewrite list_lookup_insert_eq in Hr by by eapply lookup_lt_Some.
      injection Hr as <-. eauto.
    + rewrite list_lookup_insert_ne in Hr by done. eauto.
Qed.

Lemma cell_Some mat r c f : cell mat r c = Ok (Some f) → at_ mat r c = Some f.
Proof.
  unfold at_, cell. destruct (mat !! r) as [row |]; [| done]. cbn. congruence.
Qed.

Lemma gentry_at mat r c f : at_ mat r c = Some f → gentry mat r c = Qv f.
Proof. unfold gentry. by intros ->. Qed.

Lemma nonZeroAt_gentry n m mat col r :
  rowsOk n m mat → r < n → col < m →
  nonZeroAt mat col r ↔ gentry mat r col ≠ 0%Qc.
Proof.
  intros Hok Hr Hcol. destruct (rowsOk_at n m mat r col Hok Hr Hcol) as (f & Hf & Hden).
  rewrite (gentry_at _ _ _ _ Hf). unfold nonZeroAt. rewrite Hf.
  rewrite (Qv_zero f Hden). split.
  - intros (f' & [= <-] & Hnum). done.
  - intros Hnum. exists f. split; [done |]. intros H0. by apply Hnum.
Qed.

(** *** The pivot search *)

(** The search returns the first row, from [r] on, with a non-zero entry in
    column [col], and [col] itself when it finds none. *)
Lemma findPivot_spec mat col r cnt p :
  findPivot mat col r cnt = Ok p →
  (p = col ∧ ∀ r', r ≤ r' < r + cnt → ¬ nonZeroAt mat col r')
  ∨ (r ≤ p < r + cnt ∧ nonZeroAt mat col p
     ∧ ∀ r', r ≤ r' < p → ¬ nonZeroAt mat col r').
Proof.
  revert r. induction cnt as [|cnt IH]; intros r; cbn [findPivot].
  - intros [= <-]. left. split; [done |]. lia.
  - destruct (cell mat r col) as [[f |] | e] eqn:Hcell; cbn; [| done | done].
    apply cell_Some in Hcell.
    destruct (Z.eqb_spec (num f) 0) as [Hz | Hnz]; cbn.
    + intros Hp.
      assert (¬ nonZeroAt mat col r) as Hr.
      { intros (f' & Hf' & Hnum). congruence. }
      destruct (IH _ Hp) as [[-> Hnone] | (Hrange & Hnz & Hfirst)].
      * left. split; [done |]. intros r' Hr'.
        destruct (decide (r' = r)) as [-> |]; [done |]. apply Hnone. lia.
      * right. split; [lia | split; [done |]]. intros r' Hr'.
        destruct (decide (r' = r)) as [-> |]; [done |]. apply Hfirst. lia.
    + intros [= <-]. right. split; [lia | split; [by exists f | lia]].
Qed.

Lemma findPivot_total n m mat col r cnt :
  rowsOk n m mat → col < m → r + cnt ≤ n →
  ∃ p, findPivot mat col r cnt = Ok p.
Proof.
  intros Hok Hcol. revert r. induction cnt as [|cnt IH]; intros r Hr; cbn [findPivot].
  - eauto.
  - destruct (rowsOk_at n m mat r col Hok) as (f & Hf & _); [lia | done |].
    rewrite (cell_at _ _ _ _ Hf). cbn.
    destruct (negb (num f =? 0)%Z); [eauto |]. apply IH. lia.
Qed.

(** *** Normalising the pivot row *)

Lemma normalize_spec n m mat col pv :
  rowsOk n m mat → col < n → col ≤ m → (0 < den pv)%Z → num pv ≠ 0%Z →
  ∃ mat', normalize m col (Some pv) mat = Ok mat'
    ∧ rowsOk n m mat'
    ∧ (∀ r c, r ≠ col ∨ c < col → at_ mat' r c = at_ mat r c)
    ∧ (∀ c, col ≤ c < m → gentry mat' col c = (gentry mat col c / Qv pv)%Qc).
Proof.
  intros Hok Hcol Hm Hden Hnum. unfold normalize.
  set (P := λ (c : nat) (t : grid),
    rowsOk n m t
    ∧ (∀ r c', r ≠ col ∨ c' < col ∨ c ≤ c' → at_ t r c' = at_ mat r c')
    ∧ (∀ c', col ≤ c' < c → gentry t col c' = (gentry mat col c' / Qv pv)%Qc)).
  match goal with |- ∃ _, for_loop _ _ ?body _ = _ ∧ _ =>
    destruct (for_loop_invariant P body col (m - col) mat) as (mat' & Hloop & HP)
  end.
  - split_and!; [done | done |]. intros c' Hc'. lia.
  - intros c t Hc (Hokt & Hsame & Hdone).
    destruct (rowsOk_at n m t col c Hokt) as (a & Ha & Hdena); [lia | lia |].
    rewrite (cell_at _ _ _ _ Ha). cbn.
    destruct (divide_Qv a pv Hdena Hden Hnum) as (v & Hv & Hcan & HQv).
    rewrite Hv. cbn. eexists. split; [reflexivity |].
    split_and!.
    + apply rowsOk_setCell; [done | apply Hcan].
    + intros r c' Hrc. rewrite (at_setCell _ _ _ _ _ _ _ Ha).
      rewrite decide_False by (intros [-> ->]; lia). apply Hsame. lia.
    + intros c' Hc'. unfold gentry. rewrite (at_setCell _ _ _ _ _ _ _ Ha).
      destruct (decide (c' = c)) as [-> | Hne].
      * rewrite decide_True by done. cbn. rewrite HQv. do 2 f_equal.
        rewrite <- (Hsame col c) in * by lia. by rewrite Ha.
      * rewrite decide_False by (intros [_ ?]; done). apply Hdone. lia.
  - exists mat'. destruct HP as (Hok' & Hsame & Hdone).
    replace (col + (m - col)) with m in * by lia.
    split_and!; [done | done | |].
    + intros r c Hrc. apply Hsame. lia.
    + done.
Qed.

(** *** Eliminating one row *)

Lemma eliminateRow_spec n m mat col r fac :
  rowsOk n m mat → col < n → r < n → r ≠ col → col ≤ m → (0 < den fac)%Z →
  ∃ mat', eliminateRow m col r (Some fac) mat = Ok mat'
    ∧ rowsOk n m mat'
    ∧ (∀ r' c, r' ≠ r ∨ c < col → at_ mat' r' c = at_ mat r' c)
    ∧ (∀ c, col ≤ c < m →
         gentry mat' r c = (gentry mat r c - Qv fac * gentry mat col c)%Qc).
Proof.
  intros Hok Hcol Hr Hne Hm Hden. unfold eliminateRow.
  set (P := λ (c : nat) (t : grid),
    rowsOk n m t
    ∧ (∀ r' c', r' ≠ r ∨ c' < col ∨ c ≤ c' → at_ t r' c' = at_ mat r' c')
    ∧ (∀ c', col ≤ c' < c →
         gentry t r c' = (gentry mat r c' - Qv fac * gentry mat col c')%Qc)).
  match goal with |- ∃ _, for_loop _ _ ?body _ = _ ∧ _ =>
    destruct (for_loop_invariant P body col (m - col) mat) as (mat' & Hloop & HP)
  end.
  - split_and!; [done | done |]. intros c' Hc'. lia.
  - intros c t Hc (Hokt & Hsame & Hdone).
    destruct (rowsOk_at n m t r c Hokt) as (x & Hx & Hdenx); [lia | lia |].
    destruct (rowsOk_at n m t col c Hokt) as (y & Hy & Hdeny); [lia | lia |].
    rewrite (cell_at _ _ _ _ Hx). cbn. rewrite (cell_at _ _ _ _ Hy). cbn.
    destruct (multiply_Qv fac y Hden Hdeny) as (p & Hp & Hcanp & HQp).
    rewrite Hp. cbn.
    destruct (subtract_Qv x p Hdenx (proj2 Hcanp)) as (v & Hv & Hcan & HQv).
    rewrite Hv. cbn. eexists. split; [reflexivity |].
    split_and!.
    + apply rowsOk_setCell; [done | apply Hcan].
    + intros r' c' Hrc. rewrite (at_setCell _ _ _ _ _ _ _ Hx).
      rewrite decide_False by (intros [-> ->]; lia). apply Hsame. lia.
    + intros c' Hc'. unfold gentry. rewrite (at_setCell _ _ _ _ _ _ _ Hx).
      destruct (decide (c' = c)) as [-> | Hnc].
      * rewrite decide_True by done. cbn. rewrite HQv, HQp.
        rewrite <- (Hsame r c), <- (Hsame col c) by lia. by rewrite Hx, Hy.
      * rewrite decide_False by (intros [_ ?]; done). apply Hdone. lia.
  - exists mat'. destruct HP as (Hok' & Hsame & Hdone).
    replace (col + (m - col)) with m in * by lia.
    split_and!; [done | done | |].
    + intros r' c Hrc. apply Hsame. lia.
    + done.
Qed.

(** *** Eliminating the pivot column from every other row *)

Lemma eliminate_spec n m mat col :
  rowsOk n m mat → col < n → col < m →
  ∃ mat', eliminate n m col mat = Ok mat'
    ∧ rowsOk n m mat'
    ∧ (∀ r c, r = col ∨ c < col → at_ mat' r c = at_ mat r c)
    ∧ (∀ r c, r < n → r ≠ col → col ≤ c < m →
         gentry mat' r c = (gentry mat r c - gentry mat r col * gentry mat col c)%Qc).
Proof.
  intros Hok Hcol Hm. unfold eliminate.
  set (P := λ (k : nat) (t : grid),
    rowsOk n m t
    ∧ (∀ r c, r = col ∨ c < col ∨ k ≤ r → at_ t r c = at_ mat r c)
    ∧ (∀ r c, r < k → r ≠ col → col ≤ c < m →
         gentry t r c = (gentry mat r c - gentry mat r col * gentry mat col c)%Qc)).
  match goal with |- ∃ _, for_loop _ _ ?body _ = _ ∧ _ =>
    destruct (for_loop_invariant P body 0 n mat) as (mat' & Hloop & HP)
  end.
  - split_and!; [done | done |]. intros r c Hr. lia.
  - intros r t Hr (Hokt & Hsame & Hdone).
    destruct (Nat.eqb_spec r col) as [-> | Hne].
    + exists t. split; [done |]. split_and!; [done | |].
      * intros r c Hrc. apply Hsame. lia.
      * intros r c Hr' Hrc Hc. apply Hdone; [lia | done..].
    + destruct (rowsOk_at n m t r col Hokt) as (fac & Hfac & Hdenf); [lia | lia |].
      rewrite (cell_at _ _ _ _ Hfac). cbn.
      destruct (eliminateRow_spec n m t col r fac) as (t' & Ht' & Hokt' & Hsame' & Hrow);
        [done | done | lia | done | lia | done |].
      exists t'. split; [done |]. split_and!; [done | |].
      * intros r' c Hrc. rewrite Hsame' by lia. apply Hsame. lia.
      * intros r' c Hr' Hrc Hc.
        destruct (decide (r' = r)) as [-> | Hnr].
        -- rewrite Hrow by done. unfold gentry.
           rewrite !Hsame by lia. rewrite <- (Hsame r col) by lia.
           by rewrite Hfac.
        -- unfold gentry. rewrite Hsame' by lia. apply Hdone; [lia | done..].
  - exists mat'. destruct HP as (Hok' & Hsame & Hdone). simpl in *.
    split_and!; [done | done | |].
    + intros r c Hrc. apply Hsame. lia.
    + intros r c Hr Hrc Hc. apply Hdone; done.
Qed.

(** *** Finite sums of rationals *)

Lemma sumQc_ext k (f g : nat → Qc) :
  (∀ j, j < k → f j = g j) → sumQc k f = sumQc k g.
Proof.
  induction k as [|k IH]; intros H; [done |]. cbn [sumQc].
  rewrite IH by (intros; apply H; lia). by rewrite H by lia.
Qed.

Lemma sumQc_scale k a (f : nat → Qc) :
  sumQc k (λ j, a * f j)%Qc = (a * sumQc k f)%Qc.
Proof. induction k as [|k IH]; cbn [sumQc]; [ring | rewrite IH; ring]. Qed.

Lemma sumQc_plus k (f g : nat → Qc) :
  sumQc k (λ j, f j + g j)%Qc = (sumQc k f + sumQc k g)%Qc.
Proof. induction k as [|k IH]; cbn [sumQc]; [ring | rewrite IH; ring]. Qed.

Lemma sumQc_zero k (f : nat → Qc) :
  (∀ j, j < k → f j = 0%Qc) → sumQc k f = 0%Qc.
Proof.
  induction k as [|k IH]; intros H; [done |]. cbn [sumQc].
  rewrite IH by (intros; apply H; lia). rewrite H by lia. ring.
Qed.

(** A sum against a row of the identity matrix picks one term. *)
Lemma sumQc_delta k r (f : nat → Qc) :
  r < k →
  sumQc k (λ j, (if decide (r = j) then Q2Qc 1 else Q2Qc 0) * f j)%Qc = f r.
Proof.
  induction k as [|k IH]; intros Hr; [lia |]. cbn [sumQc].
  destruct (decide (r = k)) as [-> | Hne].
  - rewrite sumQc_zero; [ring |]. intros j Hj.
    rewrite decide_False by lia. ring.
  - rewrite IH by lia. ring.
Qed.

(** *** One step of the outer loop *)

Lemma findPivot_none mat col r cnt :
  (∀ r', r ≤ r' < r + cnt → ∃ f, at_ mat r' col = Some f ∧ num f = 0%Z) →
  findPivot mat col r cnt = Ok col.
Proof.
  revert r. induction cnt as [|cnt IH]; intros r H; cbn [findPivot]; [done |].
  destruct (H r) as (f & Hf & Hnum); [lia |].
  rewrite (cell_at _ _ _ _ Hf). cbn. rewrite Hnum. cbn. apply IH.
  intros r' Hr'. apply H. lia.
Qed.

(** Without a non-zero entry in rows [col .. n-1] of column [col], the step
    divides the zero pivot by itself. *)
Lemma pivotStep_fail n m col st :
  col < n → col < m →
  (∀ r, col ≤ r < n → ∃ f, at_ (mat_of st) r col = Some f ∧ num f = 0%Z) →
  pivotStep n m col st = Err DivisionByZero.
Proof.
  intros Hcol Hm Hzero. unfold pivotStep.
  rewrite findPivot_none by (intros r Hr; apply Hzero; lia). cbn.
  rewrite Nat.eqb_refl. cbn.
  destruct (Hzero col) as (f & Hf & Hnum); [lia |].
  rewrite (cell_at _ _ _ _ Hf). cbn. unfold normalize.
  destruct (m - col) as [|k] eqn:Hk; [lia |]. cbn [for_loop].
  rewrite (cell_at _ _ _ _ Hf). cbn.
  rewrite (divide_zero_num f f Hnum), Hnum. reflexivity.
Qed.

(** With one, the step succeeds: column [col] joins the identity block, and
    every vector orthogonal to the new rows is orthogonal to the old ones. *)
Lemma pivotStep_ok n m col st :
  rowsOk n m (mat_of st) → col < n → col < m → reduced n col (mat_of st) →
  (∃ r, col ≤ r < n ∧ nonZeroAt (mat_of st) col r) →
  ∃ st', pivotStep n m col st = Ok st'
    ∧ rowsOk n m (mat_of st')
    ∧ reduced n (S col) (mat_of st')
    ∧ (∀ w, inKernel n m (mat_of st') w → inKernel n m (mat_of st) w).
Proof.
  intros Hok Hcol Hm Hred (r0 & Hr0 & Hnz0). unfold pivotStep.
  set (mat := mat_of st) in *.
  destruct (findPivot_total n m mat col col (n - col) Hok Hm ltac:(lia)) as [p Hp].
  rewrite Hp. cbn.
  destruct (findPivot_spec _ _ _ _ _ Hp) as [[_ Hnone] | (Hrange & (pv & Hpv & Hnum) & _)].
  { exfalso. apply (Hnone r0); [lia | done]. }
  set (σ := λ r, if decide (r = col) then p else if decide (r = p) then col else r).
  assert (∃ mat1 swaps, (if negb (p =? col)
            then (swapRows mat col p, swaps_of st ++ [(col, p)])
            else (mat, swaps_of st)) = (mat1, swaps)
          ∧ rowsOk n m mat1 ∧ ∀ r c, at_ mat1 r c = at_ mat (σ r) c)
    as (mat1 & swaps & -> & Hok1 & Hat1).
  { destruct (Nat.eqb_spec p col) as [-> | Hne]; cbn.
    - eexists _, _. split_and!; [done | done |]. intros r c. unfold σ.
      destruct (decide (r = col)) as [-> |]; done.
    - eexists _, _. split_and!; [done | by apply rowsOk_swapRows |].
      intros r c. apply at_swapRows; destruct Hok as [-> _]; lia. }
  assert (at_ mat1 col col = Some pv) as Hpv1.
  { rewrite Hat1. unfold σ. by rewrite decide_True. }
  assert (0 < den pv)%Z as Hden.
  { destruct (rowsOk_at n m mat1 col col Hok1 Hcol Hm) as (f & Hf & Hd). congruence. }
  assert (reduced n col mat1) as Hred1.
  { intros r c Hr Hc. unfold gentry. rewrite Hat1. fold (gentry mat (σ r) c).
    assert (σ r < n) by (unfold σ; repeat case_decide; lia).
    rewrite Hred by done. unfold σ. repeat case_decide; done || lia. }
  rewrite (cell_at _ _ _ _ Hpv1). cbn.
  destruct (normalize_spec n m mat1 col pv) as (mat2 & -> & Hok2 & Hat2 & Hrow2);
    [done | done | lia | done | done |]. cbn.
  destruct (eliminate_spec n m mat2 col) as (mat3 & -> & Hok3 & Hat3 & Hrow3);
    [done | done | done |]. cbn.
  eexists. split; [reflexivity |]. cbn [mat_of].
  assert (Qv pv ≠ 0%Qc) as Hpv0 by (by rewrite Qv_zero).
  assert (gentry mat1 col col = Qv pv) as Hg1 by by apply gentry_at.
  assert (∀ c, c < m → gentry mat2 col c = (gentry mat1 col c / Qv pv)%Qc) as Hpivrow.
  { intros c Hc. destruct (decide (col ≤ c)); [apply Hrow2; lia |].
    unfold gentry at 1. rewrite Hat2 by lia. fold (gentry mat1 col c).
    rewrite Hred1 by lia. rewrite decide_False by lia. field. done. }
  assert (∀ r c, r ≠ col → gentry mat2 r c = gentry mat1 r c) as Hother2.
  { intros r c Hr. unfold gentry. by rewrite Hat2 by lia. }
  assert (∀ c, gentry mat3 col c = gentry mat2 col c) as Hpiv3.
  { intros c. unfold gentry. by rewrite Hat3 by lia. }
  assert (∀ r c, r < n → r ≠ col → c < m →
    gentry mat3 r c = (gentry mat2 r c - gentry mat2 r col * gentry mat2 col c)%Qc)
    as Hother3.
  { intros r c Hr Hne Hc. destruct (decide (col ≤ c)); [apply Hrow3; lia |].
    unfold gentry at 1. rewrite Hat3 by lia. fold (gentry mat2 r c).
    rewrite (Hpivrow c) by lia. rewrite (Hred1 col c) by lia.
    rewrite decide_False by lia. field. done. }
  split_and!; [done | |].
  - intros r c Hr Hc. destruct (decide (r = col)) as [-> | Hne].
    + rewrite Hpiv3, Hpivrow by lia.
      destruct (decide (col = c)) as [<- | Hnc].
      * rewrite Hg1. field. done.
      * rewrite Hred1 by lia. rewrite decide_False by done. field. done.
    + rewrite Hother3, !Hother2 by (done || lia).
      destruct (decide (c = col)) as [-> | Hnc].
      * rewrite Hpivrow, Hg1 by lia. rewrite decide_False by done. field. done.
      * rewrite (Hpivrow c) by lia. rewrite (Hred1 col c) by lia.
        rewrite (decide_False (P := col = c)) by lia.
        rewrite Hred1 by lia. field. done.
  - intros w Hker r Hr.
    assert (sumQc m (λ c, gentry mat2 col c * w c)%Qc = 0%Qc) as HD2col.
    { rewrite <- (Hker col Hcol). apply sumQc_ext. intros c Hc. by rewrite Hpiv3. }
    assert (∀ r', r' < n → sumQc m (λ c, gentry mat1 r' c * w c)%Qc = 0%Qc) as HD1.
    { intros r' Hr'. destruct (decide (r' = col)) as [-> | Hne].
      - transitivity (Qv pv * sumQc m (λ c, gentry mat2 col c * w c))%Qc.
        + rewrite <- sumQc_scale. apply sumQc_ext. intros c Hc.
          rewrite Hpivrow by done. field. done.
        + rewrite HD2col. ring.
      - transitivity (sumQc m (λ c, gentry mat3 r' c * w c)
                      + gentry mat2 r' col * sumQc m (λ c, gentry mat2 col c * w c))%Qc.
        + rewrite <- sumQc_scale, <- sumQc_plus. apply sumQc_ext. intros c Hc.
          rewrite Hother3, !Hother2 by done. ring.
        + rewrite HD2col, Hker by done. ring. }
    assert (σ r < n) by (unfold σ; repeat case_decide; lia).
    rewrite <- (HD1 (σ r)) by done. apply sumQc_ext. intros c Hc.
    unfold gentry. rewrite Hat1. do 3 f_equal.
    unfold σ. repeat case_decide; congruence.
Qed.

(** *** The whole elimination *)

Lemma at_toFractions matrix r c :
  at_ (toFractions matrix) r c = makeFraction <$> (matrix !! r ≫= λ row, row !! c).
Proof.
  unfold at_, toFractions. rewrite list_lookup_fmap.
  destruct (matrix !! r) as [row |]; [| done]. cbn. apply list_lookup_fmap.
Qed.

Lemma gentry_toFractions matrix r c row :
  matrix !! r = Some row → gentry (toFractions matrix) r c = coeff row c.
Proof.
  intros Hrow. unfold gentry, coeff. rewrite at_toFractions, Hrow. cbn.
  by destruct (row !! c).
Qed.

Lemma rowsOk_toFractions n matrix :
  wellShaped n matrix → rowsOk n (S n) (toFractions matrix).
Proof.
  intros [Hlen Hrows]. unfold toFractions. split; [by rewrite length_fmap |].
  intros r row Hr. rewrite list_lookup_fmap in Hr.
  destruct (matrix !! r) as [zs |] eqn:Hzs; [| done]. injection Hr as <-.
  split.
  - rewrite length_fmap. eapply Forall_lookup_1 in Hrows; eauto.
  - apply Forall_fmap, Forall_true. intros z. simpl. lia.
Qed.

Lemma gaussJordan_unfold n matrix k :
  0 < n → wellShaped n matrix →
  gaussJordan matrix k
  = for_loop 0 k (pivotStep n (S n)) {| mat_of := toFractions matrix; swaps_of := [] |}.
Proof.
  intros Hn [Hlen Hrows]. unfold gaussJordan.
  destruct matrix as [|row0 rest]; [simpl in Hlen; lia |]. cbn [lookup list_lookup field].
  cbn. pose proof (Forall_inv Hrows) as Hrow0. simpl in Hrow0, Hlen.
  by rewrite Hrow0, Hlen.
Qed.

(** A column without pivot candidate yields a non-zero vector that the
    coefficient block maps to zero. *)
Lemma no_pivot_singular n matrix mat col :
  wellShaped n matrix → rowsOk n (S n) mat → col < n → reduced n col mat →
  (∀ w, inKernel n (S n) mat w → inKernel n (S n) (toFractions matrix) w) →
  (∀ r, col ≤ r < n → ¬ nonZeroAt mat col r) →
  ¬ nonSingular n matrix.
Proof.
  intros Hshape Hok Hcol Hred Hker Hzero Hns.
  set (w := λ c : nat,
    if decide (c < col) then (- gentry mat c col)%Qc
    else if decide (c = col) then Q2Qc 1 else Q2Qc 0).
  assert (inKernel n (S n) mat w) as Hw.
  { intros r Hr.
    set (u := λ c : nat, if decide (c < col) then (- gentry mat c col)%Qc else Q2Qc 0).
    transitivity (sumQc (S n) (λ c, (if decide (r = c) then Q2Qc 1 else Q2Qc 0) * u c)
                  + sumQc (S n) (λ c, (if decide (col = c) then Q2Qc 1 else Q2Qc 0)
                                      * gentry mat r col))%Qc.
    - rewrite <- sumQc_plus. apply sumQc_ext. intros c Hc. unfold w, u.
      destruct (decide (c < col)) as [Hlt | Hge].
      + rewrite Hred by lia. rewrite (decide_False (P := col = c)) by lia. ring.
      + destruct (decide (c = col)) as [-> | Hne].
        * rewrite (decide_True (P := col = col)) by done.
          destruct (decide (r = col)); ring.
        * rewrite (decide_False (P := col = c)) by done.
          destruct (decide (r = c)); ring.
    - rewrite (sumQc_delta (S n) r u), (sumQc_delta (S n) col (λ _, gentry mat r col))
        by lia.
      unfold u. destruct (decide (r < col)); [ring |].
      assert (gentry mat r col = 0%Qc) as ->; [| ring].
      destruct (decide (gentry mat r col = 0%Qc)) as [| Hnz]; [done |].
      exfalso. apply (Hzero r); [lia |].
      by apply (nonZeroAt_gentry n (S n)); [| | lia |]. }
  apply Hker in Hw.
  specialize (Hns (w <$> seq 0 n)). rewrite length_fmap, length_seq in Hns.
  assert (∀ j, j < n → entry (w <$> seq 0 n) j = w j) as Hentry.
  { intros j Hj. unfold entry. rewrite list_lookup_fmap, lookup_seq_lt by done. done. }
  eapply (Forall_lookup_1 _ _ col (w col)) in Hns; first last.
  - rewrite list_lookup_fmap, lookup_seq_lt by done. done.
  - apply Forall_lookup_2. intros r row Hrow.
    assert (r < n) as Hr by (destruct Hshape as [<- _]; by eapply lookup_lt_Some).
    specialize (Hw r Hr). cbn [sumQc] in Hw.
    assert (w n = 0%Qc) as Hwn.
    { unfold w. rewrite decide_False by lia. by rewrite decide_False by lia. }
    rewrite Hwn in Hw. rewrite <- Hw.
    transitivity (sumQc n (λ c, gentry (toFractions matrix) r c * w c))%Qc; [| ring].
    apply sumQc_ext. intros j Hj.
    by rewrite Hentry, (gentry_toFractions _ _ _ _ Hrow).
  - done.
  - unfold w in Hns. rewrite decide_False, decide_True in Hns by (done || lia).
    discriminate Hns.
Qed.

(** In each column, either some row from [col] on has a non-zero entry,
    or all of them hold an exact zero. *)
Lemma pivot_dichotomy n m mat col :
  rowsOk n m mat → col < n → col < m →
  (∃ r, col ≤ r < n ∧ nonZeroAt mat col r)
  ∨ (∀ r, col ≤ r < n → ∃ f, at_ mat r col = Some f ∧ num f = 0%Z).
Proof.
  intros Hok Hcol Hm.
  destruct (findPivot_total n m mat col col (n - col) Hok Hm ltac:(lia)) as [p Hp].
  destruct (findPivot_spec _ _ _ _ _ Hp) as [[_ Hnone] | (Hrange & Hnz & _)].
  - right. intros r Hr.
    destruct (rowsOk_at n m mat r col Hok) as (f & Hf & _); [lia | done |].
    exists f. split; [done |].
    destruct (decide (num f = 0%Z)) as [| Hnz]; [done |].
    exfalso. apply (Hnone r); [lia |]. by exists f.
  - left. exists p. split; [lia | done].
Qed.

Lemma zero_column_no_pivot mat col (rows : nat → Prop) :
  (∀ r, rows r → ∃ f, at_ mat r col = Some f ∧ num f = 0%Z) →
  ∀ r, rows r → ¬ nonZeroAt mat col r.
Proof.
  intros Hzero r Hr (f & Hf & Hnum).
  destruct (Hzero r Hr) as (f' & Hf' & Hnum'). congruence.
Qed.

(** What holds of the grid after [k] successful iterations. *)
Lemma gaussJordan_inv n matrix k st :
  0 < n → wellShaped n matrix → k ≤ n →
  gaussJordan matrix k = Ok st →
  rowsOk n (S n) (mat_of st)
  ∧ reduced n k (mat_of st)
  ∧ (∀ w, inKernel n (S n) (mat_of st) w → inKernel n (S n) (toFractions matrix) w).
Proof.
  intros Hn Hshape. rewrite (gaussJordan_unfold n) by done.
  revert st. induction k as [|k IH]; intros st Hk.
  - intros [= <-]. cbn [mat_of]. split_and!; [by apply rowsOk_toFractions | | done].
    intros r c _ Hc. lia.
  - rewrite for_loop_snoc.
    destruct (for_loop 0 k _ _) as [stk | e]; [| done]. cbn. intros Hstep.
    destruct (IH stk ltac:(lia) eq_refl) as (Hok & Hred & Hker).
    destruct (pivot_dichotomy n (S n) (mat_of stk) k Hok) as [Hpiv | Hzero]; [lia.. | |].
    + destruct (pivotStep_ok n (S n) k stk Hok) as (st' & Hst' & Hok' & Hred' & Hker');
        [lia | lia | done | done |].
      assert (st' = st) as -> by congruence. split_and!; [done | done |]. auto.
    + rewrite pivotStep_fail in Hstep by (done || lia). done.
Qed.

(** On a non-singular matrix every iteration finds its pivot. *)
Lemma gaussJordan_ok n matrix k :
  0 < n → wellShaped n matrix → nonSingular n matrix → k ≤ n →
  ∃ st, gaussJordan matrix k = Ok st.
Proof.
  intros Hn Hshape Hns. induction k as [|k IH]; intros Hk.
  - rewrite (gaussJordan_unfold n) by done. eauto.
  - destruct IH as [stk Hstk]; [lia |].
    destruct (gaussJordan_inv n matrix k stk) as (Hok & Hred & Hker); [done.. | lia | done |].
    rewrite (gaussJordan_unfold n) in * by done.
    rewrite for_loop_snoc, Hstk. cbn.
    destruct (pivot_dichotomy n (S n) (mat_of stk) k Hok) as [Hpiv | Hzero]; [lia.. | |].
    + destruct (pivotStep_ok n (S n) k stk Hok) as (st' & Hst' & _);
        [lia | lia | done | done |]. eauto.
    + exfalso. apply (no_pivot_singular n matrix (mat_of stk) k); [done.. | lia | done | done | | done].
      apply (zero_column_no_pivot _ _ (λ r, k ≤ r < n)). done.
Qed.

(** [Array.prototype.map] with a callback that may throw. *)
Lemma mapM_result_spec {A B : Type} (f : A → result B) (R : A → B → Prop) l :
  (∀ x, x ∈ l → ∃ y, f x = Ok y ∧ R x y) →
  ∃ ys, mapM f l = Ok ys ∧ Forall2 R l ys.
Proof.
  induction l as [|x l IH]; intros H.
  - exists []. split; [done | constructor].
  - destruct (H x) as (y & Hy & HR); [by left |].
    destruct IH as (ys & Hys & HRs); [intros z Hz; apply H; by right |].
    exists (y :: ys). cbn [mapM]. rewrite Hy. cbn. rewrite Hys. cbn.
    split; [done | by constructor].
Qed.

(** Reading the solution off the reduced grid. *)
Lemma solution_spec n matrix st :
  0 < n → wellShaped n matrix → gaussJordan matrix n = Ok st →
  ∃ sol, solveLinearEquations matrix = Ok sol
    ∧ length sol = n ∧ Forall canonical sol
    ∧ Forall (λ row, satisfies n row (Qv <$> sol)) matrix.
Proof.
  intros Hn Hshape Hst.
  destruct (gaussJordan_inv n matrix n st) as (Hok & Hred & Hker); [done.. |].
  unfold solveLinearEquations. destruct Hshape as [Hlen Hrows].
  destruct matrix as [|row0 rest] eqn:Hmatrix; [simpl in Hlen; lia |].
  rewrite <- Hmatrix in *. assert (matrix !! 0 = Some row0) as -> by by rewrite Hmatrix.
  cbn. rewrite Hlen, Hst. cbn.
  assert (length row0 = S n) as ->.
  { eapply (Forall_lookup_1 _ _ 0 row0) in Hrows; [done | by rewrite Hmatrix]. }
  destruct (mapM_result_spec (readSolution (S n))
    (λ row q, canonical q ∧ ∃ f, row !! n = Some f ∧ Qv q = Qv f) (mat_of st))
    as (sol & Hsol & Hall).
  { intros row [r Hrow]%list_elem_of_lookup.
    destruct Hok as [Hlen' Hrows']. destruct (Hrows' r row Hrow) as [Hm Hpos].
    destruct (lookup_lt_is_Some_2 row n) as [f Hf]; [lia |].
    unfold readSolution. cbn [lastEntry]. rewrite Hf. cbn.
    destruct (simplify_Qv f) as (c & Hc & Hcan & HQv).
    { eapply Forall_lookup_1 in Hpos; eauto. }
    exists c. split; [done |]. split; [done |]. eauto. }
  exists sol. split; [done |].
  pose proof (Forall2_length Hall) as Hlensol.
  destruct Hok as [Hlen' Hrows'].
  split_and!; [lia | |].
  - apply Forall_lookup_2. intros r c Hc.
    destruct (Forall2_lookup_r _ _ _ _ _ Hall Hc) as (row & _ & Hcan & _). done.
  - set (w := λ c : nat, if decide (c < n) then entry (Qv <$> sol) c else (- Q2Qc 1)%Qc).
    assert (∀ r, r < n → gentry (mat_of st) r n = entry (Qv <$> sol) r) as Hlast.
    { intros r Hr.
      destruct (lookup_lt_is_Some_2 sol r) as [c Hc]; [lia |].
      destruct (Forall2_lookup_r _ _ _ _ _ Hall Hc) as (row & Hrow & _ & f & Hf & HQv).
      unfold entry, gentry, at_. rewrite list_lookup_fmap, Hc, Hrow. cbn.
      by rewrite Hf. }
    assert (inKernel n (S n) (mat_of st) w) as Hw.
    { intros r Hr. cbn [sumQc].
      transitivity (sumQc n (λ c, (if decide (r = c) then Q2Qc 1 else Q2Qc 0) * w c)
                    + gentry (mat_of st) r n * w n)%Qc.
      - f_equal. apply sumQc_ext. intros c Hc. by rewrite Hred.
      - rewrite sumQc_delta by done. unfold w.
        rewrite decide_True, decide_False by lia. rewrite Hlast by done. ring. }
    apply Hker in Hw. apply Forall_lookup_2. intros r row Hrow.
    assert (r < n) as Hr by (rewrite <- Hlen; by eapply lookup_lt_Some).
    specialize (Hw r Hr). cbn [sumQc] in Hw. unfold satisfies.
    rewrite !(gentry_toFractions _ _ _ _ Hrow) in Hw.
    assert (w n = (- Q2Qc 1)%Qc) as Hwn by (unfold w; by rewrite decide_False by lia).
    rewrite Hwn in Hw.
    assert (sumQc n (λ c, gentry (toFractions matrix) r c * w c)%Qc
            = sumQc n (λ j, coeff row j * entry (Qv <$> sol) j)%Qc) as Heq.
    { apply sumQc_ext. intros j Hj. unfold w. rewrite decide_True by done.
      by rewrite (gentry_toFractions _ _ _ _ Hrow). }
    rewrite Heq in Hw.
    apply (f_equal (λ q, q + coeff row n)%Qc) in Hw. ring_simplify in Hw. done.
Qed.

End GridFacts.

(** C1 (solver correctness).  For every [n ≥ 1] and every [n × (n+1)]
    matrix of integers whose coefficient block is non-singular,
    [solveLinearEquations] returns [n] fractions, each in canonical form,
    which solve the system exactly: for every row,
    [Σ_{j<n} row[j] * sol[j] = row[n]] as rationals, the [j]-th returned
    value multiplying the [j]-th column. *)
Theorem solve_correct (n : nat) (matrix : list (list Z)) :
  (0 < n)%nat → wellShaped n matrix → nonSingular n matrix →
  ∃ sol, solveLinearEquations matrix = Ok sol
    ∧ length sol = n ∧ Forall canonical sol
    ∧ Forall (λ row, satisfies n row (Qv <$> sol)) matrix.
Proof.
  intros Hn Hshape Hns.
  destruct (gaussJordan_ok n matrix n Hn Hshape Hns) as [st Hst]; [done |].
  by apply (solution_spec n matrix st).
Qed.

Lemma example_nonSingular : nonSingular 2 [[0; 2; 4]; [3; 0; 1]].
Proof.
  intros x Hlen Hrows.
  destruct x as [|a [|b [|? ?]]]; try discriminate Hlen.
  inversion Hrows as [|? ? H1 Hrest]; subst.
  inversion Hrest as [|? ? H2 _]; subst.
  unfold sumQc, coeff, entry in H1, H2.
  cbn [lookup list_lookup default from_option id] in H1, H2.
  assert (ZtoQc 2 ≠ 0%Qc) as H2nz by (by apply ZtoQc_nonzero).
  assert (ZtoQc 3 ≠ 0%Qc) as H3nz by (by apply ZtoQc_nonzero).
  change (ZtoQc 0) with 0%Qc in *.
  assert (b = 0%Qc) as ->.
  { transitivity ((0 + 0 * a + ZtoQc 2 * b) / ZtoQc 2)%Qc; [field; done |].
    rewrite H1. field. done. }
  assert (a = 0%Qc) as ->.
  { transitivity ((0 + ZtoQc 3 * a + 0 * 0) / ZtoQc 3)%Qc; [field; done |].
    rewrite H2. field. done. }
  repeat constructor.
Qed.

Lemma solve_correct_witness :
  ∃ sol, solveLinearEquations [[0; 2; 4]; [3; 0; 1]] = Ok sol
    ∧ length sol = 2%nat ∧ Forall canonical sol
    ∧ Forall (λ row, satisfies 2 row (Qv <$> sol)) [[0; 2; 4]; [3; 0; 1]].
Proof.
  apply (solve_correct 2 [[0; 2; 4]; [3; 0; 1]]).
  - lia.
  - split; [reflexivity | repeat constructor].
  - exact example_nonSingular.
Defined.

(** C2, as stated, fails: on the system with two identical equations the
    second pivot column holds only a zero from row 1 on, and the solver
    raises the division-by-zero error, not [SingularMatrix]. *)
Lemma singular_not_SingularMatrix :
  (∃ st, gaussJordan [[1; 2; 3]; [1; 2; 3]] 1 = Ok st
     ∧ ∀ r, (1 ≤ r < 2)%nat → ∃ f, at_ (mat_of st) r 1 = Some f ∧ num f = 0)
  ∧ solveLinearEquations [[1; 2; 3]; [1; 2; 3]] = Err DivisionByZero
  ∧ solveLinearEquations [[1; 2; 3]; [1; 2; 3]] ≠ Err SingularMatrix.
Proof.
  split_and!; [| reflexivity | discriminate].
  eexists. split; [reflexivity |]. intros r Hr.
  assert (r = 1%nat) as -> by lia. eexists. split; reflexivity.
Qed.

(** C2, amended.  For every [n × (n+1)] matrix of integers such that, once
    the pivot columns before [col] have been processed, column [col] holds
    only exact zeros in rows [col .. n-1], [solveLinearEquations] fails,
    with no partial result, with the division-by-zero error raised when the
    normalisation divides the zero pivot by itself; and such a matrix is
    singular. *)
Theorem singular_fails (n : nat) (matrix : list (list Z)) (col : nat) st :
  wellShaped n matrix → (col < n)%nat →
  gaussJordan matrix col = Ok st →
  (∀ r, (col ≤ r < n)%nat → ∃ f, at_ (mat_of st) r col = Some f ∧ num f = 0) →
  solveLinearEquations matrix = Err DivisionByZero ∧ ¬ nonSingular n matrix.
Proof.
  intros Hshape Hcol Hst Hzero. assert (0 < n)%nat as Hn by lia.
  destruct (gaussJordan_inv n matrix col st) as (Hok & Hred & Hker); [done.. | lia | done |].
  split.
  - unfold solveLinearEquations.
    destruct matrix as [|row0 rest] eqn:Hmatrix; [destruct Hshape; simpl in *; lia |].
    rewrite <- Hmatrix in *.
    assert (matrix !! 0%nat = Some row0) as -> by by rewrite Hmatrix.
    cbn. rewrite (gaussJordan_unfold n) in * by done.
    replace (length matrix) with (col + S (n - S col))%nat
      by (destruct Hshape as [-> _]; lia).
    rewrite for_loop_app, Hst. cbn.
    rewrite pivotStep_fail; [done | lia | lia | done].
  - apply (no_pivot_singular n matrix (mat_of st) col); [done.. |].
    by apply (zero_column_no_pivot _ _ (λ r, (col ≤ r < n)%nat)).
Qed.

Lemma singular_fails_witness :
  solveLinearEquations [[1; 2; 3]; [1; 2; 3]] = Err DivisionByZero
  ∧ ¬ nonSingular 2 [[1; 2; 3]; [1; 2; 3]].
Proof.
  eapply (singular_fails 2 [[1; 2; 3]; [1; 2; 3]] 1).
  - split; [reflexivity | repeat constructor].
  - lia.
  - reflexivity.
  - intros r Hr. assert (r = 1%nat) as -> by lia.
    eexists. split; reflexivity.
Defined.

(** C8 (determinism).  The pivot search returns the lowest-index row among
    rows [col .. n-1] with a non-zero entry in column [col], whenever there
    is one; each iteration swaps row [col] with exactly that row, and only
    when it differs from [col]; and any two runs on the same matrix perform
    the same row swaps and return the same output. *)
Theorem solver_deterministic :
  (∀ mat (col n p : nat),
     findPivot mat col col (n - col) = Ok p →
     ∀ r, (col ≤ r < n)%nat → nonZeroAt mat col r →
       nonZeroAt mat col p ∧ (col ≤ p ≤ r)%nat)
  ∧ (∀ (n m col : nat) st st',
       pivotStep n m col st = Ok st' →
       ∃ p, findPivot (mat_of st) col col (n - col) = Ok p
            ∧ swaps_of st' = swaps_of st ++ (if decide (p = col) then [] else [(col, p)]))
  ∧ (∀ matrix run1 run2,
       run1 = (rowSwaps matrix, solveLinearEquations matrix) →
       run2 = (rowSwaps matrix, solveLinearEquations matrix) →
       run1 = run2).
Proof.
  split_and!.
  - intros mat col n p Hp r Hr Hnz.
    destruct (findPivot_spec _ _ _ _ _ Hp) as [[_ Hnone] | (Hrange & Hnzp & Hfirst)].
    + exfalso. apply (Hnone r); [lia | done].
    + split; [done |]. split; [lia |].
      destruct (decide (p ≤ r)%nat) as [| Hgt]; [done |].
      exfalso. apply (Hfirst r); [lia | done].
  - intros n m col st st' Hstep. unfold pivotStep in Hstep.
    destruct (findPivot (mat_of st) col col (n - col)) as [p | e]; [| done].
    exists p. split; [done |]. cbn in Hstep.
    assert (∃ mat1, (if negb (p =? col)%nat
              then (swapRows (mat_of st) col p, swaps_of st ++ [(col, p)])
              else (mat_of st, swaps_of st))
            = (mat1, swaps_of st ++ (if decide (p = col) then [] else [(col, p)])))
      as [mat1 Heq].
    { destruct (Nat.eqb_spec p col) as [Hpc | Hpc]; cbn.
      - rewrite decide_True by done. rewrite app_nil_r. eauto.
      - rewrite decide_False by done. eauto. }
    rewrite Heq in Hstep.
    destruct (cell _ _ _) as [pv | ]; [| done]. cbn in Hstep.
    destruct (normalize _ _ _ _) as [mat2 | ]; [| done]. cbn in Hstep.
    destruct (eliminate _ _ _ _) as [mat3 | ]; [| done]. cbn in Hstep.
    by injection Hstep as <-.
  - by intros matrix run1 run2 -> ->.
Qed.

Lemma solver_deterministic_witness :
  findPivot (toFractions [[0; 2; 4]; [0; 0; 1]; [3; 0; 1]; [5; 1; 1]]) 0 0 4 = Ok 2%nat
  ∧ rowSwaps [[0; 2; 4]; [3; 0; 1]] = Ok [(0, 1)%nat].
Proof.
  destruct solver_deterministic as (Hlowest & Hswap & Hsame).
  split.
  - destruct (Hlowest (toFractions [[0; 2; 4]; [0; 0; 1]; [3; 0; 1]; [5; 1; 1]])
                0%nat 4%nat 2%nat eq_refl 3%nat) as [_ _];
      [lia | by exists (Frac 5 1) |]. reflexivity.
  - destruct (Hswap 2%nat 3%nat 0%nat
               {| mat_of := toFractions [[0; 2; 4]; [3; 0; 1]]; swaps_of := [] |}
               _ eq_refl) as (p & Hp & _).
    reflexivity.
Defined.

(** ** The solver over the store *)

Section StoreFacts.

Local Open Scope nat_scope.

Context (σ0 : store) (mat : loc).

Implicit Types (σ : store) (g : grid) (r c col : nat).

Lemma bindS_run {A B : Type} (p : M A) (f : A → M B) σ :
  (p ≫= f) σ
  = match p σ with
    | (σ', Ok a) => f a σ'
    | (σ', Err e) => (σ', Err e)
    end.
Proof. reflexivity. Qed.

Lemma represents_frame σ g : represents σ0 mat σ g → frame σ0 σ.
Proof. by intros [? _]. Qed.

(** Reading [mat[r][c]] leaves the store alone and sees the grid. *)
Lemma cellS_run σ g r c :
  represents σ0 mat σ g → cellS mat r c σ = (σ, cell g r c).
Proof.
  intros (Hfr & Hmat & ls & Hls & Hnd & Hfresh & Hrows).
  unfold cellS, cell. rewrite bindS_run. unfold readRefs. rewrite Hls.
  rewrite bindS_run. unfold lift.
  destruct (ls !! r) as [l |] eqn:Hl.
  - destruct (Forall2_lookup_l _ _ _ _ _ Hrows Hl) as (row & -> & Hrow). cbn.
    rewrite bindS_run. unfold readFracs. by rewrite Hrow.
  - assert (g !! r = None) as ->; [| done].
    apply lookup_ge_None. rewrite <- (Forall2_length Hrows).
    by apply lookup_ge_None.
Qed.

(** Writing [mat[r][c]] updates one row array, made after [σ0]. *)
Lemma setCellS_run σ g r c v row :
  represents σ0 mat σ g → g !! r = Some row →
  ∃ σ', setCellS mat r c v σ = (σ', Ok ())
        ∧ represents σ0 mat σ' (<[r := <[c := v]> row]> g).
Proof.
  intros (Hfr & Hmat & ls & Hls & Hnd & Hfresh & Hrows) Hrow.
  destruct (Forall2_lookup_r _ _ _ _ _ Hrows Hrow) as (l & Hl & Hσl).
  destruct (Forall_lookup_1 _ _ _ _ Hfresh Hl) as [Hlfresh Hlmat].
  unfold setCellS. rewrite bindS_run. unfold readRefs. rewrite Hls.
  rewrite bindS_run. unfold lift. rewrite Hl. cbn.
  rewrite bindS_run. unfold readFracs. rewrite Hσl. unfold write.
  eexists. split; [reflexivity |].
  assert (l < length σ) by by eapply lookup_lt_Some.
  split_and!; [| done |].
  - intros l' Hl'. rewrite list_lookup_insert_ne by lia. by apply Hfr.
  - exists ls. split_and!; [| done | done |].
    + by rewrite list_lookup_insert_ne.
    + apply Forall2_same_length_lookup. split.
      * rewrite length_insert. by eapply Forall2_length.
      * intros i l' row' Hl' Hrow'.
        destruct (decide (i = r)) as [-> | Hne].
        -- assert (l' = l) as -> by congruence.
           rewrite list_lookup_insert_eq in Hrow' by by eapply lookup_lt_Some.
           injection Hrow' as <-. by rewrite list_lookup_insert_eq.
        -- rewrite list_lookup_insert_ne in Hrow' by done.
           assert (l' ≠ l).
           { intros ->. apply Hne. by eapply (NoDup_lookup ls). }
           rewrite list_lookup_insert_ne by done.
           destruct (Forall2_lookup_l _ _ _ _ _ Hrows Hl') as (row'' & Hr'' & Hσ'').
           congruence.
Qed.

(** The element at index [k] after exchanging indices [i] and [j]. *)
Lemma lookup_swap {A : Type} (l : list A) i j k xi xj :
  l !! i = Some xi → l !! j = Some xj →
  <[j := xi]> (<[i := xj]> l) !! k
  = l !! (if decide (k = i) then j else if decide (k = j) then i else k).
Proof.
  intros Hi Hj.
  assert (i < length l) by by eapply lookup_lt_Some.
  assert (j < length l) by by eapply lookup_lt_Some.
  destruct (decide (k = j)) as [-> | Hnj].
  - rewrite list_lookup_insert_eq by by rewrite length_insert.
    destruct (decide (j = i)) as [-> | Hne]; [| done]. congruence.
  - rewrite list_lookup_insert_ne by done.
    destruct (decide (k = i)) as [-> | Hni].
    + by rewrite list_lookup_insert_eq.
    + by rewrite list_lookup_insert_ne.
Qed.

(** Exchanging two rows updates the outer array only. *)
Lemma swapRowsS_run σ g i j :
  represents σ0 mat σ g →
  ∃ σ', swapRowsS mat i j σ = (σ', Ok ())
        ∧ represents σ0 mat σ' (swapRows g i j).
Proof.
  intros Hrep. pose proof Hrep as (Hfr & Hmat & ls & Hls & Hnd & Hfresh & Hrows).
  unfold swapRowsS, swapRows. rewrite bindS_run. unfold readRefs. rewrite Hls.
  pose proof (Forall2_length Hrows) as Hlen.
  destruct (ls !! i) as [li |] eqn:Hli.
  2: { assert (g !! i = None) as ->.
       { apply lookup_ge_None. rewrite <- Hlen. by apply lookup_ge_None. }
       eexists. split; [reflexivity | done]. }
  destruct (Forall2_lookup_l _ _ _ _ _ Hrows Hli) as (ri & Hri & Hσi). rewrite Hri.
  destruct (ls !! j) as [lj |] eqn:Hlj.
  2: { assert (g !! j = None) as ->.
       { apply lookup_ge_None. rewrite <- Hlen. by apply lookup_ge_None. }
       eexists. split; [reflexivity | done]. }
  destruct (Forall2_lookup_l _ _ _ _ _ Hrows Hlj) as (rj & Hrj & Hσj). rewrite Hrj.
  unfold write. eexists. split; [reflexivity |].
  assert (mat < length σ) by by eapply lookup_lt_Some.
  split_and!; [| done |].
  - intros l' Hl'. rewrite list_lookup_insert_ne by lia. by apply Hfr.
  - eexists. split_and!; [by apply list_lookup_insert_eq | | |].
    + apply NoDup_alt. intros a b l Ha Hb.
      rewrite (lookup_swap _ _ _ _ _ _ Hli Hlj) in Ha.
      rewrite (lookup_swap _ _ _ _ _ _ Hli Hlj) in Hb.
      pose proof (NoDup_lookup _ _ _ _ Hnd Ha Hb).
      repeat case_decide; congruence.
    + apply Forall_lookup_2. intros k l Hk.
      rewrite (lookup_swap _ _ _ _ _ _ Hli Hlj) in Hk.
      exact (Forall_lookup_1 _ _ _ _ Hfresh Hk).
    + apply Forall2_same_length_lookup. split; [by rewrite !length_insert |].
      intros k l row Hk Hrow.
      rewrite (lookup_swap _ _ _ _ _ _ Hli Hlj) in Hk.
      rewrite (lookup_swap _ _ _ _ _ _ Hri Hrj) in Hrow.
      rewrite list_lookup_insert_ne.
      * destruct (Forall2_lookup_l _ _ _ _ _ Hrows Hk) as (row'' & Hr'' & Hσ'').
        congruence.
      * intros <-. by destruct (Forall_lookup_1 _ _ _ _ Hfresh Hk).
Qed.

Lemma findPivotS_run σ g col r cnt :
  represents σ0 mat σ g →
  findPivotS mat col r cnt σ = (σ, findPivot g col r cnt).
Proof.
  intros Hrep. revert r. induction cnt as [|cnt IH]; intros r; cbn [findPivotS findPivot].
  - done.
  - rewrite bindS_run, (cellS_run _ g) by done.
    destruct (cell g r col) as [[f |] | e]; cbn; [| done | done].
    rewrite bindS_run. unfold lift.
    destruct (negb (num f =? 0)%Z); [done | apply IH].
Qed.

Lemma forS_agrees {St : Type} (π : St → grid) bodyS (body : nat → St → result St) lo cnt :
  (∀ i σ s, represents σ0 mat σ (π s) → agrees π σ0 mat (bodyS i σ) (body i s)) →
  ∀ σ s, represents σ0 mat σ (π s) →
    agrees π σ0 mat (forS lo cnt bodyS σ) (for_loop lo cnt body s).
Proof.
  intros Hbody. revert lo. induction cnt as [|cnt IH]; intros lo σ s Hrep.
  - done.
  - cbn [forS for_loop]. rewrite bindS_run. specialize (Hbody lo σ s Hrep).
    unfold agrees in Hbody.
    destruct (bodyS lo σ) as [σ' [[] | e]], (body lo s) as [s' | e']; cbn in Hbody |- *;
      try done.
    by apply IH.
Qed.

Lemma cell_Some_row g r c f : cell g r c = Ok (Some f) → ∃ row, g !! r = Some row.
Proof. unfold cell. destruct (g !! r); [eauto | done]. Qed.

Lemma normalizeS_agrees m col pv σ g :
  represents σ0 mat σ g →
  agrees id σ0 mat (normalizeS m col pv mat σ) (normalize m col pv g).
Proof.
  apply (forS_agrees id). clear σ g. intros c σ g Hrep. unfold agrees.
  rewrite bindS_run, (cellS_run _ g) by done.
  pose proof (represents_frame _ _ Hrep).
  destruct (cell g col c) as [[a |] | e] eqn:Hcell; cbn; [| done | done].
  rewrite bindS_run. unfold lift. cbn.
  destruct pv as [b |]; cbn; [| done].
  destruct (divide a b) as [v | e]; cbn; [| done].
  destruct (cell_Some_row _ _ _ _ Hcell) as [row Hrow].
  destruct (setCellS_run σ g col c v row Hrep Hrow) as (σ' & -> & Hrep').
  cbn. unfold setCell. by rewrite Hrow.
Qed.

Lemma eliminateRowS_agrees m col r fac σ g :
  represents σ0 mat σ g →
  agrees id σ0 mat (eliminateRowS m col r fac mat σ) (eliminateRow m col r fac g).
Proof.
  apply (forS_agrees id). clear σ g. intros c σ g Hrep. unfold agrees.
  rewrite bindS_run, (cellS_run _ g) by done.
  pose proof (represents_frame _ _ Hrep).
  destruct (cell g r c) as [x | e] eqn:Hx; cbn; [| done].
  rewrite bindS_run, (cellS_run _ g) by done.
  destruct (cell g col c) as [y | e] eqn:Hy; cbn; [| done].
  rewrite bindS_run. unfold lift. cbn.
  destruct fac as [f |]; cbn; [| done].
  destruct y as [y |]; cbn; [| done].
  destruct (multiply f y) as [p | e]; cbn; [| done].
  destruct x as [x |]; cbn; [| done].
  destruct (subtract x p) as [v | e]; cbn; [| done].
  destruct (cell_Some_row _ _ _ _ Hx) as [row Hrow].
  destruct (setCellS_run σ g r c v row Hrep Hrow) as (σ' & -> & Hrep').
  cbn. unfold setCell. by rewrite Hrow.
Qed.

Lemma eliminateS_agrees n m col σ g :
  represents σ0 mat σ g →
  agrees id σ0 mat (eliminateS n m col mat σ) (eliminate n m col g).
Proof.
  apply (forS_agrees id). clear σ g. intros r σ g Hrep.
  destruct (r =? col); [done |].
  rewrite bindS_run, (cellS_run _ g) by done.
  destruct (cell g r col) as [fac | e] eqn:Hfac; cbn.
  - by apply eliminateRowS_agrees.
  - split; [done | by eapply represents_frame].
Qed.

Lemma pivotStepS_agrees n m col σ st :
  represents σ0 mat σ (mat_of st) →
  agrees mat_of σ0 mat (pivotStepS n m mat col σ) (pivotStep n m col st).
Proof.
  intros Hrep. unfold pivotStepS, pivotStep.
  rewrite bindS_run, (findPivotS_run _ (mat_of st)) by done.
  destruct (findPivot (mat_of st) col col (n - col)) as [p | e]; cbn;
    [| split; [done | by eapply represents_frame]].
  rewrite bindS_run.
  assert (∃ σ1 g1 swaps,
    (if negb (p =? col) then swapRowsS mat col p else mret ()) σ = (σ1, Ok ())
    ∧ (if negb (p =? col)
       then (swapRows (mat_of st) col p, swaps_of st ++ [(col, p)])
       else (mat_of st, swaps_of st)) = (g1, swaps)
    ∧ represents σ0 mat σ1 g1) as (σ1 & g1 & swaps & -> & -> & Hrep1).
  { destruct (negb (p =? col)).
    - destruct (swapRowsS_run σ (mat_of st) col p Hrep) as (σ1 & Hσ1 & Hrep1).
      by eexists _, _, _.
    - by eexists _, _, _. }
  rewrite bindS_run, (cellS_run _ g1) by done.
  destruct (cell g1 col col) as [pv | e]; cbn;
    [| split; [done | by eapply represents_frame]].
  rewrite bindS_run.
  pose proof (normalizeS_agrees m col pv σ1 g1 Hrep1) as Hnorm. unfold agrees in Hnorm.
  destruct (normalizeS m col pv mat σ1) as [σ2 [[] | e]],
    (normalize m col pv g1) as [g2 | e']; cbn in Hnorm |- *; try done.
  pose proof (eliminateS_agrees n m col σ2 g2 Hnorm) as Helim. unfold agrees in Helim.
  unfold agrees.
  destruct (eliminateS n m col mat σ2) as [σ3 [[] | e]],
    (eliminate n m col g2) as [g3 | e']; cbn in Helim |- *; done.
Qed.

Lemma extractS_run m ls g σ :
  Forall2 (λ l row, σ !! l = Some (FracArray row)) ls g →
  extractS m ls σ = (σ, mapM (readSolution m) g).
Proof.
  induction 1 as [|l row ls g Hl _ IH]; [done |].
  cbn [extractS mapM]. rewrite bindS_run. unfold readFracs. rewrite Hl.
  rewrite bindS_run. unfold lift.
  destruct (readSolution m row) as [f | e]; cbn; [| done].
  rewrite bindS_run, IH.
  by destruct (mapM _ g).
Qed.

End StoreFacts.

Section SolveStore.

Local Open Scope nat_scope.

(** Copying the rows: one new array per row, appended to the store. *)
Lemma mapRowsS_run ls (rows : list (list Z)) σ :
  Forall2 (λ l xs, σ !! l = Some (IntArray xs)) ls rows →
  mapRowsS ls σ
  = (σ ++ (FracArray <$> toFractions rows), Ok (seq (length σ) (length rows))).
Proof.
  intros H. revert σ H. revert rows.
  induction ls as [|l ls IH]; intros rows σ H.
  - inversion H; subst. cbn. by rewrite app_nil_r.
  - inversion H as [|? xs ? rows' Hl Hrest]; subst.
    cbn [mapRowsS]. rewrite bindS_run. unfold readInts. rewrite Hl.
    rewrite bindS_run. unfold alloc.
    rewrite bindS_run, (IH rows').
    + cbn. rewrite <- app_assoc. cbn. rewrite length_app. cbn.
      by rewrite Nat.add_1_r.
    + eapply Forall2_impl; [| exact Hrest]. intros l' xs' Hl'.
      by apply lookup_app_l_Some.
Qed.

Lemma represents_initial σ0 (rows : list (list Z)) :
  let σ1 := σ0 ++ (FracArray <$> toFractions rows) in
  represents σ0 (length σ1)
    (σ1 ++ [RefArray (seq (length σ0) (length rows))]) (toFractions rows).
Proof.
  intros σ1.
  assert (length σ1 = length σ0 + length rows) as Hlen1.
  { unfold σ1, toFractions. by rewrite length_app, !length_fmap. }
  split_and!.
  - intros l Hl. unfold σ1. rewrite <- app_assoc. by apply lookup_app_l.
  - lia.
  - exists (seq (length σ0) (length rows)). split_and!.
    + by apply list_lookup_middle.
    + apply NoDup_seq.
    + apply Forall_lookup_2. intros i l [-> Hi]%lookup_seq. lia.
    + apply Forall2_same_length_lookup. split.
      * unfold toFractions. by rewrite length_seq, length_fmap.
      * intros i l row [-> Hi]%lookup_seq Hrow.
        rewrite lookup_app_l by lia. unfold σ1.
        rewrite lookup_app_r by lia.
        replace (length σ0 + i - length σ0) with i by lia.
        by rewrite list_lookup_fmap, Hrow.
Qed.

Lemma solveLinearEquations_unfold rows row0 :
  rows !! 0 = Some row0 →
  solveLinearEquations rows
  = for_loop 0 (length rows) (pivotStep (length rows) (length row0))
      {| mat_of := toFractions rows; swaps_of := [] |}
    ≫= λ st, mapM (readSolution (length row0)) (mat_of st).
Proof.
  intros H. unfold solveLinearEquations, gaussJordan. by rewrite H.
Qed.

(** The run over the store computes what [solveLinearEquations] computes on
    the matrix that the store holds, and leaves every object that existed
    before the call unchanged. *)
Lemma solveS_refines σ matrix rows :
  holdsMatrix σ matrix rows →
  frame σ (solveLinearEquationsS matrix σ).1
  ∧ match (solveLinearEquationsS matrix σ).2 with
    | Ok l => ∃ sol, solveLinearEquations rows = Ok sol
                     ∧ (solveLinearEquationsS matrix σ).1 !! l = Some (FracArray sol)
    | Err e => solveLinearEquations rows = Err e
    end.
Proof.
  intros (ls & Hls & Hrows).
  pose proof (Forall2_length Hrows) as Hlen.
  unfold solveLinearEquationsS.
  rewrite bindS_run. unfold readRefs. rewrite Hls.
  rewrite bindS_run. unfold lift.
  destruct (ls !! 0) as [l0 |] eqn:Hl0.
  2: { unfold solveLinearEquations, gaussJordan.
       assert (rows !! 0 = None) as ->; [| done].
       apply lookup_ge_None. rewrite <- Hlen. by apply lookup_ge_None. }
  destruct (Forall2_lookup_l _ _ _ _ _ Hrows Hl0) as (xs0 & Hxs0 & Hσ0).
  rewrite (solveLinearEquations_unfold rows xs0 Hxs0).
  cbn [field]. cbv beta iota.
  rewrite bindS_run. unfold readInts. rewrite Hσ0.
  rewrite bindS_run, (mapRowsS_run _ rows) by done.
  rewrite bindS_run. unfold alloc.
  pose proof (represents_initial σ rows) as Hrep0. cbv zeta in Hrep0.
  set (σ1 := σ ++ (FracArray <$> toFractions rows)) in *.
  set (σ2 := σ1 ++ [RefArray (seq (length σ) (length rows))]) in *.
  rewrite bindS_run.
  set (st0 := {| mat_of := toFractions rows; swaps_of := [] |}).
  pose proof (forS_agrees σ (length σ1) mat_of
    (pivotStepS (length ls) (length xs0) (length σ1))
    (pivotStep (length ls) (length xs0)) 0 (length ls)
    (λ i σ' s, pivotStepS_agrees σ (length σ1) _ _ i σ' s) σ2 st0 Hrep0) as Hloop.
  unfold agrees in Hloop. rewrite <- Hlen.
  destruct (forS 0 (length ls) _ σ2) as [σ3 [[] | e]],
    (for_loop 0 (length ls) _ st0) as [st | e']; cbn [fst snd] in Hloop |- *;
    try done.
  2: { destruct Hloop as [-> Hfr]. done. }
  pose proof Hloop as (Hfr & Hmat & ls3 & Hls3 & _ & _ & Hrows3).
  rewrite bindS_run. rewrite Hls3.
  rewrite bindS_run, (extractS_run _ _ (mat_of st)) by done.
  change (Ok st ≫= ?f) with (f st). cbv beta.
  destruct (mapM _ (mat_of st)) as [sol | e]; cbn [fst snd]; [| done].
  assert (length σ ≤ length σ3) as Hle.
  { destruct (decide (length σ ≤ length σ3)) as [| Hgt]; [done |].
    assert (is_Some (σ !! length σ3)) as [o Ho] by (apply lookup_lt_is_Some; lia).
    rewrite <- Hfr in Ho by lia.
    apply lookup_lt_Some in Ho. lia. }
  split.
  - intros l Hl. rewrite lookup_app_l by lia. by apply Hfr.
  - exists sol. split; [done |]. by apply list_lookup_middle.
Qed.

End SolveStore.

(** C10 (the argument is not mutated).  Whatever store the call starts in,
    if it holds a matrix of integers at [matrix] then, after
    [solveLinearEquations(matrix)] has returned or thrown, every object that
    existed before the call is unchanged, and so the store still holds the
    same matrix at [matrix], row by row and entry by entry: the updates and
    row swaps went to arrays created by the call. *)
Theorem solve_preserves_argument σ matrix rows :
  holdsMatrix σ matrix rows →
  let σ' := (solveLinearEquationsS matrix σ).1 in
  frame σ σ' ∧ holdsMatrix σ' matrix rows.
Proof.
  intros Hholds σ'.
  destruct (solveS_refines σ matrix rows Hholds) as [Hfr _]. fold σ' in Hfr.
  split; [done |].
  destruct Hholds as (ls & Hls & Hrows). exists ls. split.
  - rewrite Hfr; [done |]. by eapply lookup_lt_Some.
  - eapply Forall2_impl; [| exact Hrows]. intros l xs Hl. cbn in Hl.
    rewrite Hfr; [done |]. by eapply lookup_lt_Some.
Qed.

Lemma solve_preserves_argument_witness :
  let σ := [IntArray [0; 2; 4]; IntArray [3; 0; 1]; RefArray [0; 1]%nat] in
  let σ' := (solveLinearEquationsS 2%nat σ).1 in
  frame σ σ' ∧ holdsMatrix σ' 2%nat [[0; 2; 4]; [3; 0; 1]].
Proof.
  apply (solve_preserves_argument
           [IntArray [0; 2; 4]; IntArray [3; 0; 1]; RefArray [0; 1]%nat] 2%nat).
  exists [0; 1]%nat. split; [reflexivity |]. repeat constructor.
Defined.


(** * Further properties *)

(** ** The base decoder *)

Section DecoderMore.

Lemma charToDigit_alphabet ch :
  (∀ d, charToDigit ch = Ok d ↔ isDigitOf 36 ch d)
  ∧ (∀ e, charToDigit ch = Err e → e = InvalidDigitChar ch).
Proof.
  split.
  - intros d. split.
    + intros H. destruct ch as [[] [] [] [] [] [] [] []]; vm_compute in H;
        try discriminate H; injection H as <-;
        (split; [lia | first [left; reflexivity | right; reflexivity]]).
    + intros H. by destruct (isDigitOf_inv 36 ch d ltac:(lia) H).
  - intros e. unfold charToDigit.
    destruct (_ && _); [done |]. cbv zeta. destruct (_ && _); [done |].
    by intros [= <-].
Qed.

(** The digit table of [charToDigit] on code units below 256: it accepts
    exactly the 62 characters
    ['0'..'9'], ['a'..'z'], ['A'..'Z'], with the value the alphabet gives
    them, and raises [InvalidDigitChar] for the character itself on every
    other one. *)
Theorem charToDigit_table ch :
  (∀ d, charToDigit ch = Ok d ↔ isDigitOf 36 ch d)
  ∧ (∀ e, charToDigit ch = Err e → e = InvalidDigitChar ch).
Proof. exact (charToDigit_alphabet ch). Qed.

Lemma charToDigit_digit b ch d :
  charToDigit ch = Ok d → d < b → isDigitOf b ch d.
Proof.
  intros H Hd. apply charToDigit_alphabet in H as [Hrange Hglyph].
  split; [lia | done].
Qed.

(** What a successful accumulation has read. *)
Lemma accumulate_inv b s acc r :
  accumulate b s acc = Ok r →
  ∃ ds, Forall2 (isDigitOf b) (list_ascii_of_string s) ds
        ∧ r = acc * b ^ Z.of_nat (length ds) + positional b ds.
Proof.
  revert acc. induction s as [|c s IH]; intros acc; cbn [accumulate].
  - intros [= <-]. exists []. split; [constructor | simpl; lia].
  - destruct (charToDigit c) as [d |] eqn:Hc; cbn; [| done].
    destruct (Z.geb_spec d b) as [| Hlt]; [done |].
    intros (ds & Hds & ->)%IH. exists (d :: ds). split.
    + cbn [list_ascii_of_string]. constructor; [| done].
      apply (charToDigit_digit b c d Hc). lia.
    + cbn [length positional]. rewrite Nat2Z.inj_succ, Z.pow_succ_r by lia. ring.
Qed.

(** Where a failed accumulation stopped. *)
Lemma accumulate_err b s acc e :
  accumulate b s acc = Err e →
  ∃ ch, In ch (list_ascii_of_string s)
        ∧ ((e = InvalidDigitChar ch ∧ ∀ d, ¬ isDigitOf 36 ch d)
           ∨ (e = DigitOutOfRange ch b ∧ ∃ d, isDigitOf 36 ch d ∧ b ≤ d)).
Proof.
  revert acc. induction s as [|c s IH]; intros acc; cbn [accumulate]; [done |].
  destruct (charToDigit c) as [d | e'] eqn:Hc; cbn.
  - destruct (Z.geb_spec d b) as [Hge | Hlt].
    + intros [= <-]. exists c. split; [by left |]. right. split; [done |].
      exists d. split; [by apply charToDigit_alphabet | done].
    + intros (ch & Hin & H)%IH. exists ch. split; [by right | done].
  - intros [= <-]. exists c. split; [by left |]. left.
    pose proof (proj2 (charToDigit_alphabet c) _ Hc) as ->. split; [done |].
    intros d Hd%charToDigit_alphabet. congruence.
Qed.

(** The decoder, with the sign handling made explicit. *)
Lemma parse_unfold s b :
  parseBigIntFromBase s b
  = if (b <? 2) || (b >? 36) then Err (InvalidBase b)
    else match trim s with
         | String "-" rest => Z.opp <$> accumulate b rest 0
         | t => accumulate b t 0
         end.
Proof.
  unfold parseBigIntFromBase. destruct ((b <? 2) || (b >? 36)); [done |].
  destruct (trim s) as [|c t]; [done |].
  destruct (ascii_dec c "-") as [-> | Hne].
  - by destruct (accumulate b t 0).
  - destruct c as [[] [] [] [] [] [] [] []];
      try (by destruct (accumulate b (String _ t) 0)). done.
Qed.

Lemma base_check_bad b : ¬ 2 ≤ b ≤ 36 → (b <? 2) || (b >? 36) = true.
Proof.
  intros H. rewrite Z.gtb_ltb. apply orb_true_iff.
  destruct (Z.ltb_spec b 2); [by left |]. right. apply Z.ltb_lt. lia.
Qed.

Lemma base_check_cases b :
  ((b <? 2) || (b >? 36) = false ∧ 2 ≤ b ≤ 36)
  ∨ ((b <? 2) || (b >? 36) = true ∧ ¬ 2 ≤ b ≤ 36).
Proof.
  destruct (decide (2 ≤ b ≤ 36)) as [H | H].
  - left. split; [by apply base_check_ok | done].
  - right. split; [by apply base_check_bad | done].
Qed.

Lemma parse_Ok_iff s b v :
  parseBigIntFromBase s b = Ok v
  ↔ 2 ≤ b ≤ 36
    ∧ ∃ body ds, Forall2 (isDigitOf b) (list_ascii_of_string body) ds
        ∧ ((trim s = body ∧ v = positional b ds)
           ∨ (trim s = String "-" body ∧ v = - positional b ds)).
Proof.
  rewrite parse_unfold. split.
  - destruct (base_check_cases b) as [[-> Hb] | [-> Hb]]; [| done].
    intros H. split; [done |].
    destruct (trim s) as [|c t] eqn:Ht.
    { injection H as <-. exists ""%string, []. split; [constructor | by left]. }
    destruct (ascii_dec c "-") as [-> | Hne].
    + destruct (accumulate b t 0) as [r |] eqn:Hacc; [| done].
      injection H as <-. apply accumulate_inv in Hacc as (ds & Hds & ->).
      exists t, ds. split; [done |]. right. split; [done | lia].
    + assert (accumulate b (String c t) 0 = Ok v) as Hacc.
      { destruct c as [[] [] [] [] [] [] [] []]; done. }
      apply accumulate_inv in Hacc as (ds & Hds & ->).
      exists (String c t), ds. split; [done |]. left. split; [done | lia].
  - intros (Hb & body & ds & Hds & H). rewrite base_check_ok by done.
    destruct H as [[-> ->] | [-> ->]].
    + destruct (validDigits_head b body ds ltac:(lia) Hds) as (_ & Hminus & _).
      assert (accumulate b body 0 = Ok (positional b ds)) as Hacc.
      { rewrite (accumulate_digits b body ds 0) by (lia || done). f_equal; lia. }
      destruct body as [|c t]; [done |].
      destruct (ascii_dec c "-") as [-> | Hne]; [by edestruct Hminus |].
      clear Hds Hminus. destruct c as [[] [] [] [] [] [] [] []]; done.
    + rewrite (accumulate_digits b body ds 0) by (lia || done). cbn. f_equal; lia.
Qed.

(** The decoder succeeds exactly on a base in [2, 36] and a string that,
    once trimmed, is an optional minus sign followed by digits of that base
    (possibly none); the value is the positional value of the digits, with
    the sign applied. *)
Theorem decoder_success_iff s b v :
  parseBigIntFromBase s b = Ok v
  ↔ 2 ≤ b ≤ 36
    ∧ ∃ body ds, Forall2 (isDigitOf b) (list_ascii_of_string body) ds
        ∧ ((trim s = body ∧ v = positional b ds)
           ∨ (trim s = String "-" body ∧ v = - positional b ds)).
Proof. exact (parse_Ok_iff s b v). Qed.

Lemma allWhiteSpace_cons c s :
  allWhiteSpace (String c s) = isWhiteSpace c && allWhiteSpace s.
Proof. reflexivity. Qed.

Lemma trimStart_app s w :
  trimStart (s ++ w)
  = if allWhiteSpace s then trimStart w else (trimStart s ++ w)%string.
Proof.
  induction s as [|c s IH]; [done |]. rewrite allWhiteSpace_cons. simpl.
  by destruct (isWhiteSpace c).
Qed.

Lemma trimEnd_app_spaces t w :
  allWhiteSpace w = true → trimEnd (t ++ w) = trimEnd t.
Proof.
  intros Hw. induction t as [|c t IH]; simpl; [by apply trimEnd_spaces |].
  by rewrite IH.
Qed.

(** White space around a string does not change what [trim] returns. *)
Lemma trim_outer w1 s w2 :
  allWhiteSpace w1 = true → allWhiteSpace w2 = true →
  trim (w1 ++ s ++ w2) = trim s.
Proof.
  intros H1 H2. unfold trim. rewrite trimStart_spaces_app, trimStart_app by done.
  destruct (allWhiteSpace s) eqn:Hs.
  - assert (∀ t, allWhiteSpace t = true → trimStart t = ""%string) as Hts.
    { induction t as [|c t IH]; [done |]. rewrite allWhiteSpace_cons.
      intros [Hc Ht]%andb_true_iff. simpl. rewrite Hc. auto. }
    by rewrite !Hts.
  - by apply trimEnd_app_spaces.
Qed.

(** The decoder ignores white space before and after its input. *)
Theorem decoder_ignores_outer_space s b w1 w2 :
  allWhiteSpace w1 = true → allWhiteSpace w2 = true →
  parseBigIntFromBase (w1 ++ s ++ w2) b = parseBigIntFromBase s b.
Proof. intros H1 H2. by rewrite !parse_unfold, trim_outer. Qed.

Lemma decoder_ignores_outer_space_witness :
  parseBigIntFromBase (" " ++ "-1z" ++ "  ") 36 = parseBigIntFromBase "-1z" 36.
Proof. by apply decoder_ignores_outer_space. Defined.

Lemma trimStart_In ch s :
  In ch (list_ascii_of_string (trimStart s)) → In ch (list_ascii_of_string s).
Proof.
  induction s as [|c s IH]; [done |]. simpl.
  destruct (isWhiteSpace c); [auto | done].
Qed.

Lemma trimEnd_In ch s :
  In ch (list_ascii_of_string (trimEnd s)) → In ch (list_ascii_of_string s).
Proof.
  induction s as [|c s IH]; [done |]. simpl.
  destruct (trimEnd s) as [|c' t].
  - destruct (isWhiteSpace c); [done |]. simpl. tauto.
  - simpl in *. tauto.
Qed.

(** The decoder raises nothing but its three own errors: [InvalidBase] when
    the base is outside [2, 36], and otherwise [InvalidDigitChar] for a
    character of the input outside the digit alphabet, or [DigitOutOfRange]
    for a character of the input whose digit value is at least the base. *)
Theorem decoder_errors s b e :
  parseBigIntFromBase s b = Err e →
  (e = InvalidBase b ∧ ¬ 2 ≤ b ≤ 36)
  ∨ (2 ≤ b ≤ 36
     ∧ ∃ ch, In ch (list_ascii_of_string s)
         ∧ ((e = InvalidDigitChar ch ∧ ∀ d, ¬ isDigitOf 36 ch d)
            ∨ (e = DigitOutOfRange ch b ∧ ∃ d, isDigitOf 36 ch d ∧ b ≤ d))).
Proof.
  rewrite parse_unfold.
  destruct (base_check_cases b) as [[-> Hb] | [-> Hb]]; [| intros [= <-]; by left].
  intros H. right. split; [done |].
  assert (∃ t, accumulate b t 0 = Err e
               ∧ ∀ ch, In ch (list_ascii_of_string t)
                       → In ch (list_ascii_of_string (trim s)))
    as (t & Hacc & Hsub).
  { destruct (trim s) as [|c t]; [done |].
    destruct (ascii_dec c "-") as [-> | Hne].
    - exists t. split; [| intros ch Hch; by right].
      by destruct (accumulate b t 0).
    - exists (String c t). split; [| done].
      destruct c as [[] [] [] [] [] [] [] []]; done. }
  apply accumulate_err in Hacc as (ch & Hin & Hch).
  exists ch. split; [| done]. by apply trimStart_In, trimEnd_In, Hsub.
Qed.

Lemma decoder_errors_witness :
  parseBigIntFromBase "12" 1 = Err (InvalidBase 1)
  ∧ parseBigIntFromBase "1_2" 10 = Err (InvalidDigitChar "_")
  ∧ parseBigIntFromBase "129" 8 = Err (DigitOutOfRange "9" 8).
Proof.
  split_and!.
  - destruct (parseBigIntFromBase "12" 1) as [v | e] eqn:H; [discriminate H |].
    destruct (decoder_errors _ _ _ H) as [[-> _] | [Hb _]]; [reflexivity | lia].
  - reflexivity.
  - reflexivity.
Defined.

Lemma positional_bound b ds :
  Forall (λ d, 0 ≤ d < b) ds → 0 ≤ positional b ds < b ^ Z.of_nat (length ds).
Proof.
  induction 1 as [|d ds Hd _ IH]; cbn [positional length]; [simpl; lia |].
  rewrite Nat2Z.inj_succ, Z.pow_succ_r by lia.
  assert (0 ≤ b ^ Z.of_nat (length ds)) by (apply Z.pow_nonneg; lia). nia.
Qed.

Lemma isDigitOf_Forall b s ds :
  Forall2 (isDigitOf b) s ds → Forall (λ d, 0 ≤ d < b) ds.
Proof. induction 1 as [|c d s ds [Hd _] _ IH]; constructor; done. Qed.

Lemma list_ascii_length s : length (list_ascii_of_string s) = String.length s.
Proof. induction s as [|c s IH]; simpl; [done | by rewrite IH]. Qed.

(** Digits compose as in positional notation: a string of [k] digits decodes
    to a value in [0, b^k), and appending it to another digit string
    multiplies the value of that one by [b^k] and adds its own. *)
Theorem decoder_concat b s1 s2 :
  2 ≤ b ≤ 36 → validDigitString b s1 → validDigitString b s2 →
  ∃ v1 v2, parseBigIntFromBase s1 b = Ok v1
    ∧ parseBigIntFromBase s2 b = Ok v2
    ∧ 0 ≤ v2 < b ^ Z.of_nat (String.length s2)
    ∧ parseBigIntFromBase (s1 ++ s2) b
      = Ok (v1 * b ^ Z.of_nat (String.length s2) + v2).
Proof.
  intros Hb [ds1 H1] [ds2 H2].
  exists (positional b ds1), (positional b ds2).
  assert (length ds2 = String.length s2) as Hlen
    by (rewrite <- list_ascii_length; symmetry; by eapply Forall2_length).
  rewrite <- Hlen. split_and!.
  - apply parse_encodes; [done | by exists ds1].
  - apply parse_encodes; [done | by exists ds2].
  - eapply positional_bound, isDigitOf_Forall, H2.
  - eapply positional_bound, isDigitOf_Forall, H2.
  - apply parse_encodes; [done |]. exists (ds1 ++ ds2). split.
    + rewrite list_ascii_app. by apply Forall2_app.
    + apply positional_app.
Qed.

Lemma decoder_concat_witness :
  ∃ v1 v2, parseBigIntFromBase "7f" 16 = Ok v1
    ∧ parseBigIntFromBase "0A" 16 = Ok v2
    ∧ 0 ≤ v2 < 16 ^ Z.of_nat (String.length "0A")
    ∧ parseBigIntFromBase ("7f" ++ "0A") 16
      = Ok (v1 * 16 ^ Z.of_nat (String.length "0A") + v2).
Proof.
  apply decoder_concat; [lia | |].
  - exists [7; 15]. repeat constructor; (lia || (left; reflexivity)).
  - exists [0; 10].
    repeat constructor; (lia || (left; reflexivity) || (right; reflexivity)).
Defined.



Lemma toLowerCase_facts ch :
  isWhiteSpace (toLowerCase ch) = isWhiteSpace ch
  ∧ (toLowerCase ch = "-"%char ↔ ch = "-"%char)
  ∧ match charToDigit (toLowerCase ch), charToDigit ch with
    | Ok d, Ok d' => d = d'
    | Err _, Err _ => True
    | _, _ => False
    end.
Proof.
  destruct ch as [[] [] [] [] [] [] [] []]; vm_compute;
    (split; [reflexivity | split; [split; intros H; (exact H || discriminate H) | done]]).
Qed.

Lemma sameCase_facts b c c' :
  b ≤ 36 → toLowerCase c = toLowerCase c' →
  isWhiteSpace c = isWhiteSpace c'
  ∧ (c = "-"%char → c' = "-"%char)
  ∧ (∀ d, isDigitOf b c d → isDigitOf b c' d).
Proof.
  intros Hb H.
  destruct (toLowerCase_facts c) as (Hw & Hm & Hd).
  destruct (toLowerCase_facts c') as (Hw' & Hm' & Hd').
  rewrite H in *. split_and!.
  - congruence.
  - intros Hc. by apply Hm', Hm.
  - intros d [Hrange Hglyph].
    assert (charToDigit c = Ok d) as Hcd by (apply charToDigit_alphabet; split; [lia | done]).
    rewrite Hcd in Hd.
    destruct (charToDigit (toLowerCase c')) as [d1 |]; [subst d1 | done].
    destruct (charToDigit c') as [d2 |] eqn:Hc'; [subst d2 | done].
    apply (charToDigit_digit b c' d Hc'). lia.
Qed.

Lemma sameLetters_trimStart s s' :
  sameLetters s s' → sameLetters (trimStart s) (trimStart s').
Proof.
  induction 1 as [|c c' s s' Hc Hs IH]; [constructor |]. simpl.
  destruct (sameCase_facts 0 c c' ltac:(lia) Hc) as (<- & _).
  destruct (isWhiteSpace c); [done | by constructor].
Qed.

Lemma sameLetters_trimEnd s s' :
  sameLetters s s' → sameLetters (trimEnd s) (trimEnd s').
Proof.
  induction 1 as [|c c' s s' Hc Hs IH]; [constructor |]. simpl.
  destruct (sameCase_facts 0 c c' ltac:(lia) Hc) as (<- & _).
  inversion IH as [| ? ? ? ? Hx Hrest Heq1 Heq2]; subst.
  - destruct (isWhiteSpace c); [constructor | by repeat constructor].
  - constructor; [done |]. by constructor.
Qed.

Lemma sameLetters_digits b s s' ds :
  b ≤ 36 → sameLetters s s' →
  Forall2 (isDigitOf b) (list_ascii_of_string s) ds →
  Forall2 (isDigitOf b) (list_ascii_of_string s') ds.
Proof.
  intros Hb H. revert ds. induction H as [|c c' s s' Hc Hs IH]; intros ds Hds; [done |].
  cbn [list_ascii_of_string] in *. inversion Hds as [|? d ? ds' Hd Hrest]; subst.
  constructor; [| by apply IH].
  by apply (sameCase_facts b c c' Hb Hc).
Qed.

Lemma sameLetters_sym s s' : sameLetters s s' → sameLetters s' s.
Proof. induction 1; by constructor. Qed.

Lemma decoder_case_one_way s s' b v :
  sameLetters s s' →
  parseBigIntFromBase s b = Ok v → parseBigIntFromBase s' b = Ok v.
Proof.
  intros Hsame (Hb & body & ds & Hds & H)%parse_Ok_iff.
  apply parse_Ok_iff. split; [done |].
  pose proof (sameLetters_trimEnd _ _ (sameLetters_trimStart _ _ Hsame)) as Htrim.
  fold (trim s) in Htrim. fold (trim s') in Htrim.
  destruct H as [[Ht ->] | [Ht ->]]; rewrite Ht in Htrim.
  - exists (trim s'), ds. split; [eapply sameLetters_digits; (done || lia) | by left].
  - inversion Htrim as [| ? c' ? body' Hc Hrest Heq1 Heq2]; subst.
    assert (c' = "-"%char) as -> by by apply (sameCase_facts 0 "-" c' ltac:(lia) Hc).
    exists body', ds. split; [eapply sameLetters_digits; (done || lia) | by right].
Qed.

(** The decoder is case-insensitive: two inputs that differ only in the case
    of their letters decode to the same value, if to any. *)
Theorem decoder_case_insensitive s s' b v :
  sameLetters s s' →
  parseBigIntFromBase s b = Ok v ↔ parseBigIntFromBase s' b = Ok v.
Proof.
  intros H. split; apply decoder_case_one_way; [done | by apply sameLetters_sym].
Qed.

Lemma decoder_case_insensitive_witness :
  parseBigIntFromBase "-DeadBeef" 16 = Ok (-3735928559)
  ↔ parseBigIntFromBase "-dEADbeeF" 16 = Ok (-3735928559).
Proof. apply decoder_case_insensitive. repeat constructor. Defined.

End DecoderMore.

(** ** Fractions *)

Section FractionMore.

(** The recursion of [gcd] ends on every pair of integers, whatever their
    signs, with the greatest common divisor up to sign; on the non-negative
    arguments [simplify] passes, with the greatest common divisor itself. *)
Theorem gcd_spec a b :
  Z.abs (gcd a b) = Z.gcd a b ∧ (0 ≤ a → 0 ≤ b → gcd a b = Z.gcd a b).
Proof.
  split; [| apply gcd_correct].
  remember (Z.abs b) as k eqn:Hk.
  assert (0 ≤ k) as Hk0 by lia. revert a b Hk.
  pattern k. apply Zlt_0_ind; [clear k Hk0 | done].
  intros k IH _ a b ->. rewrite gcd_unfold.
  destruct (Z.eqb_spec b 0) as [-> | Hb0].
  - by rewrite Z.gcd_0_r.
  - pose proof (Z.rem_bound_abs a b Hb0).
    rewrite (IH (Z.abs (Z.rem a b))) by (lia || done).
    rewrite Z.rem_eq by done.
    replace (a - b * (a ÷ b)) with (a + - (a ÷ b) * b) by ring.
    rewrite Z.gcd_add_mult_diag_r. apply Z.gcd_comm.
Qed.

Lemma gcd_spec_witness : gcd 84 36 = Z.gcd 84 36 ∧ Z.abs (gcd (-84) 36) = 12.
Proof.
  split.
  - apply (gcd_spec 84 36); lia.
  - exact (proj1 (gcd_spec (-84) 36)).
Defined.

(** [simplify] raises an exception on the pair [(0, 0)] only, and it is the
    division by zero. *)
Theorem simplify_fails_iff f e :
  simplify f = Err e ↔ e = DivisionByZero ∧ num f = 0 ∧ den f = 0.
Proof.
  destruct f as [n d]. cbn [num den]. split.
  - intros H. destruct (Z.eq_dec d 0) as [-> | Hd].
    + rewrite simplify_zero_den in H.
      destruct (Z.eqb_spec n 0) as [-> |]; [| done]. by injection H as <-.
    + destruct (simplify_spec (Frac n d) Hd) as (r & Hr & _). congruence.
  - intros (-> & -> & ->). reflexivity.
Qed.

(** Two canonical fractions equal after cross-multiplication are the same
    pair. *)
Lemma canonical_cross_unique f g :
  canonical f → canonical g → num f * den g = num g * den f → f = g.
Proof.
  destruct f as [nf df], g as [ng dg]. unfold canonical. cbn [num den].
  rewrite !Z.gcd_abs_l, !Z.gcd_abs_r. intros [Hf Hdf] [Hg Hdg] Hcross.
  assert ((df | dg)) as H1.
  { apply (Z.gauss df nf dg); [| by rewrite Z.gcd_comm].
    exists ng. lia. }
  assert ((dg | df)) as H2.
  { apply (Z.gauss dg ng df); [| by rewrite Z.gcd_comm].
    exists nf. lia. }
  assert (df = dg) as -> by (apply Z.divide_antisym_nonneg; (lia || done)).
  f_equal. nia.
Qed.

Lemma Qv_cross_inv f g :
  0 < den f → 0 < den g → Qv f = Qv g → num f * den g = num g * den f.
Proof.
  intros Hf Hg H. rewrite !Qv_ratio in H by done.
  apply ZtoQc_inj. rewrite !ZtoQc_mul.
  assert (ZtoQc (den f) ≠ 0%Qc) by (apply ZtoQc_nonzero; lia).
  assert (ZtoQc (den g) ≠ 0%Qc) by (apply ZtoQc_nonzero; lia).
  transitivity ((ZtoQc (num f) / ZtoQc (den f)) * (ZtoQc (den f) * ZtoQc (den g)))%Qc;
    [field; done |].
  rewrite H. field. done.
Qed.

(** A rational has one canonical fraction. *)
Lemma canonical_unique f g :
  canonical f → canonical g → Qv f = Qv g → f = g.
Proof.
  intros Hf Hg H. apply canonical_cross_unique; [done.. |].
  apply Qv_cross_inv; [apply Hf | apply Hg | done].
Qed.

(** [simplify] leaves a canonical fraction as it is; hence simplifying
    twice is simplifying once. *)
Theorem simplify_idempotent f :
  den f ≠ 0 →
  ∃ r, simplify f = Ok r ∧ simplify r = Ok r ∧ (canonical f → r = f).
Proof.
  intros Hden. destruct (simplify_spec f Hden) as (r & Hr & Hcan & Hcross).
  exists r. split; [done |].
  assert (∀ g, canonical g → simplify g = Ok g) as Hfix.
  { intros g Hg. destruct (simplify_spec g) as (r' & Hr' & Hcan' & Hcross');
      [destruct Hg; lia |].
    rewrite Hr'. f_equal. by apply canonical_cross_unique. }
  split; [by apply Hfix |].
  intros Hf. by apply canonical_cross_unique.
Qed.

Lemma simplify_idempotent_witness :
  ∃ r, simplify (Frac 10 (-4)) = Ok r ∧ simplify r = Ok r
       ∧ (canonical (Frac 10 (-4)) → r = Frac 10 (-4)).
Proof. apply simplify_idempotent. simpl. lia. Defined.

Lemma add_Qv a b :
  0 < den a → 0 < den b →
  ∃ c, add a b = Ok c ∧ canonical c ∧ Qv c = (Qv a + Qv b)%Qc.
Proof.
  intros Ha Hb. unfold add.
  destruct (simplify_spec {| num := num a * den b + num b * den a; den := den a * den b |})
    as (c & Hc & Hcan & Hcross); cbn [num den] in *; [nia |].
  exists c. split_and!; [done.. |].
  rewrite (Qv_cross c _ (den a * den b) (proj2 Hcan) ltac:(nia) Hcross), !Qv_ratio by done.
  rewrite ZtoQc_add, !ZtoQc_mul.
  field. split; apply ZtoQc_nonzero; lia.
Qed.

(** On fractions with positive denominators the four operations compute
    the sum, difference, product and quotient of the rationals, the quotient
    when the divisor is not zero. *)
Theorem arithmetic_values a b :
  0 < den a → 0 < den b →
  (∃ r, add a b = Ok r ∧ Qv r = (Qv a + Qv b)%Qc)
  ∧ (∃ r, subtract a b = Ok r ∧ Qv r = (Qv a - Qv b)%Qc)
  ∧ (∃ r, multiply a b = Ok r ∧ Qv r = (Qv a * Qv b)%Qc)
  ∧ (num b ≠ 0 → ∃ r, divide a b = Ok r ∧ Qv r = (Qv a / Qv b)%Qc).
Proof.
  intros Ha Hb. split_and!.
  - destruct (add_Qv a b Ha Hb) as (r & ? & _ & ?). eauto.
  - destruct (subtract_Qv a b Ha Hb) as (r & ? & _ & ?). eauto.
  - destruct (multiply_Qv a b Ha Hb) as (r & ? & _ & ?). eauto.
  - intros Hnum. destruct (divide_Qv a b Ha Hb Hnum) as (r & ? & _ & ?). eauto.
Qed.

Lemma arithmetic_values_witness :
  (∃ r, add (Frac 1 2) (Frac 1 3) = Ok r ∧ Qv r = (Qv (Frac 1 2) + Qv (Frac 1 3))%Qc)
  ∧ (∃ r, divide (Frac 1 2) (Frac 1 3) = Ok r
          ∧ Qv r = (Qv (Frac 1 2) / Qv (Frac 1 3))%Qc).
Proof.
  destruct (arithmetic_values (Frac 1 2) (Frac 1 3)) as (H1 & _ & _ & H4);
    [simpl; lia | simpl; lia |].
  split; [exact H1 |]. apply H4. simpl. lia.
Defined.

(** The operations compose as the rational operations do, and since every
    result is canonical the compositions agree as pairs: addition and
    multiplication are commutative and associative, subtracting what was
    added and dividing by what was multiplied give back the canonical form of
    the first operand. *)
Theorem arithmetic_laws a b c :
  0 < den a → 0 < den b → 0 < den c →
  add a b = add b a
  ∧ multiply a b = multiply b a
  ∧ (add a b ≫= λ ab, add ab c) = (add b c ≫= λ bc, add a bc)
  ∧ (multiply a b ≫= λ ab, multiply ab c) = (multiply b c ≫= λ bc, multiply a bc)
  ∧ (add a b ≫= λ ab, subtract ab b) = simplify a
  ∧ (num b ≠ 0 → (multiply a b ≫= λ ab, divide ab b) = simplify a).
Proof.
  intros Ha Hb Hc.
  destruct (add_Qv a b Ha Hb) as (ab & Hab & Cab & Vab).
  destruct (add_Qv b c Hb Hc) as (bc & Hbc & Cbc & Vbc).
  destruct (multiply_Qv a b Ha Hb) as (mab & Hmab & Cmab & Vmab).
  destruct (multiply_Qv b c Hb Hc) as (mbc & Hmbc & Cmbc & Vmbc).
  destruct (simplify_Qv a Ha) as (sa & Hsa & Csa & Vsa).
  split_and!.
  - unfold add. do 2 f_equal; ring.
  - unfold multiply. do 2 f_equal; ring.
  - rewrite Hab, Hbc. cbn.
    destruct (add_Qv ab c (proj2 Cab) Hc) as (l & -> & Cl & Vl).
    destruct (add_Qv a bc Ha (proj2 Cbc)) as (r & -> & Cr & Vr).
    f_equal. apply canonical_unique; [done.. |]. rewrite Vl, Vr, Vab, Vbc. ring.
  - rewrite Hmab, Hmbc. cbn.
    destruct (multiply_Qv mab c (proj2 Cmab) Hc) as (l & -> & Cl & Vl).
    destruct (multiply_Qv a mbc Ha (proj2 Cmbc)) as (r & -> & Cr & Vr).
    f_equal. apply canonical_unique; [done.. |]. rewrite Vl, Vr, Vmab, Vmbc. ring.
  - rewrite Hab, Hsa. cbn.
    destruct (subtract_Qv ab b (proj2 Cab) Hb) as (l & -> & Cl & Vl).
    f_equal. apply canonical_unique; [done.. |]. rewrite Vl, Vsa, Vab. ring.
  - intros Hnum. rewrite Hmab, Hsa. cbn.
    destruct (divide_Qv mab b (proj2 Cmab) Hb Hnum) as (l & -> & Cl & Vl).
    f_equal. apply canonical_unique; [done.. |]. rewrite Vl, Vsa, Vmab.
    field. by rewrite Qv_zero.
Qed.

Lemma arithmetic_laws_witness :
  (add (Frac 1 2) (Frac (-2) 3) ≫= λ ab, subtract ab (Frac (-2) 3))
  = simplify (Frac 1 2)
  ∧ (multiply (Frac 1 2) (Frac (-2) 3) ≫= λ ab, divide ab (Frac (-2) 3))
    = simplify (Frac 1 2).
Proof.
  destruct (arithmetic_laws (Frac 1 2) (Frac (-2) 3) (Frac 5 7))
    as (_ & _ & _ & _ & H5 & H6); [simpl; lia.. |].
  split; [exact H5 |]. apply H6. simpl. lia.
Defined.

End FractionMore.

(** ** The solver *)

Section SolverMore.

Local Open Scope nat_scope.

(** A successful step keeps the vectors orthogonal to the rows: the
    converse of the inclusion in [pivotStep_ok]. *)
Lemma pivotStep_forward n m col st :
  rowsOk n m (mat_of st) → col < n → col < m → reduced n col (mat_of st) →
  (∃ r, col ≤ r < n ∧ nonZeroAt (mat_of st) col r) →
  ∃ st', pivotStep n m col st = Ok st'
    ∧ (∀ w, inKernel n m (mat_of st) w → inKernel n m (mat_of st') w).
Proof.
  intros Hok Hcol Hm Hred (r0 & Hr0 & Hnz0). unfold pivotStep.
  set (mat := mat_of st) in *.
  destruct (findPivot_total n m mat col col (n - col) Hok Hm ltac:(lia)) as [p Hp].
  rewrite Hp. cbn.
  destruct (findPivot_spec _ _ _ _ _ Hp) as [[_ Hnone] | (Hrange & (pv & Hpv & Hnum) & _)].
  { exfalso. apply (Hnone r0); [lia | done]. }
  set (σ := λ r, if decide (r = col) then p else if decide (r = p) then col else r).
  assert (∃ mat1 swaps, (if negb (p =? col)
            then (swapRows mat col p, swaps_of st ++ [(col, p)])
            else (mat, swaps_of st)) = (mat1, swaps)
          ∧ rowsOk n m mat1 ∧ ∀ r c, at_ mat1 r c = at_ mat (σ r) c)
    as (mat1 & swaps & -> & Hok1 & Hat1).
  { destruct (Nat.eqb_spec p col) as [-> | Hne]; cbn.
    - eexists _, _. split_and!; [done | done |]. intros r c. unfold σ.
      destruct (decide (r = col)) as [-> |]; done.
    - eexists _, _. split_and!; [done | by apply rowsOk_swapRows |].
      intros r c. apply at_swapRows; destruct Hok as [-> _]; lia. }
  assert (at_ mat1 col col = Some pv) as Hpv1.
  { rewrite Hat1. unfold σ. by rewrite decide_True. }
  assert (0 < den pv)%Z as Hden.
  { destruct (rowsOk_at n m mat1 col col Hok1 Hcol Hm) as (f & Hf & Hd). congruence. }
  assert (reduced n col mat1) as Hred1.
  { intros r c Hr Hc. unfold gentry. rewrite Hat1. fold (gentry mat (σ r) c).
    assert (σ r < n) by (unfold σ; repeat case_decide; lia).
    rewrite Hred by done. unfold σ. repeat case_decide; done || lia. }
  rewrite (cell_at _ _ _ _ Hpv1). cbn.
  destruct (normalize_spec n m mat1 col pv) as (mat2 & -> & Hok2 & Hat2 & Hrow2);
    [done | done | lia | done | done |]. cbn.
  destruct (eliminate_spec n m mat2 col) as (mat3 & -> & Hok3 & Hat3 & Hrow3);
    [done | done | done |]. cbn.
  eexists. split; [reflexivity |]. cbn [mat_of].
  assert (Qv pv ≠ 0%Qc) as Hpv0 by (by rewrite Qv_zero).
  assert (gentry mat1 col col = Qv pv) as Hg1 by by apply gentry_at.
  assert (∀ c, c < m → gentry mat2 col c = (gentry mat1 col c / Qv pv)%Qc) as Hpivrow.
  { intros c Hc. destruct (decide (col ≤ c)); [apply Hrow2; lia |].
    unfold gentry at 1. rewrite Hat2 by lia. fold (gentry mat1 col c).
    rewrite Hred1 by lia. rewrite decide_False by lia. field. done. }
  assert (∀ r c, r ≠ col → gentry mat2 r c = gentry mat1 r c) as Hother2.
  { intros r c Hr. unfold gentry. by rewrite Hat2 by lia. }
  assert (∀ c, gentry mat3 col c = gentry mat2 col c) as Hpiv3.
  { intros c. unfold gentry. by rewrite Hat3 by lia. }
  assert (∀ r c, r < n → r ≠ col → c < m →
    gentry mat3 r c = (gentry mat2 r c - gentry mat2 r col * gentry mat2 col c)%Qc)
    as Hother3.
  { intros r c Hr Hne Hc. destruct (decide (col ≤ c)); [apply Hrow3; lia |].
    unfold gentry at 1. rewrite Hat3 by lia. fold (gentry mat2 r c).
    rewrite (Hpivrow c) by lia. rewrite (Hred1 col c) by lia.
    rewrite decide_False by lia. field. done. }
  intros w Hker r Hr.
  assert (∀ r', r' < n → sumQc m (λ c, gentry mat1 r' c * w c)%Qc = 0%Qc) as HD1.
  { intros r' Hr'.
    assert (σ r' < n) by (unfold σ; repeat case_decide; lia).
    rewrite <- (Hker (σ r')) by done. apply sumQc_ext. intros c Hc.
    unfold gentry. by rewrite Hat1. }
  assert (sumQc m (λ c, gentry mat2 col c * w c)%Qc = 0%Qc) as HD2col.
  { transitivity (/ Qv pv * sumQc m (λ c, gentry mat1 col c * w c))%Qc.
    - rewrite <- sumQc_scale. apply sumQc_ext. intros c Hc.
      rewrite Hpivrow by done. field. done.
    - rewrite HD1 by done. ring. }
  destruct (decide (r = col)) as [-> | Hne].
  - rewrite <- HD2col. apply sumQc_ext. intros c Hc. by rewrite Hpiv3.
  - transitivity (sumQc m (λ c, gentry mat1 r c * w c)
                  + (- gentry mat2 r col) * sumQc m (λ c, gentry mat2 col c * w c))%Qc.
    + rewrite <- sumQc_scale, <- sumQc_plus. apply sumQc_ext. intros c Hc.
      rewrite Hother3, !Hother2 by done. ring.
    + rewrite HD2col, HD1 by done. ring.
Qed.

Lemma gaussJordan_forward n matrix k st :
  0 < n → wellShaped n matrix → k ≤ n →
  gaussJordan matrix k = Ok st →
  ∀ w, inKernel n (S n) (toFractions matrix) w → inKernel n (S n) (mat_of st) w.
Proof.
  intros Hn Hshape. revert st. induction k as [|k IH]; intros st Hk Hst.
  - rewrite (gaussJordan_unfold n) in Hst by done. by injection Hst as <-.
  - pose proof Hst as Hst'. rewrite (gaussJordan_unfold n) in Hst' by done.
    rewrite for_loop_snoc in Hst'. rewrite <- (gaussJordan_unfold n) in Hst' by done.
    destruct (gaussJordan matrix k) as [stk | e] eqn:Hstk; [| done]. cbn in Hst'.
    destruct (gaussJordan_inv n matrix k stk) as (Hok & Hred & _); [done.. | lia | done |].
    destruct (pivot_dichotomy n (S n) (mat_of stk) k Hok) as [Hpiv | Hzero]; [lia.. | |].
    + destruct (pivotStep_forward n (S n) k stk Hok) as (st2 & Hst2 & Hfwd);
        [lia | lia | done | done |].
      assert (st2 = st) as -> by congruence.
      intros w Hw. apply Hfwd, (IH stk); [lia | done | done].
    + rewrite pivotStep_fail in Hst' by (done || lia). done.
Qed.

(** The elimination either completes or stops at a column without pivot,
    with the division-by-zero error; in the second case the coefficient
    block is singular. *)
Lemma gaussJordan_outcome n matrix k :
  0 < n → wellShaped n matrix → k ≤ n →
  (∃ st, gaussJordan matrix k = Ok st)
  ∨ (gaussJordan matrix k = Err DivisionByZero ∧ ¬ nonSingular n matrix).
Proof.
  intros Hn Hshape. induction k as [|k IH]; intros Hk.
  - left. rewrite (gaussJordan_unfold n) by done. eauto.
  - rewrite (gaussJordan_unfold n), for_loop_snoc, <- (gaussJordan_unfold n) by done.
    destruct IH as [[stk Hstk] | [Herr Hsing]]; [lia | | right; by rewrite Herr].
    rewrite Hstk. cbn.
    destruct (gaussJordan_inv n matrix k stk) as (Hok & Hred & Hker); [done.. | lia | done |].
    destruct (pivot_dichotomy n (S n) (mat_of stk) k Hok) as [Hpiv | Hzero]; [lia.. | |].
    + left. destruct (pivotStep_ok n (S n) k stk Hok) as (st' & Hst' & _);
        [lia | lia | done | done |]. eauto.
    + right. split; [apply pivotStep_fail; (done || lia) |].
      apply (no_pivot_singular n matrix (mat_of stk) k); [done.. | lia | done | done |].
      by apply (zero_column_no_pivot _ _ (λ r, k ≤ r < n)).
Qed.

Lemma solve_Ok_gaussJordan n matrix sol :
  wellShaped n matrix → solveLinearEquations matrix = Ok sol →
  0 < n ∧ ∃ st, gaussJordan matrix n = Ok st.
Proof.
  intros Hshape Hsol. unfold solveLinearEquations in Hsol.
  destruct matrix as [|row0 rest] eqn:Hm; [done |]. rewrite <- Hm in *.
  assert (0 < n) by (destruct Hshape as [<- _]; rewrite Hm; simpl; lia).
  split; [done |]. destruct Hshape as [Hlen _]. rewrite Hlen in Hsol.
  destruct (matrix !! 0); [| done]. cbn in Hsol.
  destruct (gaussJordan matrix n) as [st |]; [eauto | done].
Qed.

(** When the elimination has completed, the coefficient block is
    non-singular and the last column is the only solution. *)
Lemma reduced_unique n matrix st :
  0 < n → wellShaped n matrix → gaussJordan matrix n = Ok st →
  nonSingular n matrix
  ∧ ∀ x, length x = n → Forall (λ row, satisfies n row x) matrix →
      ∀ j, j < n → entry x j = gentry (mat_of st) j n.
Proof.
  intros Hn Hshape Hst.
  destruct (gaussJordan_inv n matrix n st) as (Hok & Hred & _); [done.. |].
  pose proof (gaussJordan_forward n matrix n st Hn Hshape ltac:(lia) Hst) as Hfwd.
  assert (∀ (x : list Qc) (t : Qc),
    Forall (λ row, sumQc n (λ j, coeff row j * entry x j)%Qc = (t * coeff row n)%Qc) matrix →
    ∀ j, j < n → entry x j = (t * gentry (mat_of st) j n)%Qc) as Hgen.
  { intros x t Hx j Hj.
    set (w := λ c : nat, if decide (c < n) then entry x c else (- t)%Qc).
    assert (inKernel n (S n) (toFractions matrix) w) as Hw.
    { intros r Hr.
      destruct (lookup_lt_is_Some_2 matrix r) as [row Hrow];
        [destruct Hshape as [-> _]; lia |].
      pose proof (Forall_lookup_1 _ _ _ _ Hx Hrow) as Hsat. cbn in Hsat.
      cbn [sumQc]. rewrite (gentry_toFractions _ _ _ _ Hrow).
      assert (w n = (- t)%Qc) as -> by (unfold w; by rewrite decide_False by lia).
      transitivity (sumQc n (λ j, coeff row j * entry x j) + coeff row n * - t)%Qc.
      - f_equal. apply sumQc_ext. intros c Hc. unfold w. rewrite decide_True by done.
        by rewrite (gentry_toFractions _ _ _ _ Hrow).
      - rewrite Hsat. ring. }
    apply Hfwd in Hw. specialize (Hw j Hj). cbn [sumQc] in Hw.
    assert (sumQc n (λ c, gentry (mat_of st) j c * w c)%Qc = entry x j) as Hsum.
    { transitivity (sumQc n (λ c, (if decide (j = c) then Q2Qc 1 else Q2Qc 0) * w c))%Qc.
      - apply sumQc_ext. intros c Hc. by rewrite Hred.
      - rewrite sumQc_delta by done. unfold w. by rewrite decide_True. }
    rewrite Hsum in Hw. unfold w in Hw. rewrite decide_False in Hw by lia.
    apply (f_equal (λ q, q + t * gentry (mat_of st) j n)%Qc) in Hw.
    ring_simplify in Hw. rewrite Hw. ring. }
  split.
  - intros x Hlen Hx. apply Forall_lookup_2. intros j q Hq.
    assert (j < n) as Hj by (rewrite <- Hlen; by eapply lookup_lt_Some).
    assert (entry x j = q) as <- by (unfold entry; by rewrite Hq).
    rewrite (Hgen x 0%Qc); [ring | | done].
    eapply Forall_impl; [| exact Hx]. intros row Hrow. cbn in *. rewrite Hrow. ring.
  - intros x Hlen Hx j Hj. rewrite (Hgen x 1%Qc); [ring | | done].
    eapply Forall_impl; [| exact Hx]. intros row Hrow. unfold satisfies in Hrow.
    cbn. rewrite Hrow. ring.
Qed.

Lemma entries_eq (x y : list Qc) n :
  length x = n → length y = n → (∀ j, j < n → entry x j = entry y j) → x = y.
Proof.
  intros Hx Hy H. apply list_eq. intros j.
  destruct (decide (j < n)) as [Hj | Hj].
  - specialize (H j Hj). unfold entry in H.
    destruct (lookup_lt_is_Some_2 x j) as [a Ha]; [lia |].
    destruct (lookup_lt_is_Some_2 y j) as [b Hb]; [lia |].
    rewrite Ha, Hb in *. cbn in H. by rewrite H.
  - rewrite !(proj2 (lookup_ge_None _ _)) by lia. done.
Qed.

Lemma cons_eq_inv {A : Type} (a b : A) (l k : list A) :
  a :: l = b :: k → a = b ∧ l = k.
Proof. by intros [= -> ->]. Qed.

Lemma canonical_list_unique (l l' : list frac) :
  Forall canonical l → Forall canonical l' → Qv <$> l = Qv <$> l' → l = l'.
Proof.
  intros Hl. revert l'. induction Hl as [|f l Hf _ IH]; intros l' Hl' Heq.
  - by destruct l'.
  - destruct l' as [|f' l']; [done |]. apply cons_eq_inv in Heq as [Hq Hrest].
    inversion Hl'; subst. f_equal; [by apply canonical_unique | by apply IH].
Qed.

Lemma solve_Ok_spec (n : nat) (matrix : list (list Z)) sol :
  wellShaped n matrix → solveLinearEquations matrix = Ok sol →
  length sol = n ∧ Forall canonical sol
  ∧ Forall (λ row, satisfies n row (Qv <$> sol)) matrix
  ∧ nonSingular n matrix
  ∧ ∀ x, length x = n → Forall (λ row, satisfies n row x) matrix → x = Qv <$> sol.
Proof.
  intros Hshape Hsol.
  destruct (solve_Ok_gaussJordan n matrix sol Hshape Hsol) as (Hn & st & Hst).
  destruct (solution_spec n matrix st Hn Hshape Hst) as (sol' & Hsol' & Hlen & Hcan & Hsat).
  assert (sol' = sol) as -> by congruence.
  destruct (reduced_unique n matrix st Hn Hshape Hst) as [Hns Huniq].
  split_and!; [done.. |].
  intros x Hx Hxsat. apply (entries_eq _ _ n); [done | by rewrite length_fmap |].
  intros j Hj. rewrite (Huniq x Hx Hxsat j Hj).
  symmetry. apply Huniq; [by rewrite length_fmap | done..].
Qed.

(** Whenever [solveLinearEquations] returns, on an [n × (n+1)] matrix of
    integers, the [n] canonical fractions it returns solve every equation
    exactly, the coefficient block is non-singular, and no other vector of
    rationals solves the system. *)
Theorem solve_sound_unique (n : nat) (matrix : list (list Z)) sol :
  wellShaped n matrix → solveLinearEquations matrix = Ok sol →
  length sol = n ∧ Forall canonical sol
  ∧ Forall (λ row, satisfies n row (Qv <$> sol)) matrix
  ∧ nonSingular n matrix
  ∧ ∀ x, length x = n → Forall (λ row, satisfies n row x) matrix → x = Qv <$> sol.
Proof. exact (solve_Ok_spec n matrix sol). Qed.

Lemma solve_sound_unique_witness :
  length [Frac 1 3; Frac 2 1] = 2
  ∧ Forall canonical [Frac 1 3; Frac 2 1]
  ∧ Forall (λ row, satisfies 2 row (Qv <$> [Frac 1 3; Frac 2 1])) [[0; 2; 4]; [3; 0; 1]]%Z
  ∧ nonSingular 2 [[0; 2; 4]; [3; 0; 1]]%Z
  ∧ ∀ x, length x = 2 → Forall (λ row, satisfies 2 row x) [[0; 2; 4]; [3; 0; 1]]%Z
         → x = Qv <$> [Frac 1 3; Frac 2 1].
Proof.
  apply (solve_sound_unique 2 [[0; 2; 4]; [3; 0; 1]]%Z).
  - split; [reflexivity | repeat constructor].
  - reflexivity.
Defined.

Lemma solve_cases (n : nat) (matrix : list (list Z)) :
  0 < n → wellShaped n matrix →
  (nonSingular n matrix ∧ ∃ sol, solveLinearEquations matrix = Ok sol)
  ∨ (¬ nonSingular n matrix ∧ solveLinearEquations matrix = Err DivisionByZero).
Proof.
  intros Hn Hshape.
  destruct (gaussJordan_outcome n matrix n Hn Hshape) as [[st Hst] | [Herr Hsing]]; [done | |].
  - left. destruct (reduced_unique n matrix st Hn Hshape Hst) as [Hns _].
    destruct (solution_spec n matrix st Hn Hshape Hst) as (sol & Hsol & _). eauto.
  - right. split; [done |]. unfold solveLinearEquations.
    destruct Hshape as [Hlen _]. rewrite Hlen, Herr.
    destruct (matrix !! 0) eqn:H0; [done |].
    apply lookup_ge_None in H0. lia.
Qed.

(** On an [n × (n+1)] matrix of integers, [n ≥ 1], the solver has two
    outcomes only: it returns when the coefficient block is non-singular,
    and raises the division-by-zero error when it is singular. *)
Theorem solve_outcome (n : nat) (matrix : list (list Z)) :
  0 < n → wellShaped n matrix →
  (nonSingular n matrix ∧ ∃ sol, solveLinearEquations matrix = Ok sol)
  ∨ (¬ nonSingular n matrix ∧ solveLinearEquations matrix = Err DivisionByZero).
Proof. exact (solve_cases n matrix). Qed.

Lemma solve_outcome_witness :
  (nonSingular 2 [[1; 2; 3]; [2; 4; 7]]%Z
   ∧ ∃ sol, solveLinearEquations [[1; 2; 3]; [2; 4; 7]]%Z = Ok sol)
  ∨ (¬ nonSingular 2 [[1; 2; 3]; [2; 4; 7]]%Z
     ∧ solveLinearEquations [[1; 2; 3]; [2; 4; 7]]%Z = Err DivisionByZero).
Proof.
  apply (solve_outcome 2 [[1; 2; 3]; [2; 4; 7]]%Z).
  - lia.
  - split; [reflexivity | repeat constructor].
Defined.

Lemma wellShaped_Permutation n matrix matrix' :
  matrix ≡ₚ matrix' → wellShaped n matrix → wellShaped n matrix'.
Proof. intros Hp [Hlen Hrows]. split; by rewrite <- Hp. Qed.

Lemma nonSingular_Permutation n matrix matrix' :
  matrix ≡ₚ matrix' → nonSingular n matrix → nonSingular n matrix'.
Proof.
  intros Hp Hns x Hlen Hx. apply Hns; [done |]. by rewrite Hp.
Qed.

(** The order of the equations does not matter: permuting the rows of an
    [n × (n+1)] matrix of integers changes neither the solution returned nor
    the failure. *)
Theorem solve_permutation (n : nat) (matrix matrix' : list (list Z)) :
  wellShaped n matrix → matrix ≡ₚ matrix' →
  solveLinearEquations matrix' = solveLinearEquations matrix.
Proof.
  intros Hshape Hp. destruct (decide (n = 0)) as [-> | Hn].
  - destruct Hshape as [Hlen _]. destruct matrix; [| done].
    by apply Permutation_nil_l in Hp as ->.
  - pose proof (wellShaped_Permutation n _ _ Hp Hshape) as Hshape'.
    destruct (solve_cases n matrix ltac:(lia) Hshape) as [[Hns [sol Hsol]] | [Hs Herr]],
      (solve_cases n matrix' ltac:(lia) Hshape') as [[Hns' [sol' Hsol']] | [Hs' Herr']].
    + rewrite Hsol, Hsol'. f_equal.
      destruct (solve_Ok_spec n matrix sol Hshape Hsol) as (Hl & Hc & _ & _ & Hu).
      destruct (solve_Ok_spec n matrix' sol' Hshape' Hsol') as (Hl' & Hc' & Hsat' & _).
      apply canonical_list_unique; [done.. |].
      apply Hu; [by rewrite length_fmap | by rewrite Hp].
    + exfalso. by apply Hs', (nonSingular_Permutation n matrix).
    + exfalso. by apply Hs, (nonSingular_Permutation n matrix').
    + by rewrite Herr, Herr'.
Qed.

Lemma solve_permutation_witness :
  solveLinearEquations [[3; 0; 1]; [0; 2; 4]]%Z = solveLinearEquations [[0; 2; 4]; [3; 0; 1]]%Z.
Proof.
  apply (solve_permutation 2).
  - split; [reflexivity | repeat constructor].
  - apply Permutation_swap.
Defined.

Lemma canonical_makeFraction z : canonical (makeFraction z).
Proof. split; cbn; [apply Z.gcd_1_r | lia]. Qed.

(** A non-singular system that an integer vector solves: the solver returns
    exactly these integers, each over the denominator 1. *)
Theorem solve_integer_solution (n : nat) (matrix : list (list Z)) (zs : list Z) :
  0 < n → wellShaped n matrix → nonSingular n matrix → length zs = n →
  Forall (λ row, satisfies n row (ZtoQc <$> zs)) matrix →
  solveLinearEquations matrix = Ok (makeFraction <$> zs).
Proof.
  intros Hn Hshape Hns Hlen Hsat.
  destruct (solve_cases n matrix Hn Hshape) as [[_ [sol Hsol]] | [Hs _]]; [| done].
  rewrite Hsol. f_equal.
  destruct (solve_Ok_spec n matrix sol Hshape Hsol) as (Hl & Hc & _ & _ & Hu).
  apply canonical_list_unique; [done | |].
  - apply Forall_fmap, Forall_true. intros z. apply canonical_makeFraction.
  - rewrite <- (Hu (ZtoQc <$> zs)); [| by rewrite length_fmap | done].
    rewrite <- list_fmap_compose. apply list_fmap_ext. intros i z _. cbn.
    by rewrite Qv_makeFraction.
Qed.

Lemma solve_integer_solution_witness :
  solveLinearEquations [[1; 1; 1; 6]; [4; 2; 1; 15]; [9; 3; 1; 28]]%Z
  = Ok (makeFraction <$> [2; 3; 1]%Z).
Proof.
  assert (wellShaped 3 [[1; 1; 1; 6]; [4; 2; 1; 15]; [9; 3; 1; 28]]%Z) as Hshape
    by (split; [reflexivity | repeat constructor]).
  apply (solve_integer_solution 3 _ [2; 3; 1]%Z).
  - lia.
  - exact Hshape.
  - apply (solve_Ok_spec 3 _ [Frac 2 1; Frac 3 1; Frac 1 1] Hshape).
    vm_compute. reflexivity.
  - reflexivity.
  - repeat constructor; vm_compute; apply Qc_is_canon; reflexivity.
Defined.

(** Without a first row, or with an empty first row, the solver raises a
    [TypeError]: on [matrix[0].length] for the empty matrix, on the [.num]
    of the missing entry [mat[0][0]] otherwise. *)
Theorem solve_degenerate :
  solveLinearEquations [] = Err TypeError
  ∧ ∀ rest, solveLinearEquations ([] :: rest) = Err TypeError.
Proof. split; [reflexivity |]. intros rest. reflexivity. Qed.

End SolverMore.

(** The run over a store of arrays returns a new array holding exactly what
    [solveLinearEquations] returns on the matrix the store holds, or raises
    the same exception. *)
Theorem store_run_refines σ matrix rows :
  holdsMatrix σ matrix rows →
  match (solveLinearEquationsS matrix σ).2 with
  | Ok l => ∃ sol, solveLinearEquations rows = Ok sol
                   ∧ (solveLinearEquationsS matrix σ).1 !! l = Some (FracArray sol)
  | Err e => solveLinearEquations rows = Err e
  end.
Proof. intros H. by destruct (solveS_refines σ matrix rows H). Qed.

Lemma store_run_refines_witness :
  let σ := [IntArray [1; 2; 3]; RefArray [0; 0]%nat] in
  match (solveLinearEquationsS 1%nat σ).2 with
  | Ok l => ∃ sol, solveLinearEquations [[1; 2; 3]; [1; 2; 3]] = Ok sol
                   ∧ (solveLinearEquationsS 1%nat σ).1 !! l = Some (FracArray sol)
  | Err e => solveLinearEquations [[1; 2; 3]; [1; 2; 3]] = Err e
  end.
Proof.
  apply (store_run_refines [IntArray [1; 2; 3]; RefArray [0; 0]%nat] 1%nat).
  exists [0; 0]%nat. split; [reflexivity |]. repeat constructor.
Defined.


(** ** The main program *)

Section PolynomialFacts.

Local Open Scope Qc_scope.

Lemma evalLow_quot a p X :
  evalLow p X = evalLow p a + (X - a) * evalLow (quotLow a p) X.
Proof.
  induction p as [|c p IH]; cbn [evalLow quotLow]; [ring |].
  destruct p as [|c' p']; [cbn; ring |].
  cbn [evalLow] in *. rewrite IH. ring.
Qed.

Lemma quotLow_length a p : length (quotLow a p) = (length p - 1)%nat.
Proof.
  induction p as [|c p IH]; [done |]. cbn [quotLow].
  destruct p as [|c' p']; [done |]. cbn [length] in *. rewrite IH. lia.
Qed.

Lemma quotLow_zero a p :
  evalLow p a = 0 → Forall (λ q, q = 0) (quotLow a p) → Forall (λ q, q = 0) p.
Proof.
  induction p as [|c p IH]; [constructor |]. cbn [quotLow evalLow].
  destruct p as [|c' p'].
  - cbn. intros H _. constructor; [| constructor]. rewrite <- H. ring.
  - intros Ha Hq. pose proof (Forall_inv Hq) as H0.
    pose proof (Forall_inv_tail Hq) as Hrest. cbv beta in H0.
    rewrite H0 in Ha. constructor; [| by apply IH].
    rewrite <- Ha. ring.
Qed.

(** A polynomial with as many distinct roots as coefficients is zero. *)
Lemma roots_zero (xs p : list Qc) :
  NoDup xs → length p = length xs → (∀ X, X ∈ xs → evalLow p X = 0) →
  Forall (λ q, q = 0) p.
Proof.
  intros Hnd. revert p. induction Hnd as [|a xs Ha Hnd IH]; intros p Hlen Hroots.
  - destruct p; [constructor | done].
  - assert (evalLow p a = 0) as Hpa by (apply Hroots; by left).
    apply (quotLow_zero a); [done |]. apply IH.
    + rewrite quotLow_length, Hlen. simpl. lia.
    + intros X HX. pose proof (Hroots X ltac:(by right)) as HpX.
      rewrite (evalLow_quot a), Hpa in HpX.
      assert (X - a ≠ 0) as Hne.
      { intros H0. apply Ha. replace a with X; [done |].
        transitivity ((X - a) + a); [ring | rewrite H0; ring]. }
      replace (0 + (X - a) * evalLow (quotLow a p) X)
        with ((X - a) * evalLow (quotLow a p) X) in HpX by ring.
      by destruct (Qcmult_integral _ _ HpX).
Qed.

Lemma polyEvalQ_snoc cs c X : polyEvalQ (cs ++ [c]) X = polyEvalQ cs X * X + c.
Proof. unfold polyEvalQ. by rewrite fold_left_app. Qed.

Lemma polyEvalQ_evalLow cs X : polyEvalQ cs X = evalLow (rev cs) X.
Proof.
  induction cs as [|c cs IH] using rev_ind; [done |].
  rewrite polyEvalQ_snoc, rev_unit, IH. cbn. ring.
Qed.

Lemma polyEval_ZtoQc cs x :
  ZtoQc (polyEval cs x) = polyEvalQ (ZtoQc <$> cs) (ZtoQc x).
Proof.
  unfold polyEval, polyEvalQ. change (Q2Qc 0) with (ZtoQc 0).
  generalize 0%Z. induction cs as [|c cs IH]; intros acc; [done |].
  cbn. rewrite IH. by rewrite ZtoQc_add, ZtoQc_mul.
Qed.

Lemma evalLow_mulLinear a carry p X :
  evalLow (mulLinear a carry p) X = carry + (X - a) * evalLow p X.
Proof.
  revert carry. induction p as [|c p IH]; intros carry; cbn [mulLinear evalLow].
  - ring.
  - rewrite IH. ring.
Qed.

Lemma mulLinear_monic a carry q :
  ∃ q', mulLinear a carry (q ++ [Q2Qc 1]) = q' ++ [Q2Qc 1] ∧ length q' = S (length q).
Proof.
  revert carry. induction q as [|c q IH]; intros carry; cbn [mulLinear app].
  - exists [carry - a * 1]. done.
  - destruct (IH c) as (q' & -> & Hlen).
    exists ((carry - a * c) :: q'). split; [done |]. cbn. by rewrite Hlen.
Qed.

Lemma prodRoots_monic ds :
  ∃ q, prodRoots ds = q ++ [Q2Qc 1] ∧ length q = length ds.
Proof.
  induction ds as [|d ds (q & Hq & Hlen)]; [by exists [] |].
  unfold prodRoots in *. cbn [fold_right]. rewrite Hq.
  destruct (mulLinear_monic d 0 q) as (q' & -> & Hlen').
  exists q'. split; [done |]. cbn. by rewrite Hlen', Hlen.
Qed.

Lemma prodRoots_root ds X : X ∈ ds → evalLow (prodRoots ds) X = 0.
Proof.
  induction ds as [|d ds IH]; [by intros ?%elem_of_nil |].
  unfold prodRoots in *. cbn [fold_right]. rewrite evalLow_mulLinear.
  intros [-> | Hin]%elem_of_cons; [ring |]. rewrite IH by done. ring.
Qed.

End PolynomialFacts.

Section MainFacts.

Import Main.

Lemma powers_length xv k : length (powers xv k) = k.
Proof. induction k as [|k IH]; cbn; [done | by rewrite IH]. Qed.

Lemma powers_lookup xv (k j : nat) :
  (j < k)%nat → powers xv k !! j = Some (xv ^ Z.of_nat (k - 1 - j)).
Proof.
  revert j. induction k as [|k IH]; intros j Hj; [lia |]. cbn [powers].
  destruct j as [|j]; cbn [lookup list_lookup].
  - do 3 f_equal. lia.
  - rewrite IH by lia. do 3 f_equal. lia.
Qed.

Lemma buildRow_length (k : nat) p : length (buildRow (Z.of_nat k - 1) p) = S k.
Proof.
  unfold buildRow. rewrite length_app, powers_length. cbn. lia.
Qed.

Lemma buildRow_coeff (k : nat) p (j : nat) :
  (j < k)%nat →
  coeff (buildRow (Z.of_nat k - 1) p) j = ZtoQc (x p ^ Z.of_nat (k - 1 - j)).
Proof.
  intros Hj. unfold coeff, buildRow.
  replace (Z.to_nat (Z.of_nat k - 1 + 1)) with k by lia.
  rewrite lookup_app_l by (by rewrite powers_length).
  by rewrite powers_lookup.
Qed.

Lemma buildRow_rhs (k : nat) p : coeff (buildRow (Z.of_nat k - 1) p) k = ZtoQc (y p).
Proof.
  unfold coeff, buildRow.
  replace (Z.to_nat (Z.of_nat k - 1 + 1)) with k by lia.
  rewrite lookup_app_r by (rewrite powers_length; lia).
  by rewrite powers_length, Nat.sub_diag.
Qed.

(** The left-hand side of a row is the polynomial of the unknowns at the
    point. *)
Lemma sum_powers xv (v : list Qc) :
  sumQc (length v) (λ j, ZtoQc (xv ^ Z.of_nat (length v - 1 - j)) * entry v j)%Qc
  = polyEvalQ v (ZtoQc xv).
Proof.
  induction v as [|c v IH] using rev_ind; [done |].
  rewrite polyEvalQ_snoc, <- IH, length_app. cbn [length].
  replace (length v + 1)%nat with (S (length v)) by lia. cbn [sumQc].
  transitivity (ZtoQc xv * sumQc (length v)
                  (λ j, ZtoQc (xv ^ Z.of_nat (length v - 1 - j)) * entry v j)
                + c)%Qc; [| ring].
  f_equal.
  - rewrite <- sumQc_scale. apply sumQc_ext. intros j Hj.
    replace (S (length v) - 1 - j)%nat with (S (length v - 1 - j)) by lia.
    rewrite Nat2Z.inj_succ, Z.pow_succ_r, ZtoQc_mul by lia.
    unfold entry. rewrite lookup_app_l by done. ring.
  - replace (S (length v) - 1 - length v)%nat with 0%nat by lia.
    unfold entry. rewrite lookup_app_r, Nat.sub_diag by done. cbn.
    change (Z.of_nat 0) with 0%Z. rewrite Z.pow_0_r.
    change (ZtoQc 1) with 1%Qc. ring.
Qed.

Lemma buildRow_sum (k : nat) p (v : list Qc) :
  length v = k →
  sumQc k (λ j, coeff (buildRow (Z.of_nat k - 1) p) j * entry v j)%Qc
  = polyEvalQ v (ZtoQc (x p)).
Proof.
  intros <-. rewrite <- sum_powers. apply sumQc_ext. intros j Hj.
  by rewrite buildRow_coeff.
Qed.

Lemma slice0_take {A : Type} (l : list A) (k : nat) :
  slice0 l (Z.of_nat k) = take k l.
Proof.
  unfold slice0. destruct (Z.ltb_spec (Z.of_nat k) 0); [lia |].
  destruct (decide (k ≤ length l)%nat).
  - f_equal. lia.
  - rewrite !take_ge by lia. done.
Qed.

Lemma wellShaped_buildMatrix (k : nat) pts :
  length pts = k → wellShaped k (buildMatrix pts (Z.of_nat k)).
Proof.
  intros Hlen. unfold buildMatrix. split; [by rewrite length_fmap |].
  apply Forall_fmap, Forall_true. intros p. apply buildRow_length.
Qed.

(** Distinct abscissas make the system of the program non-singular. *)
Lemma nonSingular_buildMatrix (k : nat) pts :
  length pts = k → NoDup (x <$> pts) →
  nonSingular k (buildMatrix pts (Z.of_nat k)).
Proof.
  intros Hlen Hnd v Hv Hrows.
  rewrite <- (rev_involutive v). apply Forall_rev.
  apply (roots_zero ((λ p, ZtoQc (x p)) <$> pts)).
  - rewrite (list_fmap_compose x ZtoQc). apply NoDup_fmap_2; [| done].
    intros a b. apply ZtoQc_inj.
  - by rewrite length_rev, length_fmap, Hv.
  - intros X (p & -> & Hp)%list_elem_of_fmap.
    rewrite <- polyEvalQ_evalLow, <- (buildRow_sum k) by done.
    unfold buildMatrix in Hrows. rewrite Forall_fmap in Hrows.
    by apply (proj1 (Forall_forall _ _) Hrows p), list_elem_of_In.
Qed.

Lemma polyEvalQ_zero (v : list Qc) :
  polyEvalQ v 0%Qc = entry v (length v - 1).
Proof.
  destruct v as [|c v] using rev_ind; [done |].
  rewrite polyEvalQ_snoc, length_app. cbn [length].
  replace (length v + 1 - 1)%nat with (length v) by lia.
  unfold entry. rewrite lookup_app_r, Nat.sub_diag by done. cbn. ring.
Qed.

Lemma polyEval_zero (cs : list Z) :
  polyEval cs 0 = default 0 (cs !! (length cs - 1)%nat).
Proof.
  destruct cs as [|c cs] using rev_ind; [done |].
  unfold polyEval. rewrite fold_left_app, length_app. cbn [length fold_left].
  replace (length cs + 1 - 1)%nat with (length cs) by lia.
  rewrite lookup_app_r, Nat.sub_diag by done. cbn. lia.
Qed.

Lemma reconstruct_unfold pts (k : nat) :
  reconstruct pts (Z.of_nat k)
  = solveLinearEquations (buildMatrix (take k pts) (Z.of_nat k))
    ≫= λ coefficients,
         field (coefficients !! (length coefficients - 1)%nat)
         ≫= λ constantTerm,
              Ok {| warned := negb (den constantTerm =? 1);
                    printed := num constantTerm |}.
Proof. unfold reconstruct. by rewrite slice0_take. Qed.

(** With [k ≥ 1] points of distinct abscissas the program solves for the
    polynomial of degree below [k] through them and reports its value at
    0. *)
Lemma reconstruct_interpolant (k : nat) pts :
  (1 ≤ k ≤ length pts)%nat → NoDup (x <$> take k pts) →
  ∃ sol c0,
    solveLinearEquations (buildMatrix (take k pts) (Z.of_nat k)) = Ok sol
    ∧ length sol = k
    ∧ Forall (λ p, polyEvalQ (Qv <$> sol) (ZtoQc (x p)) = ZtoQc (y p)) (take k pts)
    ∧ canonical c0
    ∧ Qv c0 = polyEvalQ (Qv <$> sol) 0%Qc
    ∧ reconstruct pts (Z.of_nat k)
      = Ok {| warned := negb (den c0 =? 1); printed := num c0 |}.
Proof.
  intros Hk Hnd.
  assert (length (take k pts) = k) as Hlen by (rewrite length_take; lia).
  pose proof (wellShaped_buildMatrix k _ Hlen) as Hshape.
  pose proof (nonSingular_buildMatrix k _ Hlen Hnd) as Hns.
  destruct (gaussJordan_ok k _ k ltac:(lia) Hshape Hns) as [st Hst]; [done |].
  destruct (solution_spec k _ st ltac:(lia) Hshape Hst) as (sol & Hsol & Hl & Hcan & Hsat).
  destruct (lookup_lt_is_Some_2 sol (k - 1)) as [c0 Hc0]; [lia |].
  exists sol, c0. split_and!; [done | done | | | |].
  - unfold buildMatrix in Hsat. rewrite Forall_fmap in Hsat.
    eapply Forall_impl; [| exact Hsat]. intros p Hp. cbn in Hp.
    unfold satisfies in Hp.
    by rewrite buildRow_sum, buildRow_rhs in Hp by by rewrite length_fmap.
  - by eapply Forall_lookup_1 in Hcan.
  - rewrite polyEvalQ_zero, length_fmap, Hl. unfold entry.
    by rewrite list_lookup_fmap, Hc0.
  - rewrite reconstruct_unfold, Hsol. cbn. by rewrite Hl, Hc0.
Qed.

(** When the first [k] points lie on a polynomial with integer
    coefficients of degree below [k], the program prints its constant term
    and does not warn. *)
Lemma reconstruct_secret (cs : list Z) pts :
  (1 ≤ length cs ≤ length pts)%nat →
  NoDup (x <$> take (length cs) pts) →
  Forall (λ p, y p = polyEval cs (x p)) (take (length cs) pts) →
  reconstruct pts (Z.of_nat (length cs))
  = Ok {| warned := false; printed := polyEval cs 0 |}.
Proof.
  intros Hk Hnd Hon. set (k := length cs) in *.
  destruct (reconstruct_interpolant k pts Hk Hnd)
    as (sol & c0 & Hsol & Hl & _ & _ & _ & _).
  assert (length (take k pts) = k) as Hlen by (rewrite length_take; lia).
  pose proof (wellShaped_buildMatrix k _ Hlen) as Hshape.
  destruct (solve_Ok_gaussJordan k _ sol Hshape Hsol) as (Hn & st & Hst).
  destruct (solution_spec k _ st Hn Hshape Hst) as (sol' & Hsol' & _ & Hcan & Hsat).
  assert (sol' = sol) as -> by congruence.
  destruct (reduced_unique k _ st Hn Hshape Hst) as [_ Huniq].
  assert (sol = makeFraction <$> cs) as ->.
  { apply canonical_list_unique; [done | |].
    - apply Forall_fmap, Forall_true. intros z. apply canonical_makeFraction.
    - apply (entries_eq _ _ k); [by rewrite length_fmap | by rewrite !length_fmap |].
      intros j Hj. rewrite (Huniq (Qv <$> sol)); [| by rewrite length_fmap | done..].
      symmetry. apply Huniq; [by rewrite !length_fmap | | done].
      unfold buildMatrix. rewrite Forall_fmap.
      eapply Forall_impl; [| exact Hon]. intros p Hp. cbn in *.
      unfold satisfies. rewrite buildRow_sum, buildRow_rhs by by rewrite !length_fmap.
      rewrite Hp, polyEval_ZtoQc. f_equal.
      rewrite <- list_fmap_compose. apply list_fmap_ext. intros i z _. cbn.
      by rewrite Qv_makeFraction. }
  rewrite reconstruct_unfold, Hsol. cbn. rewrite length_fmap. fold k.
  rewrite list_lookup_fmap, polyEval_zero. fold k.
  destruct (lookup_lt_is_Some_2 cs (k - 1)) as [c Hc]; [lia |].
  by rewrite Hc.
Qed.

(** Two equal abscissas make the system singular: the polynomial whose
    roots are the other abscissas is a non-zero vector of the kernel. *)
Lemma singular_buildMatrix (k : nat) pts (i j : nat) p q :
  length pts = k → i ≠ j → pts !! i = Some p → pts !! j = Some q → x p = x q →
  ¬ nonSingular k (buildMatrix pts (Z.of_nat k)).
Proof.
  intros Hlen Hij Hp Hq Hx Hns.
  assert (j < k)%nat as Hj by (rewrite <- Hlen; by eapply lookup_lt_Some).
  set (Xs := (λ p, ZtoQc (x p)) <$> pts).
  set (ds := delete j Xs).
  assert (length ds = (k - 1)%nat) as Hds.
  { unfold ds, Xs. rewrite length_delete; [by rewrite length_fmap, Hlen |].
    rewrite list_lookup_fmap, Hq. done. }
  assert (∀ X, X ∈ Xs → X ∈ ds) as Hsub.
  { intros X [l HX]%list_elem_of_lookup. apply list_elem_of_lookup. unfold ds.
    assert (∀ l', l' ≠ j → Xs !! l' = Some X → ∃ l'', delete j Xs !! l'' = Some X) as Hother.
    { intros l' Hl' HX'. destruct (decide (l' < j)%nat).
      - exists l'. by rewrite list_lookup_delete_lt.
      - exists (l' - 1)%nat. rewrite list_lookup_delete_ge by lia.
        by replace (S (l' - 1)) with l' by lia. }
    destruct (decide (l = j)) as [-> | Hne]; [| by apply (Hother l)].
    apply (Hother i); [done |].
    unfold Xs in *. rewrite list_lookup_fmap, Hq in HX. rewrite list_lookup_fmap, Hp.
    cbn in *. by rewrite Hx. }
  destruct (prodRoots_monic ds) as (q0 & Hq0 & Hlen0).
  set (v := rev (prodRoots ds)).
  assert (length v = k) as Hv.
  { unfold v. rewrite length_rev, Hq0, length_app, Hlen0, Hds. cbn. lia. }
  specialize (Hns v Hv).
  assert (Forall (λ q, q = 0%Qc) v) as Hzero.
  { apply Hns. unfold buildMatrix. rewrite Forall_fmap.
    apply Forall_lookup_2. intros l r Hr. cbn.
    rewrite buildRow_sum by done. rewrite polyEvalQ_evalLow. unfold v.
    rewrite rev_involutive. apply prodRoots_root, Hsub.
    apply list_elem_of_lookup. exists l. unfold Xs. by rewrite list_lookup_fmap, Hr. }
  unfold v in Hzero. rewrite Hq0, rev_unit in Hzero.
  by apply Forall_inv in Hzero.
Qed.

Lemma reconstruct_repeated (k : nat) pts (i j : nat) p q :
  (k ≤ length pts)%nat → (i < k)%nat → (j < k)%nat → i ≠ j →
  pts !! i = Some p → pts !! j = Some q → x p = x q →
  reconstruct pts (Z.of_nat k) = Err DivisionByZero.
Proof.
  intros Hk Hi Hj Hij Hp Hq Hx.
  assert (length (take k pts) = k) as Hlen by (rewrite length_take; lia).
  pose proof (wellShaped_buildMatrix k _ Hlen) as Hshape.
  rewrite reconstruct_unfold.
  destruct (gaussJordan_outcome k _ k ltac:(lia) Hshape ltac:(lia))
    as [[st Hst] | [Herr _]].
  - exfalso. destruct (reduced_unique k _ st ltac:(lia) Hshape Hst) as [Hns _].
    revert Hns. apply (singular_buildMatrix k _ i j p q); [done | done | | | done].
    + by rewrite lookup_take_lt.
    + by rewrite lookup_take_lt.
  - unfold solveLinearEquations. destruct Hshape as [Hl _]. rewrite Hl, Herr.
    destruct (_ !! 0%nat) eqn:H0; [done |].
    apply lookup_ge_None in H0. lia.
Qed.

Lemma mapM_Forall2 {A B : Type} (f : A → result B) l ys :
  Forall2 (λ a b, f a = Ok b) l ys → mapM f l = Ok ys.
Proof.
  induction 1 as [|a b l ys Hab _ IH]; [done |].
  cbn [mapM]. rewrite Hab. cbn. by rewrite IH.
Qed.

Lemma mapM_first_error {A B : Type} (f : A → result B) l (i : nat) a e :
  l !! i = Some a → f a = Err e →
  (∀ (j : nat) b, (j < i)%nat → l !! j = Some b → ∃ c, f b = Ok c) →
  mapM f l = Err e.
Proof.
  revert i. induction l as [|b l IH]; intros i Hi He Hbefore; [done |].
  cbn [mapM]. destruct i as [|i].
  - injection Hi as ->. by rewrite He.
  - destruct (Hbefore 0%nat b ltac:(lia) eq_refl) as [c ->]. cbn.
    rewrite (IH i Hi He); [done |].
    intros j b' Hj Hb'. apply (Hbefore (S j)); [lia | done].
Qed.

Lemma main_decoded entries pts k :
  Forall2 (λ s p, x p = key s ∧ parseBigIntFromBase (value s) (base s) = Ok (y p))
    entries pts →
  main entries k = reconstruct pts k.
Proof.
  intros H. unfold main, decodePoints. rewrite (mapM_Forall2 _ _ pts); [done |].
  eapply Forall2_impl; [| exact H]. intros s [px py] [Hx Hy]. cbn in *.
  by rewrite Hy, Hx.
Qed.

End MainFacts.

(** With [k ≥ 1] points whose first [k] abscissas are distinct, the program
    succeeds: it has solved for the coefficients of the one polynomial of
    degree below [k] through the first [k] points, and it prints the
    numerator of the value of that polynomial at 0 in lowest terms, with the
    warning exactly when the denominator is not 1. *)
Theorem reconstruct_interpolates (k : nat) (pts : list Main.point) :
  (1 ≤ k ≤ length pts)%nat → NoDup (Main.x <$> take k pts) →
  ∃ sol c0,
    solveLinearEquations (Main.buildMatrix (take k pts) (Z.of_nat k)) = Ok sol
    ∧ length sol = k
    ∧ Forall (λ p, polyEvalQ (Qv <$> sol) (ZtoQc (Main.x p)) = ZtoQc (Main.y p))
        (take k pts)
    ∧ canonical c0
    ∧ Qv c0 = polyEvalQ (Qv <$> sol) 0%Qc
    ∧ Main.reconstruct pts (Z.of_nat k)
      = Ok {| Main.warned := negb (den c0 =? 1); Main.printed := num c0 |}.
Proof. apply reconstruct_interpolant. Qed.

Lemma reconstruct_interpolates_witness :
  ∃ sol c0,
    solveLinearEquations
      (Main.buildMatrix (take 2 [Main.Point 2 1; Main.Point 4 2; Main.Point 9 9]) 2)
    = Ok sol
    ∧ length sol = 2%nat
    ∧ Forall (λ p, polyEvalQ (Qv <$> sol) (ZtoQc (Main.x p)) = ZtoQc (Main.y p))
        (take 2 [Main.Point 2 1; Main.Point 4 2; Main.Point 9 9])
    ∧ canonical c0
    ∧ Qv c0 = polyEvalQ (Qv <$> sol) 0%Qc
    ∧ Main.reconstruct [Main.Point 2 1; Main.Point 4 2; Main.Point 9 9] 2
      = Ok {| Main.warned := negb (den c0 =? 1); Main.printed := num c0 |}.
Proof.
  apply (reconstruct_interpolates 2 [Main.Point 2 1; Main.Point 4 2; Main.Point 9 9]).
  - simpl. lia.
  - cbn. repeat (apply NoDup_cons_2;
      [intros H; repeat (apply elem_of_cons in H as [H | H]; [discriminate H |]);
       by apply elem_of_nil in H |]).
    apply NoDup_nil_2.
Defined.

(** Secret recovery.  When the first [k ≥ 1] points have distinct abscissas
    and lie on a polynomial with [k] integer coefficients, the program prints
    the constant term of that polynomial, its value at 0, and does not
    warn; the points after the first [k] play no part. *)
Theorem reconstruct_recovers_secret (cs : list Z) (pts : list Main.point) :
  (1 ≤ length cs ≤ length pts)%nat →
  NoDup (Main.x <$> take (length cs) pts) →
  Forall (λ p, Main.y p = polyEval cs (Main.x p)) (take (length cs) pts) →
  Main.reconstruct pts (Z.of_nat (length cs))
  = Ok {| Main.warned := false; Main.printed := polyEval cs 0 |}.
Proof. apply reconstruct_secret. Qed.

Lemma reconstruct_recovers_secret_witness :
  Main.reconstruct [Main.Point 1 6; Main.Point 2 15; Main.Point 3 28; Main.Point 4 0] 3
  = Ok {| Main.warned := false; Main.printed := 1 |}.
Proof.
  apply (reconstruct_recovers_secret [2; 3; 1]
           [Main.Point 1 6; Main.Point 2 15; Main.Point 3 28; Main.Point 4 0]).
  - simpl. lia.
  - cbn. repeat (apply NoDup_cons_2;
      [intros H; repeat (apply elem_of_cons in H as [H | H]; [discriminate H |]);
       by apply elem_of_nil in H |]).
    apply NoDup_nil_2.
  - repeat constructor.
Defined.

(** Every entry is decoded before any is dropped: the first entry that
    fails to decode ends the program with its error, whatever [k] is, even
    when the entry lies beyond the first [k]. *)
Theorem main_decode_error (entries : list Main.share) (i : nat) s e (k : Z) :
  entries !! i = Some s →
  parseBigIntFromBase (Main.value s) (Main.base s) = Err e →
  (∀ (j : nat) s', (j < i)%nat → entries !! j = Some s' →
     ∃ v, parseBigIntFromBase (Main.value s') (Main.base s') = Ok v) →
  Main.main entries k = Err e.
Proof.
  intros Hi He Hbefore. unfold Main.main, Main.decodePoints.
  rewrite (mapM_first_error _ entries i s e Hi); [done | by rewrite He |].
  intros j s' Hj Hs'. destruct (Hbefore j s' Hj Hs') as [v ->]. cbn. eauto.
Qed.

Lemma main_decode_error_witness :
  Main.main [Main.Share 1 10 "6"; Main.Share 2 10 "15"; Main.Share 3 2 "102"] 2
  = Err (DigitOutOfRange "2" 2).
Proof.
  apply (main_decode_error _ 2 (Main.Share 3 2 "102")); [reflexivity | reflexivity |].
  intros j s' Hj Hs'.
  destruct j as [|[|j]]; [| | lia]; injection Hs' as <-; eexists; reflexivity.
Defined.

(** End to end.  When every share decodes, and the first [k ≥ 1] shares have
    distinct keys and decode to the values at their keys of a polynomial
    with [k] integer coefficients, the program prints the constant term of
    that polynomial and does not warn. *)
Theorem main_recovers_secret (cs : list Z) (entries : list Main.share) :
  (1 ≤ length cs ≤ length entries)%nat →
  NoDup (Main.key <$> take (length cs) entries) →
  Forall (λ s, ∃ v, parseBigIntFromBase (Main.value s) (Main.base s) = Ok v) entries →
  Forall (λ s, parseBigIntFromBase (Main.value s) (Main.base s)
               = Ok (polyEval cs (Main.key s))) (take (length cs) entries) →
  Main.main entries (Z.of_nat (length cs))
  = Ok {| Main.warned := false; Main.printed := polyEval cs 0 |}.
Proof.
  intros Hk Hnd Hall Hfirst.
  assert (∃ pts, Forall2 (λ s p, Main.x p = Main.key s
      ∧ parseBigIntFromBase (Main.value s) (Main.base s) = Ok (Main.y p)) entries pts)
    as [pts Hpts].
  { clear -Hall. induction Hall as [|s l [v Hv] _ [pts IH]]; [by exists [] |].
    exists (Main.Point (Main.key s) v :: pts). by constructor. }
  rewrite (main_decoded entries pts _ Hpts).
  pose proof (Forall2_length Hpts) as Hlen.
  pose proof (Forall2_take _ _ _ (length cs) Hpts) as Htake.
  apply reconstruct_secret.
  - lia.
  - replace (Main.x <$> take (length cs) pts)
      with (Main.key <$> take (length cs) entries); [done |].
    clear -Htake. induction Htake as [|s p l l' [Hx _] _ IH]; [done |].
    cbn. by rewrite IH, Hx.
  - apply Forall_lookup_2. intros j p Hp.
    destruct (Forall2_lookup_r _ _ _ _ _ Htake Hp) as (s & Hs & Hx & Hy).
    pose proof (Forall_lookup_1 _ _ _ _ Hfirst Hs) as Hval. cbn in Hval.
    rewrite Hx. congruence.
Qed.

Lemma main_recovers_secret_witness :
  Main.main [Main.Share 1 10 "6"; Main.Share 2 16 "f"; Main.Share 3 2 "11100";
             Main.Share 4 36 "-zz"] 3
  = Ok {| Main.warned := false; Main.printed := 1 |}.
Proof.
  apply (main_recovers_secret [2; 3; 1]).
  - simpl. lia.
  - cbn. repeat (apply NoDup_cons_2;
      [intros H; repeat (apply elem_of_cons in H as [H | H]; [discriminate H |]);
       by apply elem_of_nil in H |]).
    apply NoDup_nil_2.
  - repeat constructor; eexists; reflexivity.
  - repeat constructor.
Defined.

(** Two points with the same abscissa among the first [k] make the system
    singular, and the program ends with the division-by-zero error, whether
    or not the two points agree. *)
Theorem reconstruct_repeated_abscissa (k : nat) (pts : list Main.point) (i j : nat) p q :
  (k ≤ length pts)%nat → (i < k)%nat → (j < k)%nat → i ≠ j →
  pts !! i = Some p → pts !! j = Some q → Main.x p = Main.x q →
  Main.reconstruct pts (Z.of_nat k) = Err DivisionByZero.
Proof. apply reconstruct_repeated. Qed.

Lemma reconstruct_repeated_abscissa_witness :
  Main.reconstruct [Main.Point 1 6; Main.Point 2 15; Main.Point 1 7] 3
  = Err DivisionByZero.
Proof.
  apply (reconstruct_repeated_abscissa 3 _ 0 2 (Main.Point 1 6) (Main.Point 1 7));
    (simpl; lia) || reflexivity || done.
Defined.

(** Without points, or with [k = 0], the system is empty and the program
    ends with the [TypeError] of [matrix[0].length]. *)
Theorem reconstruct_degenerate :
  (∀ k, Main.reconstruct [] k = Err TypeError)
  ∧ (∀ pts, Main.reconstruct pts 0 = Err TypeError).
Proof.
  split.
  - intros k. unfold Main.reconstruct, Main.slice0. by rewrite take_nil.
  - intros pts. unfold Main.reconstruct, Main.slice0.
    change (0 <? 0) with false. cbv iota.
    by replace (Z.to_nat (Z.min 0 (Z.of_nat (length pts)))) with 0%nat by lia.
Qed.


Example decode_ff : parseBigIntFromBase "  -Ff " 16 = Ok (-255).
Proof. reflexivity. Qed.


Example solve_spec_example :
  solveLinearEquations [[1; 1; 1; 6]; [4; 2; 1; 15]; [9; 3; 1; 28]]
  = Ok [Frac 2 1; Frac 3 1; Frac 1 1].
Proof. vm_compute. reflexivity. Qed.

Example solve_swap_example :
  solveLinearEquations [[0; 2; 4]; [3; 0; 1]] = Ok [Frac 1 3; Frac 2 1]
  ∧ rowSwaps [[0; 2; 4]; [3; 0; 1]] = Ok [(0%nat, 1%nat)].
Proof. vm_compute. split; reflexivity. Qed.

Example solve_singular_example :
  solveLinearEquations [[1; 2; 3]; [1; 2; 3]] = Err DivisionByZero.
Proof. vm_compute. reflexivity. Qed.

Example divide_zero : divide (Frac 1 1) (Frac 0 1) = Ok (Frac 1 0).
Proof. vm_compute. reflexivity. Qed.

Example solveS_example :
  let σ := [IntArray [0; 2; 4]; IntArray [3; 0; 1]; RefArray [0; 1]%nat] in
  let '(σ', r) := solveLinearEquationsS 2%nat σ in
  take 3 σ' = σ ∧ ∃ l, r = Ok l ∧ σ' !! l = Some (FracArray [Frac 1 3; Frac 2 1]).
Proof. vm_compute. split; [reflexivity | eexists; split; reflexivity]. Qed.
